(** * webseed2torznab: torrent metadata extraction and catalog

    A shallow embedding of [main.go]: the bencode codec the program
    calls (package github.com/zeebo/bencode, decoding into
    [map[string]interface{}] and into the tagged structs of [main.go]),
    [calculateInfoHash], [parseTorrentFile], [extractWebSeeds],
    [LoadTorrents] and [SearchTorrents], the handlers of the HTTP API
    with the Torznab feed they build, and the start of [main]; followed
    by the properties of the specification that concern them, and by
    further properties of the code. *)

From Stdlib Require Import Ascii String.
From Stdlib Require Import List ZArith Lia Bool Arith Permutation.
Import ListNotations.

Set Implicit Arguments.
Set Warnings "-register-all".
Close Scope string_scope.

(** ** Bytes and Go strings

    A Go [string] and a [[]byte] are both sequences of 8-bit bytes. *)

Definition bytes := list ascii.

Definition str (s : string) : bytes := list_ascii_of_string s.
Arguments str s%_string.

Definition code (c : ascii) : nat := nat_of_ascii c.

Fixpoint bytes_eqb (a b : bytes) : bool :=
  match a, b with
  | [], [] => true
  | x :: a', y :: b' => Ascii.eqb x y && bytes_eqb a' b'
  | _, _ => false
  end.

(** Go compares strings byte by byte ([<] on [string]). *)
Fixpoint bytes_ltb (a b : bytes) : bool :=
  match a, b with
  | _, [] => false
  | [], _ :: _ => true
  | x :: a', y :: b' =>
      (code x <? code y) || (Ascii.eqb x y && bytes_ltb a' b')
  end.

(** ** Results of Go calls

    A call returns normally, returns a non-nil [error], or panics.
    [NoFuel] is the model's own outcome for a recursion cut short; the
    decoders are shown never to produce it on the fuel [DecodeBytes]
    gives them. *)

Inductive error :=
| ErrEOF                 (* io.EOF / io.ErrUnexpectedEOF *)
| ErrInvalidInput        (* bencode: "Invalid input" *)
| ErrSyntax              (* strconv.ErrSyntax *)
| ErrRange               (* strconv.ErrRange *)
| ErrNegativeLength      (* bencode: invalid negative string length *)
| ErrCannotStore         (* bencode: value kind does not fit the target *)
| ErrNoInfo              (* "no info section found" *)
| ErrReadFile            (* "error reading file: ..." *)
| ErrReadDir             (* "error reading torrents directory: ..." *)
| ErrDecode (e : error). (* "error decoding bencode: ..." *)

Inductive result (A : Type) :=
| Ok (a : A)
| Err (e : error)
| Panic
| NoFuel.

Arguments Ok {A} a.
Arguments Err {A} e.
Arguments Panic {A}.
Arguments NoFuel {A}.

Definition bind {A B} (r : result A) (k : A -> result B) : result B :=
  match r with
  | Ok a => k a
  | Err e => Err e
  | Panic => Panic
  | NoFuel => NoFuel
  end.

Notation "x <- e ;; k" := (bind e (fun x => k))
  (at level 61, e at next level, right associativity).
Notation "' p <- e ;; k" := (bind e (fun x => let p := x in k))
  (at level 61, p pattern, e at next level, right associativity).

(** ** Decimal numbers: strconv.ParseInt and strconv.FormatInt *)

Module Strconv.

Local Open Scope Z_scope.

Definition isDigit (c : ascii) : bool :=
  ((48 <=? code c) && (code c <=? 57))%nat.

Definition digitVal (c : ascii) : Z := Z.of_nat (code c) - 48.

Definition digitChar (d : Z) : ascii := ascii_of_nat (48 + Z.to_nat d).

(** The value of a run of decimal digits, [None] when a byte is not a
    digit. *)
Fixpoint digitsFrom (acc : Z) (s : bytes) : option Z :=
  match s with
  | [] => Some acc
  | c :: t => if isDigit c then digitsFrom (10 * acc + digitVal c) t else None
  end.

(** [strconv.ParseInt(s, 10, bitSize)]: an optional sign, then at least
    one digit and nothing but digits; the value must fit [bitSize] bits. *)
Definition ParseInt (s : bytes) (bitSize : Z) : result Z :=
  match s with
  | [] => Err ErrSyntax
  | c :: t =>
      let neg := Ascii.eqb c "-" in
      let ds := if Ascii.eqb c "+" || neg then t else s in
      match ds with
      | [] => Err ErrSyntax
      | _ =>
          match digitsFrom 0 ds with
          | None => Err ErrSyntax
          | Some un =>
              let cutoff := 2 ^ (bitSize - 1) in
              if neg then (if cutoff <? un then Err ErrRange else Ok (- un))
              else (if cutoff <=? un then Err ErrRange else Ok un)
          end
      end
  end.

Fixpoint formatDigits (fuel : nat) (n : Z) (acc : bytes) : bytes :=
  match fuel with
  | O => acc
  | S f =>
      let acc' := digitChar (n mod 10) :: acc in
      if n <? 10 then acc' else formatDigits f (n / 10) acc'
  end.

Definition FormatUint (n : Z) : bytes :=
  formatDigits (S (Z.to_nat (Z.log2 n))) n [].

(** [strconv.FormatInt(n, 10)], also what [fmt]'s [%d] prints. *)
Definition FormatInt (n : Z) : bytes :=
  if n <? 0 then "-"%char :: FormatUint (- n) else FormatUint n.

End Strconv.

(** ** The bencode codec (package bencode)

    The program imports its codec (github.com/zeebo/bencode).  The
    package decodes by reflection on the value it is asked to fill, one
    token at a time: [i...e] through [strconv.ParseInt] at 64 bits, a
    string's length through [strconv.ParseInt] at 32 bits, lists and
    dictionaries by a loop up to the closing [e]; it checks neither the
    order of keys nor what follows the value.  Its encoder writes a
    map's entries with the keys sorted.

    What [DecodeBytes] stores into an [interface{}]: an [int64], a
    [string], a [[]interface{}] or a [map[string]interface{}]. *)

Inductive value :=
| VInt (n : Z)
| VString (s : bytes)
| VList (l : list value)
| VDict (m : list (bytes * value)).

(** A Go map with string keys, as the association list of its entries.
    Assignment replaces the entry of a key already present. *)
Definition gomap (A : Type) := list (bytes * A).

Fixpoint map_get {A} (k : bytes) (m : gomap A) : option A :=
  match m with
  | [] => None
  | (k', x) :: t => if bytes_eqb k' k then Some x else map_get k t
  end.

Fixpoint map_set {A} (k : bytes) (x : A) (m : gomap A) : gomap A :=
  match m with
  | [] => [(k, x)]
  | (k', y) :: t =>
      if bytes_eqb k' k then (k, x) :: t else (k', y) :: map_set k x t
  end.

Definition keys {A} (m : gomap A) : list bytes := map fst m.

(** Sorting the entries by key (the encoder sorts the map's keys). *)
Fixpoint insertKey {A} (k : bytes) (x : A) (l : gomap A) : gomap A :=
  match l with
  | [] => [(k, x)]
  | (k', y) :: t =>
      if bytes_ltb k' k then (k', y) :: insertKey k x t else (k, x) :: l
  end.

Definition sortKeys {A} (l : gomap A) : gomap A :=
  fold_right (fun kv acc => insertKey (fst kv) (snd kv) acc) [] l.

(** Entries in weakly ascending key order. *)
Fixpoint ascending {A} (l : gomap A) : Prop :=
  match l with
  | [] => True
  | (k, _) :: t =>
      match t with
      | [] => True
      | (k', _) :: _ => bytes_ltb k' k = false
      end /\ ascending t
  end.

Module Bencode.

Import Strconv.

(** *** Encoding *)

Definition encodeString (s : bytes) : bytes :=
  FormatInt (Z.of_nat (length s)) ++ ":"%char :: s.

Definition encodeEntry (kb : bytes * bytes) : bytes :=
  encodeString (fst kb) ++ snd kb.

Fixpoint encodeValue (v : value) : bytes :=
  match v with
  | VInt n => "i"%char :: FormatInt n ++ ["e"%char]
  | VString s => encodeString s
  | VList l => "l"%char :: flat_map encodeValue l ++ ["e"%char]
  | VDict m =>
      "d"%char ::
      flat_map encodeEntry
        (sortKeys (map (fun kv => (fst kv, encodeValue (snd kv))) m))
      ++ ["e"%char]
  end.

(** The entries of a dictionary, encoded in the order given. *)
Definition encodeEntries (es : gomap value) : bytes :=
  flat_map encodeEntry (map (fun kv => (fst kv, encodeValue (snd kv))) es).

(** [bencode.EncodeBytes] on a value held in an [interface{}]. *)
Definition EncodeBytes (v : value) : result bytes := Ok (encodeValue v).

(** *** Decoding *)

(** [readBytes(delim)]: the bytes before the first [delim], and what
    follows it. *)
Fixpoint readBytes (delim : ascii) (bs : bytes) : result (bytes * bytes) :=
  match bs with
  | [] => Err ErrEOF
  | c :: t =>
      if Ascii.eqb c delim then Ok ([], t)
      else '(line, rest) <- readBytes delim t ;; Ok (c :: line, rest)
  end.

(** [decodeInt], after the leading [i] has been read. *)
Definition decodeInt (bs : bytes) : result (Z * bytes) :=
  '(digits, rest) <- readBytes "e" bs ;;
  n <- ParseInt digits 64 ;;
  Ok (n, rest).

(** [decodeString]: a length, a colon, and that many bytes. *)
Definition decodeString (bs : bytes) : result (bytes * bytes) :=
  '(digits, rest) <- readBytes ":" bs ;;
  l <- ParseInt digits 32 ;;
  if (l <? 0)%Z then Err ErrNegativeLength
  else if (Z.to_nat l <=? length rest)%nat
       then Ok (firstn (Z.to_nat l) rest, skipn (Z.to_nat l) rest)
       else Err ErrEOF.

(** [decodeInto] for a target of type [interface{}], with the loops of
    [decodeList] and [decodeDict]. *)
Fixpoint decodeInto (fuel : nat) (bs : bytes) : result (value * bytes) :=
  match fuel with
  | O => NoFuel
  | S f =>
      match bs with
      | [] => Err ErrEOF
      | c :: rest =>
          if Ascii.eqb c "i" then
            '(n, r) <- decodeInt rest ;; Ok (VInt n, r)
          else if isDigit c then
            '(s, r) <- decodeString bs ;; Ok (VString s, r)
          else if Ascii.eqb c "l" then
            '(l, r) <- decodeList f rest ;; Ok (VList l, r)
          else if Ascii.eqb c "d" then
            '(m, r) <- decodeDict f rest [] ;; Ok (VDict m, r)
          else Err ErrInvalidInput
      end
  end
with decodeList (fuel : nat) (bs : bytes) : result (list value * bytes) :=
  match fuel with
  | O => NoFuel
  | S f =>
      match bs with
      | [] => Err ErrEOF
      | c :: rest =>
          if Ascii.eqb c "e" then Ok ([], rest)
          else
            '(v, r1) <- decodeInto f bs ;;
            '(vs, r2) <- decodeList f r1 ;;
            Ok (v :: vs, r2)
      end
  end
with decodeDict (fuel : nat) (bs : bytes) (m : gomap value)
  : result (gomap value * bytes) :=
  match fuel with
  | O => NoFuel
  | S f =>
      match bs with
      | [] => Err ErrEOF
      | c :: rest =>
          if Ascii.eqb c "e" then Ok (m, rest)
          else
            '(k, r1) <- decodeString bs ;;
            '(v, r2) <- decodeInto f r1 ;;
            decodeDict f r2 (map_set k v m)
      end
  end.

(** *** Decoding into typed targets

    [decodeInto] looks at the kind of the value it is asked to fill.  A
    [decoder T] is [decodeInto] at a target of Go type [T]: it is given
    the target's present content and returns the new one. *)

Definition decoder (T : Type) := nat -> T -> bytes -> result (T * bytes).

(** What [decodeInto] does when the token does not fit the target: the
    token's own read comes first where the library reads before it
    checks the kind. *)
Definition mismatch {T} (c : ascii) (bs rest : bytes) : result (T * bytes) :=
  if Ascii.eqb c "i" then _ <- readBytes "e" rest ;; Err ErrCannotStore
  else if isDigit c then _ <- decodeString bs ;; Err ErrCannotStore
  else if Ascii.eqb c "l" then Err ErrCannotStore
  else if Ascii.eqb c "d" then Err ErrCannotStore
  else Err ErrInvalidInput.

(** Target [int64]. *)
Definition intoInt64 : decoder Z := fun _ _ bs =>
  match bs with
  | [] => Err ErrEOF
  | c :: rest =>
      if Ascii.eqb c "i" then decodeInt rest else mismatch c bs rest
  end.

(** Target [string]. *)
Definition intoString : decoder bytes := fun _ _ bs =>
  match bs with
  | [] => Err ErrEOF
  | c :: rest =>
      if Ascii.eqb c "i" then mismatch c bs rest
      else if isDigit c then decodeString bs
      else mismatch c bs rest
  end.

(** The element at index [i] is decoded in place; the slice grows by one
    when [i] is its length. *)
Definition setIndex {E} (i : nat) (x : E) (l : list E) : list E :=
  firstn i l ++ x :: skipn (S i) l.

(** The loop of [decodeList] on a slice of element type [E]. *)
Fixpoint sliceLoop {E} (zero : E) (elem : decoder E)
    (fuel : nat) (cur : list E) (i : nat) (bs : bytes)
  : result (list E * bytes) :=
  match fuel with
  | O => NoFuel
  | S f =>
      match bs with
      | [] => Err ErrEOF
      | c :: rest =>
          if Ascii.eqb c "e" then Ok (cur, rest)
          else
            '(x, r1) <- elem f (nth i cur zero) bs ;;
            sliceLoop zero elem f (setIndex i x cur) (S i) r1
      end
  end.

(** Target [[]E], for an element type other than [byte]. *)
Definition intoSlice {E} (zero : E) (elem : decoder E) : decoder (list E) :=
  fun fuel cur bs =>
  match bs with
  | [] => Err ErrEOF
  | c :: rest =>
      if Ascii.eqb c "i" then mismatch c bs rest
      else if isDigit c then mismatch c bs rest
      else if Ascii.eqb c "l" then sliceLoop zero elem fuel cur 0 rest
      else mismatch c bs rest
  end.

(** The loop of [decodeDict] on a struct: [field key] is the decoder of
    the field tagged [key], if the struct has one; the value of any
    other key is decoded and dropped. *)
Fixpoint structLoop {S} (field : bytes -> option (decoder S))
    (fuel : nat) (cur : S) (bs : bytes) : result (S * bytes) :=
  match fuel with
  | O => NoFuel
  | S f =>
      match bs with
      | [] => Err ErrEOF
      | c :: rest =>
          if Ascii.eqb c "e" then Ok (cur, rest)
          else
            '(k, r1) <- decodeString bs ;;
            match field k with
            | Some dec =>
                '(cur', r2) <- dec f cur r1 ;;
                structLoop field f cur' r2
            | None =>
                '(_, r2) <- decodeInto f r1 ;;
                structLoop field f cur r2
            end
      end
  end.

(** Target: a struct. *)
Definition intoStruct {S} (field : bytes -> option (decoder S)) : decoder S :=
  fun fuel cur bs =>
  match bs with
  | [] => Err ErrEOF
  | c :: rest =>
      if Ascii.eqb c "i" then mismatch c bs rest
      else if isDigit c then mismatch c bs rest
      else if Ascii.eqb c "l" then mismatch c bs rest
      else if Ascii.eqb c "d" then structLoop field fuel cur rest
      else mismatch c bs rest
  end.

(** Target [map[string]interface{}]. *)
Definition intoMap : decoder (gomap value) := fun fuel cur bs =>
  match bs with
  | [] => Err ErrEOF
  | c :: rest =>
      if Ascii.eqb c "i" then mismatch c bs rest
      else if isDigit c then mismatch c bs rest
      else if Ascii.eqb c "l" then mismatch c bs rest
      else if Ascii.eqb c "d" then decodeDict fuel rest cur
      else mismatch c bs rest
  end.

(** A field of a struct, as the decoder that fills it. *)
Definition fieldOf {S T} (get : S -> T) (set : T -> S -> S) (dec : decoder T)
  : decoder S :=
  fun fuel cur bs => '(x, r) <- dec fuel (get cur) bs ;; Ok (set x cur, r).

(** The recursion of the decoders is on [fuel]; this much is enough for
    any input (see [DecodeBytes_fuel]). *)
Definition fuelFor (data : bytes) : nat := S (2 * length data).

(** [bencode.DecodeBytes(data, &target)]: one value is decoded from the
    front of [data]; what follows it is not looked at. *)
Definition DecodeBytes {T} (dec : decoder T) (zero : T) (data : bytes)
  : result T :=
  '(x, _) <- dec (fuelFor data) zero data ;; Ok x.

(** *** What is shown of the decoders *)

(** A call on [bs] went well: if it returned a value it consumed at
    least one byte, it did not panic, and with [enough] fuel it did not
    run out of it. *)
Definition good {T} (bs : bytes) (enough : Prop) (r : result (T * bytes)) : Prop :=
  (forall x rest, r = Ok (x, rest) -> length rest < length bs) /\
  r <> Panic /\
  (enough -> r <> NoFuel).

Definition sound {T} (dec : decoder T) : Prop :=
  forall fuel cur bs, good bs (2 * length bs < fuel) (dec fuel cur bs).

(** From [bs], the decoder into [interface{}] reads a value and leaves
    [r]. *)
Definition reads (bs r : bytes) : Prop :=
  exists fuel v, decodeInto fuel bs = Ok (v, r).

(** A typed decoder reads what the decoder into [interface{}] reads. *)
Definition agrees {T} (dec : decoder T) : Prop :=
  forall fuel cur bs x r, dec fuel cur bs = Ok (x, r) -> reads bs r.

End Bencode.

(** ** crypto/sha1 and encoding/hex

    SHA-1 as FIPS 180 gives it, on 32-bit words held in [Z]. *)

Module SHA1.

Local Open Scope Z_scope.

Definition w32 (x : Z) : Z := x mod 2 ^ 32.

Definition rotl (n x : Z) : Z :=
  w32 (Z.lor (Z.shiftl x n) (Z.shiftr x (32 - n))).

Definition not32 (x : Z) : Z := Z.lxor x 4294967295.

(** [n] bytes of [x], most significant first. *)
Fixpoint bigEndian (n : nat) (x : Z) : list Z :=
  match n with
  | O => []
  | S n' => bigEndian n' (Z.shiftr x 8) ++ [x mod 256]
  end.

Definition padding (len : nat) : list Z :=
  128 :: repeat 0 ((119 - len mod 64) mod 64)%nat
      ++ bigEndian 8 (8 * Z.of_nat len).

Fixpoint words (bs : list Z) : list Z :=
  match bs with
  | a :: b :: c :: d :: t =>
      (((a * 256 + b) * 256 + c) * 256 + d) :: words t
  | _ => []
  end.

Fixpoint blocks (n : nat) (ws : list Z) : list (list Z) :=
  match n with
  | O => []
  | S n' => firstn 16 ws :: blocks n' (skipn 16 ws)
  end.

(** The message schedule, most recent word first. *)
Fixpoint extend (n : nat) (w : list Z) : list Z :=
  match n with
  | O => w
  | S n' =>
      extend n'
        (rotl 1 (Z.lxor (Z.lxor (nth 2 w 0) (nth 7 w 0))
                        (Z.lxor (nth 13 w 0) (nth 15 w 0))) :: w)
  end.

Definition schedule (block : list Z) : list Z :=
  rev (extend 64 (rev block)).

Definition state := (Z * Z * Z * Z * Z)%type.

Definition round (st : state * nat) (wt : Z) : state * nat :=
  let '((a, b, c, d, e), t) := st in
  let '(f, k) :=
    if (t <? 20)%nat then
      (Z.lor (Z.land b c) (Z.land (not32 b) d), 1518500249)
    else if (t <? 40)%nat then
      (Z.lxor (Z.lxor b c) d, 1859775393)
    else if (t <? 60)%nat then
      (Z.lor (Z.lor (Z.land b c) (Z.land b d)) (Z.land c d), 2400959708)
    else
      (Z.lxor (Z.lxor b c) d, 3395469782) in
  ((w32 (rotl 5 a + f + e + k + wt), a, rotl 30 b, c, d), S t).

Definition compress (h : state) (block : list Z) : state :=
  let '(h0, h1, h2, h3, h4) := h in
  let '((a, b, c, d, e), _) := fold_left round (schedule block) (h, O) in
  (w32 (h0 + a), w32 (h1 + b), w32 (h2 + c), w32 (h3 + d), w32 (h4 + e)).

Definition init : state :=
  (1732584193, 4023233417, 2562383102, 271733878, 3285377520).

Definition toByte (z : Z) : ascii := ascii_of_nat (Z.to_nat z).

(** [sha1.Sum(data)]: the 20 bytes of the digest. *)
Definition Sum (data : bytes) : bytes :=
  let msg := map (fun c => Z.of_nat (code c)) data in
  let padded := msg ++ padding (length data) in
  let bl := blocks (length padded / 64) (words padded) in
  let '(h0, h1, h2, h3, h4) := fold_left compress bl init in
  map toByte
    (bigEndian 4 h0 ++ bigEndian 4 h1 ++ bigEndian 4 h2
     ++ bigEndian 4 h3 ++ bigEndian 4 h4).

End SHA1.

Module Hex.

Definition hexDigit (n : nat) : ascii :=
  nth n (str "0123456789abcdef") "0"%char.

(** [hex.EncodeToString], and [fmt]'s [%x] on a byte slice: two
    lowercase digits per byte. *)
Definition EncodeToString (bs : bytes) : bytes :=
  flat_map (fun c => [hexDigit (code c / 16); hexDigit (code c mod 16)]) bs.

End Hex.

(** ** strings and slices of the Go library *)

Module Strings.

Fixpoint HasPrefix (s prefix : bytes) : bool :=
  match prefix, s with
  | [], _ => true
  | p :: prefix', c :: s' => Ascii.eqb c p && HasPrefix s' prefix'
  | _ :: _, [] => false
  end.

(** [strings.Contains(s, substr)]. *)
Fixpoint Contains (s substr : bytes) : bool :=
  HasPrefix s substr ||
  match s with
  | [] => false
  | _ :: s' => Contains s' substr
  end.

(** [strings.HasSuffix(s, suffix)]. *)
Definition HasSuffix (s suffix : bytes) : bool :=
  (length suffix <=? length s)%nat &&
  bytes_eqb (skipn (length s - length suffix) s) suffix.

(** ASCII lowering: what [strings.ToLower] does to a string of ASCII
    bytes. *)
Definition lowerByte (c : ascii) : ascii :=
  if ((65 <=? code c) && (code c <=? 90))%nat
  then ascii_of_nat (code c + 32) else c.

Definition asciiToLower (s : bytes) : bytes := map lowerByte s.

End Strings.

(** A [[]byte] as the program holds it: the array it points into, from
    the slice's first byte up to its capacity, and its length. *)
Record byteSlice := { array : bytes; len : nat }.

Definition cap (s : byteSlice) : nat := length (array s).

Definition contents (s : byteSlice) : bytes := firstn (len s) (array s).

(** The slice expression [s[:n]]: its bound is the capacity, past which
    it panics. *)
Definition sliceTo (s : byteSlice) (n : nat) : result bytes :=
  if (n <=? cap s)%nat then Ok (firstn n (array s)) else Panic.

(** An [int64] sum wraps around. *)
Definition wrap64 (z : Z) : Z := ((z + 2 ^ 63) mod 2 ^ 64 - 2 ^ 63)%Z.

(** A [time.Time], as seconds and nanoseconds since the Unix epoch. *)
Record Time := { sec : Z; nsec : Z }.

Definition Unix (s ns : Z) : Time := {| sec := s; nsec := ns |}.

(** A value of type [interface{}]: nil, something the decoder stored, or
    a [[]string]. *)
Inductive iface :=
| INil
| IValue (v : value)
| IStrings (l : list bytes).

(** ** The data of main.go *)

Record File := { File_Path : list bytes; File_Length : Z }.

Record TorrentInfo := {
  TorrentInfo_Name : bytes;
  TorrentInfo_InfoHash : bytes;
  TorrentInfo_Size : Z;
  TorrentInfo_Files : list File;
  TorrentInfo_WebSeeds : list bytes;
  TorrentInfo_CreatedBy : bytes;
  TorrentInfo_CreatedDate : Time;
  TorrentInfo_Comment : bytes;
  TorrentInfo_FilePath : bytes }.

Record FileDict := { FileDict_Length : Z; FileDict_Path : list bytes }.

Record InfoDict := {
  InfoDict_Name : bytes;
  InfoDict_Length : Z;
  InfoDict_Files : list FileDict;
  InfoDict_PieceLength : Z;
  InfoDict_Pieces : bytes }.

Record TorrentMetaInfo := {
  Announce : bytes;
  AnnounceList : iface;
  Comment : bytes;
  CreatedBy : bytes;
  CreationDate : Z;
  Info : InfoDict;
  URLList : iface }.

Record TorrentManager := {
  torrentsDir : bytes;
  torrents : list TorrentInfo }.

(** ** The bencode tags of the structs

    Each struct's [bencode:"..."] tags, as the table [decodeDict] works
    from: the decoder of the field a key names. *)

Module Tags.

Import Bencode.

Definition intoInterface : decoder iface := fun fuel _ bs =>
  '(v, r) <- decodeInto fuel bs ;; Ok (IValue v, r).

Definition zeroFileDict : FileDict :=
  {| FileDict_Length := 0; FileDict_Path := [] |}.

Definition FileDict_field (key : bytes) : option (decoder FileDict) :=
  if bytes_eqb key (str "length") then
    Some (fieldOf FileDict_Length
            (fun x s => {| FileDict_Length := x;
                           FileDict_Path := FileDict_Path s |})
            intoInt64)
  else if bytes_eqb key (str "path") then
    Some (fieldOf FileDict_Path
            (fun x s => {| FileDict_Length := FileDict_Length s;
                           FileDict_Path := x |})
            (intoSlice [] intoString))
  else None.

Definition zeroInfoDict : InfoDict :=
  {| InfoDict_Name := []; InfoDict_Length := 0; InfoDict_Files := [];
     InfoDict_PieceLength := 0; InfoDict_Pieces := [] |}.

Definition InfoDict_field (key : bytes) : option (decoder InfoDict) :=
  if bytes_eqb key (str "name") then
    Some (fieldOf InfoDict_Name
            (fun x s => {| InfoDict_Name := x;
                           InfoDict_Length := InfoDict_Length s;
                           InfoDict_Files := InfoDict_Files s;
                           InfoDict_PieceLength := InfoDict_PieceLength s;
                           InfoDict_Pieces := InfoDict_Pieces s |})
            intoString)
  else if bytes_eqb key (str "length") then
    Some (fieldOf InfoDict_Length
            (fun x s => {| InfoDict_Name := InfoDict_Name s;
                           InfoDict_Length := x;
                           InfoDict_Files := InfoDict_Files s;
                           InfoDict_PieceLength := InfoDict_PieceLength s;
                           InfoDict_Pieces := InfoDict_Pieces s |})
            intoInt64)
  else if bytes_eqb key (str "files") then
    Some (fieldOf InfoDict_Files
            (fun x s => {| InfoDict_Name := InfoDict_Name s;
                           InfoDict_Length := InfoDict_Length s;
                           InfoDict_Files := x;
                           InfoDict_PieceLength := InfoDict_PieceLength s;
                           InfoDict_Pieces := InfoDict_Pieces s |})
            (intoSlice zeroFileDict (intoStruct FileDict_field)))
  else if bytes_eqb key (str "piece length") then
    Some (fieldOf InfoDict_PieceLength
            (fun x s => {| InfoDict_Name := InfoDict_Name s;
                           InfoDict_Length := InfoDict_Length s;
                           InfoDict_Files := InfoDict_Files s;
                           InfoDict_PieceLength := x;
                           InfoDict_Pieces := InfoDict_Pieces s |})
            intoInt64)
  else if bytes_eqb key (str "pieces") then
    Some (fieldOf InfoDict_Pieces
            (fun x s => {| InfoDict_Name := InfoDict_Name s;
                           InfoDict_Length := InfoDict_Length s;
                           InfoDict_Files := InfoDict_Files s;
                           InfoDict_PieceLength := InfoDict_PieceLength s;
                           InfoDict_Pieces := x |})
            intoString)
  else None.

Definition zeroTorrentMetaInfo : TorrentMetaInfo :=
  {| Announce := []; AnnounceList := INil; Comment := []; CreatedBy := [];
     CreationDate := 0; Info := zeroInfoDict; URLList := INil |}.

Definition TorrentMetaInfo_field (key : bytes)
  : option (decoder TorrentMetaInfo) :=
  if bytes_eqb key (str "announce") then
    Some (fieldOf Announce
            (fun x s => {| Announce := x; AnnounceList := AnnounceList s;
                           Comment := Comment s; CreatedBy := CreatedBy s;
                           CreationDate := CreationDate s; Info := Info s;
                           URLList := URLList s |})
            intoString)
  else if bytes_eqb key (str "announce-list") then
    Some (fieldOf AnnounceList
            (fun x s => {| Announce := Announce s; AnnounceList := x;
                           Comment := Comment s; CreatedBy := CreatedBy s;
                           CreationDate := CreationDate s; Info := Info s;
                           URLList := URLList s |})
            intoInterface)
  else if bytes_eqb key (str "comment") then
    Some (fieldOf Comment
            (fun x s => {| Announce := Announce s;
                           AnnounceList := AnnounceList s;
                           Comment := x; CreatedBy := CreatedBy s;
                           CreationDate := CreationDate s; Info := Info s;
                           URLList := URLList s |})
            intoString)
  else if bytes_eqb key (str "created by") then
    Some (fieldOf CreatedBy
            (fun x s => {| Announce := Announce s;
                           AnnounceList := AnnounceList s;
                           Comment := Comment s; CreatedBy := x;
                           CreationDate := CreationDate s; Info := Info s;
                           URLList := URLList s |})
            intoString)
  else if bytes_eqb key (str "creation date") then
    Some (fieldOf CreationDate
            (fun x s => {| Announce := Announce s;
                           AnnounceList := AnnounceList s;
                           Comment := Comment s; CreatedBy := CreatedBy s;
                           CreationDate := x; Info := Info s;
                           URLList := URLList s |})
            intoInt64)
  else if bytes_eqb key (str "info") then
    Some (fieldOf Info
            (fun x s => {| Announce := Announce s;
                           AnnounceList := AnnounceList s;
                           Comment := Comment s; CreatedBy := CreatedBy s;
                           CreationDate := CreationDate s; Info := x;
                           URLList := URLList s |})
            (intoStruct InfoDict_field))
  else if bytes_eqb key (str "url-list") then
    Some (fieldOf URLList
            (fun x s => {| Announce := Announce s;
                           AnnounceList := AnnounceList s;
                           Comment := Comment s; CreatedBy := CreatedBy s;
                           CreationDate := CreationDate s; Info := Info s;
                           URLList := x |})
            intoInterface)
  else None.

(** [bencode.DecodeBytes(data, &metaInfo)] with [metaInfo] a zero
    [TorrentMetaInfo]. *)
Definition DecodeTorrentMetaInfo (data : bytes) : result TorrentMetaInfo :=
  DecodeBytes (intoStruct TorrentMetaInfo_field) zeroTorrentMetaInfo data.

(** [bencode.DecodeBytes(data, &torrent)] with [torrent] a nil
    [map[string]interface{}]. *)
Definition DecodeMap (data : bytes) : result (gomap value) :=
  DecodeBytes intoMap [] data.

End Tags.

(** ** What the program is run against

    The directory listing and the files of the operating system, its
    clock, and the two library functions whose result depends on tables
    outside the program ([filepath.Join], [strings.ToLower]). *)

Record FileInfo := { FileInfo_Name : bytes; FileInfo_IsDir : bool }.

Record World := {
  ReadDir : bytes -> option (list FileInfo);   (* None: an error *)
  ReadFile : bytes -> option byteSlice;        (* None: an error *)
  Now : nat -> Time;        (* the clock when the n-th entry is reached *)
  Join : bytes -> bytes -> bytes;
  ToLower : bytes -> bytes }.

(** ** The functions of main.go *)

Import Strconv Bencode Tags.

Definition NewTorrentManager (dir : bytes) : TorrentManager :=
  {| torrentsDir := dir; torrents := [] |}.

(** calculateInfoHash calculates the info hash from torrent data. *)
Definition calculateInfoHash (torrentData : byteSlice) : result bytes :=
  torrent <- DecodeMap (contents torrentData) ;;
  match map_get (str "info") torrent with
  | None => Err ErrNoInfo
  | Some info =>
      infoBytes <- EncodeBytes info ;;
      Ok (Hex.EncodeToString (SHA1.Sum infoBytes))
  end.

(** extractWebSeeds extracts web seed URLs from various possible
    formats. *)
Definition extractWebSeeds (urlList : iface) : list bytes :=
  match urlList with
  | INil => []
  | IValue (VString v) => [v]
  | IValue (VList v) =>
      fold_left
        (fun webSeeds url =>
           match url with
           | VString urlStr => webSeeds ++ [urlStr]
           | _ => webSeeds
           end)
        v []
  | IStrings v => v
  | IValue _ => []
  end.

(** The size and the files of a record: lines 190-209. *)
Definition sizeAndFiles (info : InfoDict) : Z * list File :=
  if (0 <? InfoDict_Length info)%Z then
    (InfoDict_Length info,
     [ {| File_Path := [InfoDict_Name info];
          File_Length := InfoDict_Length info |} ])
  else
    fold_left
      (fun (acc : Z * list File) (file : FileDict) =>
         let (totalSize, files) := acc in
         (wrap64 (totalSize + FileDict_Length file),
          files ++ [ {| File_Path := FileDict_Path file;
                        File_Length := FileDict_Length file |} ]))
      (InfoDict_Files info) (0%Z, []).

(** parseTorrentFile parses a .torrent file and extracts information.
    [now] is what [time.Now()] answers when line 211 is reached. *)
Definition parseTorrentFile (w : World) (now : Time) (filePath : bytes)
  : result TorrentInfo :=
  match ReadFile w filePath with
  | Some data =>
      match DecodeTorrentMetaInfo (contents data) with
      | Ok metaInfo =>
          infoHash <-
            match calculateInfoHash data with
            | Err _ =>
                prefix <- sliceTo data 20 ;; Ok (Hex.EncodeToString prefix)
            | r => r
            end ;;
          let (totalSize, files) := sizeAndFiles (Info metaInfo) in
          let createdDate :=
            if (0 <? CreationDate metaInfo)%Z
            then Unix (CreationDate metaInfo) 0 else now in
          let webSeeds := extractWebSeeds (URLList metaInfo) in
          Ok {| TorrentInfo_Name := InfoDict_Name (Info metaInfo);
                TorrentInfo_InfoHash := infoHash;
                TorrentInfo_Size := totalSize;
                TorrentInfo_Files := files;
                TorrentInfo_WebSeeds := webSeeds;
                TorrentInfo_CreatedBy := CreatedBy metaInfo;
                TorrentInfo_CreatedDate := createdDate;
                TorrentInfo_Comment := Comment metaInfo;
                TorrentInfo_FilePath := filePath |}
      | Err e => Err (ErrDecode e)
      | Panic => Panic
      | NoFuel => NoFuel
      end
  | None => Err ErrReadFile
  end.

(** Whether [LoadTorrents] takes a directory entry for a torrent file. *)
Definition isCandidate (w : World) (file : FileInfo) : bool :=
  negb (FileInfo_IsDir file) &&
  Strings.HasSuffix (ToLower w (FileInfo_Name file)) (str ".torrent").

(** The loop of [LoadTorrents] from entry number [i] on, with
    [tm.torrents] as it stands; it returns the slice it leaves there. *)
Fixpoint loadLoop (w : World) (dir : bytes) (i : nat) (files : list FileInfo)
    (acc : list TorrentInfo) : result unit * list TorrentInfo :=
  match files with
  | [] => (Ok tt, acc)
  | file :: rest =>
      if isCandidate w file then
        match parseTorrentFile w (Now w i) (Join w dir (FileInfo_Name file)) with
        | Ok torrentInfo => loadLoop w dir (S i) rest (acc ++ [torrentInfo])
        | Err _ => loadLoop w dir (S i) rest acc
        | Panic => (Panic, acc)
        | NoFuel => (NoFuel, acc)
        end
      else loadLoop w dir (S i) rest acc
  end.

(** LoadTorrents scans the torrents directory and loads all torrent
    files.  It returns its [error] result and the manager it leaves. *)
Definition LoadTorrents (w : World) (tm : TorrentManager)
  : result unit * TorrentManager :=
  match ReadDir w (torrentsDir tm) with
  | Some files =>
      let (r, ts) := loadLoop w (torrentsDir tm) 0 files [] in
      (r, {| torrentsDir := torrentsDir tm; torrents := ts |})
  | None => (Err ErrReadDir, tm)
  end.

(** GetTorrents returns all loaded torrents. *)
Definition GetTorrents (tm : TorrentManager) : list TorrentInfo :=
  torrents tm.

(** SearchTorrents searches torrents by query. *)
Definition SearchTorrents (w : World) (tm : TorrentManager) (query : bytes)
  : list TorrentInfo :=
  match query with
  | [] => torrents tm
  | _ =>
      let query := ToLower w query in
      fold_left
        (fun results torrent =>
           if Strings.Contains (ToLower w (TorrentInfo_Name torrent)) query
           then results ++ [torrent] else results)
        (torrents tm) []
  end.

(** ** The words of the specification *)

Module Spec.

Import Strconv.

(** Values a Go program can hold: an [int64], strings whose length the
    decoder's 32-bit length field can carry, maps with one entry per
    key. *)
Fixpoint nodupb (l : list bytes) : bool :=
  match l with
  | [] => true
  | k :: t => negb (existsb (bytes_eqb k) t) && nodupb t
  end.

Definition shortb (s : bytes) : bool := (Z.of_nat (length s) <? 2 ^ 31)%Z.

Fixpoint representable (v : value) : bool :=
  match v with
  | VInt n => ((- 2 ^ 63 <=? n) && (n <? 2 ^ 63))%Z
  | VString s => shortb s
  | VList l => forallb representable l
  | VDict m =>
      nodupb (keys m) &&
      forallb (fun kv => shortb (fst kv) && representable (snd kv)) m
  end.

(** A value with every dictionary's entries put in key order. *)
Fixpoint norm (v : value) : value :=
  match v with
  | VList l => VList (map norm l)
  | VDict m => VDict (sortKeys (map (fun kv => (fst kv, norm (snd kv))) m))
  | _ => v
  end.

(** Observational equality: dictionaries are compared as sets of
    key-value pairs, the order of their entries set aside. *)
Definition veq (v w : value) : Prop := norm v = norm w.

(** Two dictionaries hold the same key-value pairs: every key has an
    entry in both or in neither, and the two values are equal. *)
Definition sameEntries (m1 m2 : gomap value) : Prop :=
  forall k,
    match map_get k m1, map_get k m2 with
    | Some a, Some b => veq a b
    | None, None => True
    | _, _ => False
    end.

(** The entries of a dictionary with their values in normal form. *)
Definition normEntries (es : gomap value) : gomap value :=
  map (fun kv => (fst kv, norm (snd kv))) es.

(** Decoding the encoding of [v] gives [v] back, in key order. *)
Definition decodes (v : value) : Prop :=
  representable v = true ->
  forall fuel rest, 2 * length (encodeValue v) < fuel ->
  decodeInto fuel (encodeValue v ++ rest) = Ok (norm v, rest).

(** The grammar of section 4.1, in its canonical form: numbers without
    sign or leading zero (a lone [0] apart), negative integers with a
    nonzero magnitude, dictionary keys in strictly ascending order. *)
Definition canonDigits (ds : bytes) : bool :=
  match ds with
  | [] => false
  | c :: t =>
      forallb isDigit ds && (negb (Ascii.eqb c "0") || bytes_eqb t [])
  end.

Definition digitsValue (ds : bytes) : Z :=
  match digitsFrom 0 ds with Some n => n | None => 0%Z end.

Definition after (last : option bytes) (k : bytes) : bool :=
  match last with
  | None => true
  | Some l => bytes_ltb l k
  end.

Inductive Canonical : bytes -> Prop :=
| CanonInt ds :
    canonDigits ds = true -> (digitsValue ds < 2 ^ 63)%Z ->
    Canonical ("i"%char :: ds ++ ["e"%char])
| CanonNeg ds :
    canonDigits ds = true -> (0 < digitsValue ds <= 2 ^ 63)%Z ->
    Canonical ("i"%char :: "-"%char :: ds ++ ["e"%char])
| CanonString ds s :
    canonDigits ds = true -> digitsValue ds = Z.of_nat (length s) ->
    shortb s = true ->
    Canonical (ds ++ ":"%char :: s)
| CanonList items :
    CanonItems items -> Canonical ("l"%char :: items ++ ["e"%char])
| CanonDict pairs :
    CanonPairs None pairs -> Canonical ("d"%char :: pairs ++ ["e"%char])
with CanonItems : bytes -> Prop :=
| CanonItemsNil : CanonItems []
| CanonItemsCons b rest :
    Canonical b -> CanonItems rest -> CanonItems (b ++ rest)
with CanonPairs : option bytes -> bytes -> Prop :=
| CanonPairsNil last : CanonPairs last []
| CanonPairsCons last ds k b rest :
    canonDigits ds = true -> digitsValue ds = Z.of_nat (length k) ->
    shortb k = true -> after last k = true ->
    Canonical b -> CanonPairs (Some k) rest ->
    CanonPairs last (ds ++ ":"%char :: k ++ b ++ rest).

Scheme Canonical_mind := Minimality for Canonical Sort Prop
  with CanonItems_mind := Minimality for CanonItems Sort Prop
  with CanonPairs_mind := Minimality for CanonPairs Sort Prop.

Combined Scheme Canonical_mutind
  from Canonical_mind, CanonItems_mind, CanonPairs_mind.

(** Keys in strictly ascending order, all of them after [last]. *)
Fixpoint strictAsc (last : option bytes) (ks : list bytes) : Prop :=
  match ks with
  | [] => True
  | k :: t => after last k = true /\ strictAsc (Some k) t
  end.

(** A byte string is the encoding of a representable value in normal
    form; a run of them; a run of dictionary entries in key order. *)
Definition isEncoding (b : bytes) : Prop :=
  exists v, representable v = true /\ norm v = v /\ encodeValue v = b.

Definition areEncodings (items : bytes) : Prop :=
  exists l, forallb representable l = true /\ map norm l = l /\
            flat_map encodeValue l = items.

Definition areEntries (last : option bytes) (pairs : bytes) : Prop :=
  exists m,
    forallb (fun kv => shortb (fst kv) && representable (snd kv)) m = true /\
    normEntries m = m /\ strictAsc last (keys m) /\ encodeEntries m = pairs.

(** The [interface{}] field of a struct for an entry of the map. *)
Definition ifaceOf (entry : option value) : iface :=
  match entry with
  | Some v => IValue v
  | None => INil
  end.

(** The [int64] field of a struct for an entry of the map: the entry's
    integer, and zero when the map has no such entry. *)
Definition int64Of (entry : option value) (n : Z) : Prop :=
  match entry with
  | Some v => v = VInt n
  | None => n = 0%Z
  end.

(** The sum of all constituent file lengths. *)
Definition totalLength (files : list File) : Z :=
  fold_right Z.add 0%Z (map File_Length files).

Definition toFile (file : FileDict) : File :=
  {| File_Path := FileDict_Path file; File_Length := FileDict_Length file |}.

(** The string elements of a list, in their order. *)
Definition stringsOf (l : list value) : list bytes :=
  flat_map (fun v => match v with VString s => [s] | _ => [] end) l.

Definition hexDigits : bytes := str "0123456789abcdef".

(** The records of a directory listing, from entry number [i] on: one
    for each candidate file whose record gets built, in listing order. *)
Fixpoint loaded (w : World) (dir : bytes) (i : nat) (files : list FileInfo)
  : list TorrentInfo :=
  match files with
  | [] => []
  | file :: rest =>
      (if isCandidate w file then
         match parseTorrentFile w (Now w i) (Join w dir (FileInfo_Name file)) with
         | Ok torrentInfo => [torrentInfo]
         | _ => []
         end
       else [])
      ++ loaded w dir (S i) rest
  end.

(** A name contains a term, letter case set aside. *)
Definition containsFold (w : World) (name term : bytes) : Prop :=
  exists pre post, ToLower w name = pre ++ ToLower w term ++ post.

End Spec.

(** ** The catalog in memory

    [tm.torrents] is a slice: a pointer into an array of [TorrentInfo],
    a length and a capacity.  [LoadTorrents] assigns and appends to it
    statement by statement; a reader that took the slice earlier still
    holds the pointer it took. *)

Module Memory.

Record slice := { ptr : nat; slen : nat; scap : nat }.

(** The arrays allocated so far, by address. *)
Definition heap := list (list TorrentInfo).

Definition zeroTorrentInfo : TorrentInfo :=
  {| TorrentInfo_Name := []; TorrentInfo_InfoHash := [];
     TorrentInfo_Size := 0; TorrentInfo_Files := [];
     TorrentInfo_WebSeeds := []; TorrentInfo_CreatedBy := [];
     TorrentInfo_CreatedDate := Unix 0 0; TorrentInfo_Comment := [];
     TorrentInfo_FilePath := [] |}.

(** The sequence a reader sees through a slice. *)
Definition view (h : heap) (s : slice) : list TorrentInfo :=
  firstn (slen s) (nth (ptr s) h []).

(** [make([]TorrentInfo, 0)]. *)
Definition make0 (h : heap) : heap * slice :=
  (h ++ [[]], {| ptr := length h; slen := 0; scap := 0 |}).

Definition store (h : heap) (p i : nat) (x : TorrentInfo) : heap :=
  firstn p h ++ setIndex i x (nth p h []) :: skipn (S p) h.

(** [append(s, x)]: in place when the capacity allows, else into a new
    array; [grow] is the capacity the runtime picks for it. *)
Definition append (grow : nat -> nat) (h : heap) (s : slice) (x : TorrentInfo)
  : heap * slice :=
  if (slen s <? scap s)%nat then
    (store h (ptr s) (slen s) x,
     {| ptr := ptr s; slen := S (slen s); scap := scap s |})
  else
    let c := Nat.max (S (slen s)) (grow (scap s)) in
    (h ++ [view h s ++ x :: repeat zeroTorrentInfo (c - S (slen s))],
     {| ptr := length h; slen := S (slen s); scap := c |}).

(** Where [LoadTorrents] stands. *)
Inductive pc :=
| Idle                                        (* not running *)
| Looping (i : nat) (files : list FileInfo)   (* in the loop of line 132 *)
| Crashed.

Record state := {
  mem : heap;
  tm_torrents : slice;       (* the field [tm.torrents] *)
  at_pc : pc }.

(** One statement of [LoadTorrents]. *)
Inductive step (w : World) (grow : nat -> nat) (dir : bytes)
  : state -> state -> Prop :=
| step_readdir_err st :
    at_pc st = Idle -> ReadDir w dir = None ->
    step w grow dir st st
| step_make st files :
    at_pc st = Idle -> ReadDir w dir = Some files ->
    step w grow dir st
      {| mem := fst (make0 (mem st)); tm_torrents := snd (make0 (mem st));
         at_pc := Looping 0 files |}
| step_skip st i file rest :
    at_pc st = Looping i (file :: rest) -> isCandidate w file = false ->
    step w grow dir st
      {| mem := mem st; tm_torrents := tm_torrents st;
         at_pc := Looping (S i) rest |}
| step_fail st i file rest e :
    at_pc st = Looping i (file :: rest) -> isCandidate w file = true ->
    parseTorrentFile w (Now w i) (Join w dir (FileInfo_Name file)) = Err e ->
    step w grow dir st
      {| mem := mem st; tm_torrents := tm_torrents st;
         at_pc := Looping (S i) rest |}
| step_panic st i file rest :
    at_pc st = Looping i (file :: rest) -> isCandidate w file = true ->
    parseTorrentFile w (Now w i) (Join w dir (FileInfo_Name file)) = Panic ->
    step w grow dir st
      {| mem := mem st; tm_torrents := tm_torrents st; at_pc := Crashed |}
| step_append st i file rest info :
    at_pc st = Looping i (file :: rest) -> isCandidate w file = true ->
    parseTorrentFile w (Now w i) (Join w dir (FileInfo_Name file)) = Ok info ->
    step w grow dir st
      {| mem := fst (append grow (mem st) (tm_torrents st) info);
         tm_torrents := snd (append grow (mem st) (tm_torrents st) info);
         at_pc := Looping (S i) rest |}
| step_return st i :
    at_pc st = Looping i [] ->
    step w grow dir st
      {| mem := mem st; tm_torrents := tm_torrents st; at_pc := Idle |}.

(** Some statements of one call of [LoadTorrents], from its start. *)
Inductive during (w : World) (grow : nat -> nat) (dir : bytes) (st0 : state)
  : state -> Prop :=
| during_first st : step w grow dir st0 st -> during w grow dir st0 st
| during_next st st' :
    during w grow dir st0 st -> at_pc st <> Idle ->
    step w grow dir st st' -> during w grow dir st0 st'.

(** The slice is in order: it points at an allocated array of its
    capacity and is no longer than it. *)
Definition wellFormed (h : heap) (s : slice) : Prop :=
  (ptr s < length h)%nat /\ length (nth (ptr s) h []) = scap s /\
  (slen s <= scap s)%nat.

(** What holds at every point of a call of [LoadTorrents] that began in
    [st0] and listed [files]. *)
Definition inv (w : World) (dir : bytes) (files : list FileInfo)
    (st0 st : state) : Prop :=
  length (mem st0) <= ptr (tm_torrents st) /\
  wellFormed (mem st) (tm_torrents st) /\
  length (mem st0) <= length (mem st) /\
  (forall a, a < length (mem st0) -> nth a (mem st) [] = nth a (mem st0) []) /\
  match at_pc st with
  | Idle => view (mem st) (tm_torrents st) = Spec.loaded w dir 0 files
  | Looping i rest =>
      Spec.loaded w dir 0 files
      = view (mem st) (tm_torrents st) ++ Spec.loaded w dir i rest
  | Crashed =>
      exists suffix,
        Spec.loaded w dir 0 files = view (mem st) (tm_torrents st) ++ suffix
  end.

End Memory.

(** ** net/url and path/filepath

    [url.QueryEscape] keeps letters, digits and [-_.~], writes a space
    as [+] and any other byte as [%XX] in upper-case hexadecimal.
    [filepath.Base], with [/] for the separator, gives the last element
    of a path. *)

Module URL.

Definition isAlnum (c : ascii) : bool :=
  ((97 <=? code c) && (code c <=? 122)
   || (65 <=? code c) && (code c <=? 90)
   || (48 <=? code c) && (code c <=? 57))%nat.

(** [shouldEscape(c, encodeQueryComponent)]. *)
Definition shouldEscape (c : ascii) : bool :=
  if isAlnum c then false
  else if existsb (Ascii.eqb c) (str "-_.~") then false
  else true.

Definition upperhex (n : nat) : ascii :=
  nth n (str "0123456789ABCDEF") "0"%char.

Definition escapeByte (c : ascii) : bytes :=
  if Ascii.eqb c " " then ["+"%char]
  else if shouldEscape c
       then ["%"%char; upperhex (code c / 16); upperhex (code c mod 16)]
       else [c].

Definition QueryEscape (s : bytes) : bytes := flat_map escapeByte s.

(** [url.Values]: the values of each key of a query. *)
Definition Values := gomap (list bytes).

(** [Values.Get]: the first value of the key, the empty string when
    there is none. *)
Definition Get (v : Values) (key : bytes) : bytes :=
  match map_get key v with
  | Some (x :: _) => x
  | _ => []
  end.

End URL.

Module Filepath.

Definition isSep (c : ascii) : bool := Ascii.eqb c "/".

(** The path without the separators it ends with. *)
Fixpoint stripTrailing (path : bytes) : bytes :=
  match path with
  | [] => []
  | c :: t =>
      match stripTrailing t with
      | [] => if isSep c then [] else [c]
      | t' => c :: t'
      end
  end.

(** What follows the last separator of the path; the path itself when
    it has none. *)
Fixpoint lastElement (path : bytes) : bytes :=
  match path with
  | [] => []
  | c :: t =>
      if existsb isSep t then lastElement t
      else if isSep c then t else path
  end.

(** [filepath.Base]. *)
Definition Base (path : bytes) : bytes :=
  match path with
  | [] => str "."
  | _ =>
      match lastElement (stripTrailing path) with
      | [] => str "/"
      | e => e
      end
  end.

End Filepath.

(** ** The Torznab feed *)

Record TorznabEnclosure := {
  TorznabEnclosure_URL : bytes;
  TorznabEnclosure_Length : Z;
  TorznabEnclosure_Type : bytes }.

Record TorznabAttr := {
  TorznabAttr_Name : bytes;
  TorznabAttr_Value : bytes }.

Record TorznabItem := {
  TorznabItem_Title : bytes;
  TorznabItem_Description : bytes;
  TorznabItem_Link : bytes;
  TorznabItem_GUID : bytes;
  TorznabItem_PubDate : bytes;
  TorznabItem_Size : Z;
  TorznabItem_Enclosure : TorznabEnclosure;
  TorznabItem_Attributes : list TorznabAttr }.

Record TorznabChannel := {
  TorznabChannel_Title : bytes;
  TorznabChannel_Description : bytes;
  TorznabChannel_Link : bytes;
  TorznabChannel_Items : list TorznabItem }.

Record TorznabResponse := {
  TorznabResponse_Version : bytes;
  TorznabResponse_TorznabNS : bytes;
  TorznabResponse_Channel : TorznabChannel }.

(** ** net/http, as the handlers use it

    A handler is given a [ResponseWriter] and leaves it changed: the
    header map, the status code once it is written, and what was sent
    to the body, in order.  What the two encoders and [http.ServeFile]
    make of what they are handed is theirs. *)

Module HTTP.

Inductive jsonValue :=
| JString (s : bytes)
| JInt (n : Z)
| JTorrents (l : list TorrentInfo).

Inductive output :=
| Written (b : bytes)                 (* w.Write(b), fmt.Fprintln(w, ...) *)
| EncodedJSON (v : gomap jsonValue)   (* json.NewEncoder(w).Encode(v) *)
| EncodedXML (v : TorznabResponse)    (* xml.NewEncoder(w).Encode(v) *)
| ServedFile (name : bytes).          (* http.ServeFile(w, r, name) *)

Record ResponseWriter := {
  Header : gomap bytes;
  Status : option nat;
  Body : list output }.

Definition NewRecorder : ResponseWriter :=
  {| Header := []; Status := None; Body := [] |}.

(** [w.Header().Set(key, value)]. *)
Definition SetHeader (w : ResponseWriter) (key value : bytes) : ResponseWriter :=
  {| Header := map_set key value (Header w);
     Status := Status w; Body := Body w |}.

(** [w.WriteHeader(code)]: the first code written stays. *)
Definition WriteHeader (w : ResponseWriter) (code : nat) : ResponseWriter :=
  {| Header := Header w;
     Status := match Status w with None => Some code | written => written end;
     Body := Body w |}.

(** A write to the body; it writes the status 200 when none is
    written yet. *)
Definition Send (w : ResponseWriter) (o : output) : ResponseWriter :=
  let w := WriteHeader w 200 in
  {| Header := Header w; Status := Status w; Body := Body w ++ [o] |}.

(** [http.ServeFile(w, r, name)]: the status is the one [ServeFile]
    chooses. *)
Definition ServeFile (w : ResponseWriter) (name : bytes) : ResponseWriter :=
  {| Header := Header w; Status := Status w;
     Body := Body w ++ [ServedFile name] |}.

Definition StatusBadRequest : nat := 400.
Definition StatusNotFound : nat := 404.
Definition StatusInternalServerError : nat := 500.

(** [http.Error(w, error, code)]. *)
Definition Error (w : ResponseWriter) (error : bytes) (code : nat)
  : ResponseWriter :=
  let w := SetHeader w (str "Content-Type") (str "text/plain; charset=utf-8") in
  let w := SetHeader w (str "X-Content-Type-Options") (str "nosniff") in
  let w := WriteHeader w code in
  Send w (Written (error ++ [ascii_of_nat 10])).

(** [http.NotFound(w, r)]. *)
Definition NotFound (w : ResponseWriter) : ResponseWriter :=
  Error w (str "404 page not found") StatusNotFound.

(** What a handler reads of its request: the query of the URL, parsed,
    and the variables of the route. *)
Record Request := {
  Query : URL.Values;
  Vars : gomap bytes }.

End HTTP.

(** What [os.Stat] answers: a file, an error that [os.IsNotExist]
    accepts, or another error. *)
Inductive statResult :=
| StatFile
| StatNotExist
| StatOtherError.

(** What the handlers ask of the machine they run on, besides the
    [World] of the scan: [os.Stat], the local form of a time
    ([t.Format(time.RFC1123Z)]) and the text of an error ([%v]). *)
Record Host := {
  Stat : bytes -> statResult;
  FormatRFC1123Z : Time -> bytes;
  ErrorText : error -> bytes }.

(** ** The handlers of main.go *)

Import HTTP.

(** A Go string literal that holds double quotes, written with a ['] in
    the place of each (the literals of main.go hold no [']). *)
Definition quoted (s : string) : bytes :=
  map (fun c => if Ascii.eqb c "'" then ascii_of_nat 34 else c) (str s).
Arguments quoted s%_string.

Record APIServer := {
  torrentManager : TorrentManager;
  baseURL : bytes }.

(** NewAPIServer creates a new API server. *)
Definition NewAPIServer (torrentManager : TorrentManager) (baseURL : bytes)
  : APIServer :=
  {| torrentManager := torrentManager; baseURL := baseURL |}.

(** handleTorrentsJSON handles JSON API requests. *)
Definition handleTorrentsJSON (env : World) (s : APIServer)
    (w : ResponseWriter) (r : Request) : ResponseWriter :=
  let query := URL.Get (Query r) (str "q") in
  let torrents := SearchTorrents env (torrentManager s) query in
  let w := SetHeader w (str "Content-Type") (str "application/json") in
  Send w (EncodedJSON
            [ (str "status", JString (str "success"));
              (str "count", JInt (Z.of_nat (length torrents)));
              (str "torrents", JTorrents torrents) ]).

(** handleTorznabCaps returns capabilities for Torznab API. *)
Definition handleTorznabCaps (s : APIServer) (w : ResponseWriter)
  : ResponseWriter :=
  let capsXML :=
    quoted "<?xml version='1.0' encoding='UTF-8'?>
<caps>
  <server version='1.0' title='WebSeed2Torznab' strapline='Local torrent files with web seeds' email='admin@localhost' url='"
    ++ baseURL s ++
    quoted "' image=''/>
  <limits max='100' default='100'/>
  <registration available='no' open='no'/>
  <searching>
    <search available='yes' supportedParams='q'/>
  </searching>
  <categories>
    <category id='2000' name='Movies'/>
    <category id='5000' name='TV'/>
    <category id='7000' name='Other'/>
  </categories>
</caps>" in
  let w := SetHeader w (str "Content-Type") (str "application/xml") in
  Send w (Written capsXML).

(** The item of one torrent: lines 361-386. *)
Definition torznabItem (h : Host) (s : APIServer) (torrent : TorrentInfo)
  : TorznabItem :=
  let item :=
    {| TorznabItem_Title := TorrentInfo_Name torrent;
       TorznabItem_Description := TorrentInfo_Comment torrent;
       TorznabItem_Link :=
         baseURL s ++ str "/torrent/"
         ++ URL.QueryEscape (Filepath.Base (TorrentInfo_FilePath torrent));
       TorznabItem_GUID := TorrentInfo_InfoHash torrent;
       TorznabItem_PubDate := FormatRFC1123Z h (TorrentInfo_CreatedDate torrent);
       TorznabItem_Size := TorrentInfo_Size torrent;
       TorznabItem_Enclosure :=
         {| TorznabEnclosure_URL :=
              baseURL s ++ str "/torrent/"
              ++ URL.QueryEscape (Filepath.Base (TorrentInfo_FilePath torrent));
            TorznabEnclosure_Length := TorrentInfo_Size torrent;
            TorznabEnclosure_Type := str "application/x-bittorrent" |};
       TorznabItem_Attributes :=
         [ {| TorznabAttr_Name := str "category"; TorznabAttr_Value := str "7000" |};
           {| TorznabAttr_Name := str "size";
              TorznabAttr_Value := Strconv.FormatInt (TorrentInfo_Size torrent) |};
           {| TorznabAttr_Name := str "seeders"; TorznabAttr_Value := str "1" |};
           {| TorznabAttr_Name := str "peers"; TorznabAttr_Value := str "1" |} ] |} in
  match TorrentInfo_WebSeeds torrent with
  | [] => item
  | first :: _ =>
      {| TorznabItem_Title := TorznabItem_Title item;
         TorznabItem_Description := TorznabItem_Description item;
         TorznabItem_Link := TorznabItem_Link item;
         TorznabItem_GUID := TorznabItem_GUID item;
         TorznabItem_PubDate := TorznabItem_PubDate item;
         TorznabItem_Size := TorznabItem_Size item;
         TorznabItem_Enclosure := TorznabItem_Enclosure item;
         TorznabItem_Attributes :=
           TorznabItem_Attributes item ++
           [ {| TorznabAttr_Name := str "magneturl";
                TorznabAttr_Value :=
                  str "magnet:?xt=urn:btih:" ++ TorrentInfo_InfoHash torrent
                  ++ str "&dn=" ++ URL.QueryEscape (TorrentInfo_Name torrent)
                  ++ str "&ws=" ++ URL.QueryEscape first |} ] |}
  end.

(** handleTorznabSearch handles search requests for Torznab API. *)
Definition handleTorznabSearch (env : World) (h : Host) (s : APIServer)
    (w : ResponseWriter) (query : bytes) : ResponseWriter :=
  let torrents := SearchTorrents env (torrentManager s) query in
  let response :=
    {| TorznabResponse_Version := str "2.0";
       TorznabResponse_TorznabNS := str "http://torznab.com/schemas/2015/feed";
       TorznabResponse_Channel :=
         {| TorznabChannel_Title := str "WebSeed2Torznab";
            TorznabChannel_Description := str "Local torrent files with web seeds";
            TorznabChannel_Link := baseURL s;
            TorznabChannel_Items :=
              fold_left (fun items torrent => items ++ [torznabItem h s torrent])
                        torrents [] |} |} in
  let w := SetHeader w (str "Content-Type") (str "application/xml") in
  Send w (EncodedXML response).

(** handleTorznabAPI handles Torznab API requests. *)
Definition handleTorznabAPI (env : World) (h : Host) (s : APIServer)
    (w : ResponseWriter) (r : Request) : ResponseWriter :=
  let t := URL.Get (Query r) (str "t") in
  let query := URL.Get (Query r) (str "q") in
  if bytes_eqb t (str "caps") then handleTorznabCaps s w
  else if bytes_eqb t (str "search") then handleTorznabSearch env h s w query
  else handleTorznabSearch env h s w query.

(** handleTorrentDownload serves torrent files for download. *)
Definition handleTorrentDownload (env : World) (h : Host) (s : APIServer)
    (w : ResponseWriter) (r : Request) : ResponseWriter :=
  let filename :=
    match map_get (str "filename") (Vars r) with
    | Some v => v
    | None => []
    end in
  let torrentPath := Join env (torrentsDir (torrentManager s)) filename in
  match Stat h torrentPath with
  | StatNotExist => NotFound w
  | _ =>
      if negb (Strings.HasSuffix (ToLower env filename) (str ".torrent")) then
        Error w (str "Invalid file type") StatusBadRequest
      else
        let w := SetHeader w (str "Content-Type") (str "application/x-bittorrent") in
        let w := SetHeader w (str "Content-Disposition")
                   (quoted "attachment; filename='" ++ filename ++ quoted "'") in
        ServeFile w torrentPath
  end.

(** handleRefresh handles refresh requests to reload torrents.  It
    leaves the writer and the manager; a panic of the scan ends the
    handler where it stands. *)
Definition handleRefresh (env : World) (h : Host) (s : APIServer)
    (w : ResponseWriter) : result ResponseWriter * TorrentManager :=
  let (err, tm) := LoadTorrents env (torrentManager s) in
  match err with
  | Ok _ =>
      let w := SetHeader w (str "Content-Type") (str "application/json") in
      (Ok (Send w (EncodedJSON
                     [ (str "status", JString (str "success"));
                       (str "message", JString (str "Torrents refreshed successfully"));
                       (str "count", JInt (Z.of_nat (length (GetTorrents tm)))) ])),
       tm)
  | Err e =>
      (Ok (Error w (str "Error refreshing torrents: " ++ ErrorText h e)
             StatusInternalServerError),
       tm)
  | Panic => (Panic, tm)
  | NoFuel => (NoFuel, tm)
  end.

(** What [main] reads of its process: [os.Args] and [os.Getenv]. *)
Record Process := {
  Args : list bytes;
  Getenv : bytes -> bytes }.

(** [main], up to the server it starts: the API server, and the address
    [http.ListenAndServe] is given.  An error is the fatal exit of line
    454. *)
Definition main (env : World) (p : Process) : result (APIServer * bytes) :=
  let torrentsDir :=
    match Args p with
    | _ :: arg :: _ => arg
    | _ => str "./torrents"
    end in
  let port :=
    match Getenv p (str "PORT") with
    | [] => str "8080"
    | envPort => envPort
    end in
  let baseURL :=
    match Getenv p (str "BASE_URL") with
    | [] => str "http://localhost:" ++ port
    | envBaseURL => envBaseURL
    end in
  let torrentManager := NewTorrentManager torrentsDir in
  let (err, torrentManager) := LoadTorrents env torrentManager in
  _ <- err ;;
  Ok (NewAPIServer torrentManager baseURL, str ":" ++ port).

(** ** Notions the properties of the catalog and the feed are stated with *)

Module Notions.

(** [l] is [l'] with some of its elements left out. *)
Inductive Subseq {A} : list A -> list A -> Prop :=
| Subseq_nil : Subseq [] []
| Subseq_keep x l l' : Subseq l l' -> Subseq (x :: l) (x :: l')
| Subseq_drop x l l' : Subseq l l' -> Subseq l (x :: l').

(** The [int64] range. *)
Definition int64 (n : Z) : Prop := (- 2 ^ 63 <= n < 2 ^ 63)%Z.

(** The string field of a struct for an entry of the map: the entry's
    string, and the empty string when the map has no such entry. *)
Definition stringOf (entry : option value) (s : bytes) : Prop :=
  match entry with
  | Some v => v = VString s
  | None => s = []
  end.

(** The struct field of a struct for an entry of the map: the entry, if
    there is one, is a dictionary. *)
Definition dictOf (entry : option value) : Prop :=
  match entry with
  | Some v => exists m, v = VDict m
  | None => True
  end.

(** The value of the attribute [name] of an item: the first that bears
    the name. *)
Fixpoint attr (name : bytes) (attrs : list TorznabAttr) : option bytes :=
  match attrs with
  | [] => None
  | a :: t =>
      if bytes_eqb (TorznabAttr_Name a) name then Some (TorznabAttr_Value a)
      else attr name t
  end.

(** Bytes that [url.QueryEscape] leaves in its result: those it keeps,
    and the [+] and [%] it writes. *)
Definition urlSafe (c : ascii) : bool :=
  negb (URL.shouldEscape c) || Ascii.eqb c "+" || Ascii.eqb c "%".

(** The files a handler was about to serve. *)
Definition served (w : ResponseWriter) : list bytes :=
  flat_map (fun o => match o with ServedFile name => [name] | _ => [] end)
           (Body w).

(** The value of a hexadecimal digit, in either case. *)
Definition hexValue (c : ascii) : nat :=
  if (code c <=? 57)%nat then code c - 48
  else if (code c <=? 70)%nat then code c - 55
  else code c - 87.

(** An escaped string read back: [+] as a space, [%XX] as the byte of
    that value (nothing, where the string is cut short). *)
Fixpoint unescaped (s : bytes) : bytes :=
  match s with
  | [] => []
  | c :: t =>
      if Ascii.eqb c "%" then
        match t with
        | h1 :: h2 :: t' =>
            ascii_of_nat (16 * hexValue h1 + hexValue h2) :: unescaped t'
        | _ => []
        end
      else if Ascii.eqb c "+" then " "%char :: unescaped t
      else c :: unescaped t
  end.

(** A decoder that, with more fuel and with bytes added after its
    input, decodes what it decoded and leaves the added bytes. *)
Definition robust {T} (dec : decoder T) : Prop :=
  forall fuel cur bs x r,
    dec fuel cur bs = Ok (x, r) ->
    forall fuel' junk,
      fuel <= fuel' -> dec fuel' cur (bs ++ junk) = Ok (x, r ++ junk).

End Notions.

(** ** A world to run the program in

    A directory given by its entries, each file with the buffer
    [ReadFile] answers for it; a plain [Join] and the ASCII [ToLower]. *)

Definition exactly (s : bytes) : byteSlice :=
  {| array := s; len := length s |}.

Definition buffered (s spare : bytes) : byteSlice :=
  {| array := s ++ spare; len := length s |}.

Definition joinSlash (dir name : bytes) : bytes := dir ++ str "/" ++ name.

Definition asciiWorld (dir : bytes) (entries : list (bytes * byteSlice))
    (clock : nat -> Time) : World :=
  {| ReadDir := fun d =>
       if bytes_eqb d dir
       then Some (map (fun e => {| FileInfo_Name := fst e;
                                   FileInfo_IsDir := false |}) entries)
       else None;
     ReadFile := fun path =>
       map_get path (map (fun e => (joinSlash dir (fst e), snd e)) entries);
     Now := clock;
     Join := joinSlash;
     ToLower := Strings.asciiToLower |}.

(** The minimal single-file torrent of the specification, the same
    torrent with its keys in another order, and files that lack what a
    torrent should have. *)
Definition torrentA : bytes :=
  str "d8:announce1:x4:infod6:lengthi5e4:name5:a.txt12:piece lengthi5e6:pieces20:aaaaaaaaaaaaaaaaaaaaee".

Definition torrentB : bytes :=
  str "d4:infod6:pieces20:aaaaaaaaaaaaaaaaaaaa4:name5:a.txt12:piece lengthi5e6:lengthi5ee8:announce1:xe".

Definition multiFile : bytes :=
  str "d4:infod5:filesld6:lengthi3e4:pathl1:aeed6:lengthi7e4:pathl1:beee4:name1:qe8:url-listl8:http://xi5e8:http://yee".

Definition noInfoFile : bytes :=
  str "d8:announce1:x7:comment11:hello worlde".

Definition emptyFile : bytes :=
  str "d4:infod6:lengthi0e4:name9:empty.txtee".

Definition datedFile : bytes :=
  str "d13:creation datei1700000000e4:infod6:lengthi5e4:name1:aee".

Definition truncatedFile : bytes := str "d4:infod6:lengthi5e4:na".

Definition epoch : nat -> Time := fun _ => Unix 0 0.

Definition oneFile (content : byteSlice) : World :=
  asciiWorld (str "./torrents") [(str "a.torrent", content)] epoch.

Definition aPath : bytes := str "./torrents/a.torrent".

(** Catalogs, directories and refreshes to look at. *)
Definition named (name : string) : TorrentInfo :=
  {| TorrentInfo_Name := str name; TorrentInfo_InfoHash := [];
     TorrentInfo_Size := 0; TorrentInfo_Files := [];
     TorrentInfo_WebSeeds := []; TorrentInfo_CreatedBy := [];
     TorrentInfo_CreatedDate := Unix 0 0; TorrentInfo_Comment := [];
     TorrentInfo_FilePath := [] |}.

Definition shelf : TorrentManager :=
  {| torrentsDir := str "./torrents";
     torrents := [named "Movie.2023"; named "Other"; named "HOME MOVIES"] |}.

Definition twoFiles : World :=
  asciiWorld (str "./torrents")
    [(str "good.torrent", buffered torrentA (repeat zero 512));
     (str "notes.txt", buffered (str "hello") (repeat zero 512));
     (str "bad.TORRENT", buffered truncatedFile (repeat zero 512))]
    epoch.

Definition twoGood : World :=
  asciiWorld (str "./torrents")
    [(str "a.torrent", buffered torrentA (repeat zero 512));
     (str "b.torrent", buffered multiFile (repeat zero 512))]
    epoch.

Definition listing : list FileInfo :=
  [ {| FileInfo_Name := str "a.torrent"; FileInfo_IsDir := false |};
    {| FileInfo_Name := str "b.torrent"; FileInfo_IsDir := false |} ].

Definition recordOf (w : World) (filePath : bytes) : TorrentInfo :=
  match parseTorrentFile w (Unix 0 0) filePath with
  | Ok rec => rec
  | _ => Memory.zeroTorrentInfo
  end.

Definition recordA : TorrentInfo := recordOf twoGood (str "./torrents/a.torrent").
Definition recordB : TorrentInfo := recordOf twoGood (str "./torrents/b.torrent").

Definition double (c : nat) : nat := 2 * c.

(** A manager holding one record, then the two states a refresh of it
    passes through first: the slice just made, and the slice after the
    first append. *)
Definition oldState : Memory.state :=
  {| Memory.mem := [[named "Old"]];
     Memory.tm_torrents := {| Memory.ptr := 0; Memory.slen := 1; Memory.scap := 1 |};
     Memory.at_pc := Memory.Idle |}.

Definition emptied : Memory.state :=
  {| Memory.mem := fst (Memory.make0 (Memory.mem oldState));
     Memory.tm_torrents := snd (Memory.make0 (Memory.mem oldState));
     Memory.at_pc := Memory.Looping 0 listing |}.

Definition halfway : Memory.state :=
  {| Memory.mem := fst (Memory.append double (Memory.mem emptied) (Memory.tm_torrents emptied) recordA);
     Memory.tm_torrents := snd (Memory.append double (Memory.mem emptied) (Memory.tm_torrents emptied) recordA);
     Memory.at_pc := Memory.Looping 1 (tl listing) |}.

(** Files, a host and a server to look at the handlers with. *)
Definition commentedFile : bytes :=
  str "d7:comment5:hello10:created by2:me4:infod6:lengthi5e4:name1:aee".

Definition mistypedFile : bytes :=
  str "d7:commenti5e4:infod6:lengthi5e4:name1:aee".

Definition noInfoTwin : bytes :=
  str "d8:announce1:x7:comment11:HELLO WORLDe".

Definition entriesOf (data : bytes) : gomap value :=
  match DecodeMap data with
  | Ok m => m
  | _ => []
  end.

Definition metaInfoOf (data : bytes) : TorrentMetaInfo :=
  match DecodeTorrentMetaInfo data with
  | Ok m => m
  | _ => zeroTorrentMetaInfo
  end.

Definition listingOf (w : World) (dir : bytes) : list FileInfo :=
  match ReadDir w dir with
  | Some files => files
  | None => []
  end.

Definition plainHost : Host :=
  {| Stat := fun path =>
       if bytes_eqb path (str "./torrents/a.torrent") then StatFile
       else StatNotExist;
     FormatRFC1123Z := fun t => FormatInt (sec t);
     ErrorText := fun _ => str "no such directory" |}.

Definition scanned (w : World) : TorrentManager :=
  snd (LoadTorrents w (NewTorrentManager (str "./torrents"))).

Definition localServer (w : World) : APIServer :=
  NewAPIServer (scanned w) (str "http://localhost:8080").

Definition asking (key value : string) : Request :=
  {| Query := [(str key, [str value])]; Vars := [(str key, str value)] |}.
Arguments asking (key value)%_string.

Definition bareProcess : Process :=
  {| Args := [str "webseed2torznab"]; Getenv := fun _ => [] |}.

(** * Properties *)

(** ** Bytes *)

Lemma code_inj (x y : ascii) : code x = code y -> x = y.
Proof.
  unfold code. intros H.
  rewrite <- (ascii_nat_embedding x), <- (ascii_nat_embedding y).
  now f_equal.
Qed.

Lemma code_lt_256 (x : ascii) : code x < 256.
Proof. apply nat_ascii_bounded. Qed.

Lemma bytes_eqb_eq (a b : bytes) : bytes_eqb a b = true <-> a = b.
Proof.
  revert b. induction a as [|x a IH]; intros [|y b]; simpl;
    try (split; [discriminate|discriminate]); try tauto.
  rewrite andb_true_iff, Ascii.eqb_eq, IH.
  split; [intros [-> ->]; reflexivity | intros H; inversion H; auto].
Qed.

Lemma bytes_eqb_refl (a : bytes) : bytes_eqb a a = true.
Proof. now apply bytes_eqb_eq. Qed.

Lemma bytes_eqb_neq (a b : bytes) : bytes_eqb a b = false <-> a <> b.
Proof.
  rewrite <- bytes_eqb_eq. destruct (bytes_eqb a b); split; congruence.
Qed.

Lemma bytes_ltb_irrefl (a : bytes) : bytes_ltb a a = false.
Proof.
  induction a as [|x a IH]; simpl; auto.
  rewrite Nat.ltb_irrefl, Ascii.eqb_refl, IH. reflexivity.
Qed.

Lemma bytes_ltb_trans (a b c : bytes) :
  bytes_ltb a b = true -> bytes_ltb b c = true -> bytes_ltb a c = true.
Proof.
  revert b c. induction a as [|x a IH]; intros [|y b] [|z c]; simpl;
    try discriminate; auto.
  rewrite !orb_true_iff, !andb_true_iff, !Nat.ltb_lt, !Ascii.eqb_eq.
  intros [H1|[-> H1]] [H2|[<- H2]].
  - left. lia.
  - now left.
  - now left.
  - right. split; [reflexivity|]. eapply IH; eauto.
Qed.

Lemma bytes_ltb_asym (a b : bytes) :
  bytes_ltb a b = true -> bytes_ltb b a = false.
Proof.
  intros H. destruct (bytes_ltb b a) eqn:E; auto.
  pose proof (bytes_ltb_trans _ _ _ H E) as T.
  now rewrite bytes_ltb_irrefl in T.
Qed.

Lemma bytes_ltb_total (a b : bytes) :
  bytes_ltb a b = false -> bytes_ltb b a = false -> a = b.
Proof.
  revert b. induction a as [|x a IH]; intros [|y b]; simpl;
    try discriminate; auto.
  rewrite !orb_false_iff, !andb_false_iff, !Nat.ltb_ge.
  intros [H1 H1'] [H2 H2'].
  assert (x = y) as -> by (apply code_inj; lia).
  rewrite Ascii.eqb_refl in H1', H2'.
  f_equal. apply IH; [destruct H1'|destruct H2']; congruence.
Qed.

Lemma bytes_ltb_neq (a b : bytes) : bytes_ltb a b = true -> a <> b.
Proof. intros H ->. now rewrite bytes_ltb_irrefl in H. Qed.

Lemma bytes_le_lt_trans (a b c : bytes) :
  bytes_ltb b a = false -> bytes_ltb b c = true -> bytes_ltb a c = true.
Proof.
  intros H1 H2. destruct (bytes_ltb a b) eqn:E.
  - eapply bytes_ltb_trans; eauto.
  - now rewrite (bytes_ltb_total _ _ E H1).
Qed.

(** ** Go maps and the order of keys *)

Section Maps.

Context {A : Type}.
Implicit Types (m l : gomap A) (k : bytes).

Lemma map_get_None k m : map_get k m = None <-> ~ In k (keys m).
Proof.
  induction m as [|[k' x] m IH]; simpl; [tauto|].
  destruct (bytes_eqb k' k) eqn:E.
  - apply bytes_eqb_eq in E. split; [discriminate|]. intros H. exfalso; auto.
  - apply bytes_eqb_neq in E. rewrite IH. tauto.
Qed.

Lemma map_set_fresh k (x : A) m :
  ~ In k (keys m) -> map_set k x m = m ++ [(k, x)].
Proof.
  induction m as [|[k' y] m IH]; simpl; intros H; auto.
  destruct (bytes_eqb k' k) eqn:E.
  - apply bytes_eqb_eq in E. tauto.
  - rewrite IH; tauto.
Qed.

Lemma map_get_set_same k (x : A) m : map_get k (map_set k x m) = Some x.
Proof.
  induction m as [|[k' y] m IH]; simpl.
  - now rewrite bytes_eqb_refl.
  - destruct (bytes_eqb k' k) eqn:E; simpl.
    + now rewrite bytes_eqb_refl.
    + now rewrite E.
Qed.

Lemma map_get_set_other k k' (x : A) m :
  k <> k' -> map_get k' (map_set k x m) = map_get k' m.
Proof.
  intros N. induction m as [|[k0 y] m IH]; simpl.
  - apply bytes_eqb_neq in N. now rewrite N.
  - destruct (bytes_eqb k0 k) eqn:E; simpl.
    + apply bytes_eqb_eq in E. subst k0.
      apply bytes_eqb_neq in N. now rewrite N.
    + now rewrite IH.
Qed.

Lemma insertKey_ascending k (x : A) l :
  ascending l -> ascending (insertKey k x l).
Proof.
  induction l as [|[k' y] t IH]; simpl; auto.
  intros [H1 H2]. destruct (bytes_ltb k' k) eqn:E.
  - specialize (IH H2). simpl. split; auto.
    destruct t as [|[k2 z] t']; simpl in *.
    + now apply bytes_ltb_asym.
    + destruct (bytes_ltb k2 k); [assumption | now apply bytes_ltb_asym].
  - simpl. auto.
Qed.

Lemma sortKeys_ascending l : ascending (sortKeys l).
Proof.
  induction l as [|[k x] t IH]; simpl; auto.
  now apply insertKey_ascending.
Qed.

Lemma sortKeys_of_ascending l : ascending l -> sortKeys l = l.
Proof.
  induction l as [|[k x] t IH]; simpl; auto.
  intros [H1 H2]. rewrite (IH H2).
  destruct t as [|[k' y] t']; simpl; auto.
  now rewrite H1.
Qed.

Lemma sortKeys_idem l : sortKeys (sortKeys l) = sortKeys l.
Proof. apply sortKeys_of_ascending, sortKeys_ascending. Qed.

Lemma insertKey_perm k (x : A) l : Permutation ((k, x) :: l) (insertKey k x l).
Proof.
  induction l as [|[k' y] t IH]; simpl; auto.
  destruct (bytes_ltb k' k); auto.
  rewrite perm_swap. now apply perm_skip.
Qed.

Lemma sortKeys_perm l : Permutation l (sortKeys l).
Proof.
  induction l as [|[k x] t IH]; simpl; auto.
  rewrite <- insertKey_perm. now apply perm_skip.
Qed.

Lemma insertKey_comm k1 k2 (x1 x2 : A) l :
  k1 <> k2 ->
  insertKey k1 x1 (insertKey k2 x2 l) = insertKey k2 x2 (insertKey k1 x1 l).
Proof.
  intros N. induction l as [|[k y] t IH]; simpl.
  - destruct (bytes_ltb k2 k1) eqn:E1, (bytes_ltb k1 k2) eqn:E2; auto.
    + now rewrite (bytes_ltb_asym _ _ E1) in E2.
    + exfalso. apply N. now apply bytes_ltb_total.
  - destruct (bytes_ltb k k2) eqn:E2, (bytes_ltb k k1) eqn:E1; simpl;
      rewrite ?E1, ?E2; auto.
    + now rewrite IH.
    + now rewrite (bytes_le_lt_trans _ _ _ E1 E2).
    + now rewrite (bytes_le_lt_trans _ _ _ E2 E1).
    + destruct (bytes_ltb k2 k1) eqn:E3, (bytes_ltb k1 k2) eqn:E4; auto.
      * now rewrite (bytes_ltb_asym _ _ E3) in E4.
      * exfalso. apply N. now apply bytes_ltb_total.
Qed.

Lemma sortKeys_permutation l l' :
  Permutation l l' -> NoDup (keys l) -> sortKeys l = sortKeys l'.
Proof.
  induction 1 as [| [k x] l l' P IH | [k1 x1] [k2 x2] l | l l' l'' P1 IH1 P2 IH2];
    simpl; intros ND; auto.
  - inversion ND; subst. now rewrite IH.
  - apply insertKey_comm. inversion ND as [|? ? H1 H2]; subst.
    intros ->. apply H1. now left.
  - rewrite IH1 by assumption. apply IH2.
    unfold keys. eapply Permutation_NoDup; [|exact ND].
    now apply Permutation_map.
Qed.

End Maps.

Lemma sortKeys_map {A B} (f : A -> B) (l : gomap A) :
  sortKeys (map (fun kv => (fst kv, f (snd kv))) l)
  = map (fun kv => (fst kv, f (snd kv))) (sortKeys l).
Proof.
  induction l as [|[k x] t IH]; simpl; auto.
  rewrite IH. generalize (sortKeys t) as s. clear.
  induction s as [|[k' y] s IH]; simpl; auto.
  destruct (bytes_ltb k' k); simpl; auto. now rewrite IH.
Qed.

Lemma keys_map {A B} (f : A -> B) (l : gomap A) :
  keys (map (fun kv => (fst kv, f (snd kv))) l) = keys l.
Proof. unfold keys. rewrite map_map. now apply map_ext. Qed.

(** ** Decimal numbers *)

Module StrconvFacts.

Import Strconv Spec.
Local Open Scope Z_scope.

Lemma digitChar_code d : 0 <= d < 10 -> code (digitChar d) = (48 + Z.to_nat d)%nat.
Proof. intros H. unfold digitChar, code. apply nat_ascii_embedding. lia. Qed.

Lemma isDigit_digitChar d : 0 <= d < 10 -> isDigit (digitChar d) = true.
Proof.
  intros H. unfold isDigit. rewrite (digitChar_code H).
  apply andb_true_iff. split; apply Nat.leb_le; lia.
Qed.

Lemma digitVal_digitChar d : 0 <= d < 10 -> digitVal (digitChar d) = d.
Proof. intros H. unfold digitVal. rewrite (digitChar_code H). lia. Qed.

Lemma isDigit_code c : isDigit c = true <-> (48 <= code c <= 57)%nat.
Proof.
  unfold isDigit. rewrite andb_true_iff, !Nat.leb_le. tauto.
Qed.

Lemma digitVal_range c : isDigit c = true -> 0 <= digitVal c < 10.
Proof. rewrite isDigit_code. unfold digitVal. lia. Qed.

Lemma digitChar_digitVal c : isDigit c = true -> digitChar (digitVal c) = c.
Proof.
  rewrite isDigit_code. intros H. unfold digitChar, digitVal.
  replace (48 + Z.to_nat (Z.of_nat (code c) - 48))%nat with (code c) by lia.
  apply ascii_nat_embedding.
Qed.

Lemma isDigit_not c d : isDigit d = false -> isDigit c = true -> Ascii.eqb c d = false.
Proof.
  intros Hd Hc. destruct (Ascii.eqb c d) eqn:E; auto.
  apply Ascii.eqb_eq in E. congruence.
Qed.

Lemma digitsFrom_app acc l1 l2 :
  digitsFrom acc (l1 ++ l2)
  = match digitsFrom acc l1 with
    | Some a => digitsFrom a l2
    | None => None
    end.
Proof.
  revert acc. induction l1 as [|c l1 IH]; intros acc; simpl; auto.
  destruct (isDigit c); auto.
Qed.

Lemma digitsFrom_digits acc l n :
  digitsFrom acc l = Some n -> forallb isDigit l = true.
Proof.
  revert acc. induction l as [|c l IH]; intros acc; simpl; auto.
  destruct (isDigit c); [apply IH | discriminate].
Qed.

Lemma digits_digitsFrom acc l :
  forallb isDigit l = true -> exists n, digitsFrom acc l = Some n.
Proof.
  revert acc. induction l as [|c l IH]; intros acc; simpl; eauto.
  destruct (isDigit c); [apply IH | discriminate].
Qed.

Lemma digitsFrom_ge acc l n : 0 <= acc -> digitsFrom acc l = Some n -> acc <= n.
Proof.
  revert acc. induction l as [|c l IH]; intros acc Ha; cbn [digitsFrom].
  - intros [= <-]. lia.
  - destruct (isDigit c) eqn:D; [|discriminate]. intros H.
    apply IH in H; pose proof (digitVal_range _ D); lia.
Qed.

Lemma formatDigits_acc fuel n acc :
  formatDigits fuel n acc = formatDigits fuel n [] ++ acc.
Proof.
  revert n acc. induction fuel as [|f IH]; intros n acc; simpl; auto.
  destruct (n <? 10); auto.
  rewrite IH, (IH _ [_]), <- app_assoc. reflexivity.
Qed.

Lemma formatDigits_step f n :
  10 <= n ->
  formatDigits (S f) n [] = formatDigits f (n / 10) [] ++ [digitChar (n mod 10)].
Proof.
  intros H. simpl. destruct (Z.ltb_spec n 10); [lia|].
  apply formatDigits_acc.
Qed.

Lemma formatDigits_small f n :
  n < 10 -> formatDigits (S f) n [] = [digitChar (n mod 10)].
Proof. intros H. simpl. destruct (Z.ltb_spec n 10); [reflexivity|lia]. Qed.

Lemma pow2_div10 f n : 0 <= n < 2 ^ Z.of_nat (S f) -> 0 <= n / 10 < 2 ^ Z.of_nat f.
Proof.
  intros H. rewrite Nat2Z.inj_succ, Z.pow_succ_r in H by lia.
  split; [apply Z.div_pos; lia|].
  apply Z.div_lt_upper_bound; lia.
Qed.

Lemma formatDigits_value fuel n :
  0 <= n < 2 ^ Z.of_nat fuel -> digitsFrom 0 (formatDigits fuel n []) = Some n.
Proof.
  revert n. induction fuel as [|f IH]; intros n H.
  - simpl in *. f_equal. lia.
  - destruct (Z.ltb_spec n 10) as [L|L].
    + rewrite formatDigits_small by assumption. cbn [digitsFrom].
      rewrite Z.mod_small by lia.
      rewrite isDigit_digitChar, digitVal_digitChar by lia. f_equal.
    + rewrite formatDigits_step, digitsFrom_app, IH by (auto using pow2_div10).
      cbn [digitsFrom]. pose proof (Z.mod_pos_bound n 10 ltac:(lia)).
      rewrite isDigit_digitChar, digitVal_digitChar by lia.
      f_equal. pose proof (Z.div_mod n 10). lia.
Qed.

Lemma log2_fuel n : 0 <= n -> 0 <= n < 2 ^ Z.of_nat (S (Z.to_nat (Z.log2 n))).
Proof.
  intros H. split; auto.
  rewrite Nat2Z.inj_succ, Z2Nat.id by apply Z.log2_nonneg.
  destruct (Z.eq_dec n 0) as [->|N]; [reflexivity|].
  apply Z.log2_spec. lia.
Qed.

Lemma FormatUint_value n : 0 <= n -> digitsFrom 0 (FormatUint n) = Some n.
Proof. intros H. apply formatDigits_value, log2_fuel, H. Qed.

Lemma digitsValue_FormatUint n : 0 <= n -> digitsValue (FormatUint n) = n.
Proof. intros H. unfold digitsValue. now rewrite FormatUint_value. Qed.

Lemma digitChar_nonzero d : 1 <= d < 10 -> Ascii.eqb (digitChar d) "0" = false.
Proof.
  intros H. destruct (Ascii.eqb _ _) eqn:E; auto.
  apply Ascii.eqb_eq in E. apply (f_equal code) in E.
  rewrite digitChar_code in E by lia.
  change (code "0") with 48%nat in E. lia.
Qed.

Lemma formatDigits_head fuel n :
  1 <= n < 2 ^ Z.of_nat fuel ->
  exists c t, formatDigits fuel n [] = c :: t /\ Ascii.eqb c "0" = false.
Proof.
  revert n. induction fuel as [|f IH]; intros n H.
  - simpl in H. lia.
  - destruct (Z.ltb_spec n 10) as [L|L].
    + rewrite formatDigits_small by assumption. rewrite Z.mod_small by lia.
      eexists _, _. split; [reflexivity|]. apply digitChar_nonzero. lia.
    + rewrite formatDigits_step by assumption.
      destruct (IH (n / 10)) as (c & t & -> & Hc).
      { pose proof (@pow2_div10 f n ltac:(lia)).
        assert (1 <= n / 10) by (apply Z.div_le_lower_bound; lia). lia. }
      simpl. eauto.
Qed.

Lemma FormatUint_canon n : 0 <= n -> canonDigits (FormatUint n) = true.
Proof.
  intros H. pose proof (FormatUint_value H) as V.
  apply digitsFrom_digits in V.
  destruct (Z.eq_dec n 0) as [->|N]; [reflexivity|].
  destruct (@formatDigits_head (S (Z.to_nat (Z.log2 n))) n) as (c & t & E & Hc).
  { pose proof (log2_fuel H). lia. }
  unfold FormatUint in *. rewrite E in *. unfold canonDigits.
  rewrite V, Hc. reflexivity.
Qed.

(** A canonical run of digits is what [FormatUint] prints for its
    value. *)
Lemma formatDigits_of_digits ds :
  forallb isDigit ds = true -> ds <> [] ->
  (forall c t, ds = c :: t -> Ascii.eqb c "0" = false \/ t = []) ->
  forall fuel, fuel <> O -> digitsValue ds < 2 ^ Z.of_nat fuel ->
  formatDigits fuel (digitsValue ds) [] = ds.
Proof.
  induction ds as [|c l IH] using rev_ind; [congruence|].
  intros D _ Hd fuel Hf Hv.
  rewrite forallb_app in D. apply andb_true_iff in D as [Dl Dc].
  simpl in Dc. rewrite andb_true_r in Dc.
  destruct (digits_digitsFrom 0 l Dl) as [vl Evl].
  assert (Ev : digitsValue (l ++ [c]) = 10 * vl + digitVal c).
  { unfold digitsValue. rewrite digitsFrom_app, Evl. cbn [digitsFrom]. now rewrite Dc. }
  rewrite Ev in *. pose proof (digitVal_range _ Dc) as Rc.
  destruct fuel as [|f]; [congruence|].
  destruct l as [|h t].
  - cbn [digitsFrom] in Evl. injection Evl as <-.
    rewrite formatDigits_small by lia. simpl.
    rewrite Z.mod_small by lia. now rewrite digitChar_digitVal.
  - assert (Hh : Ascii.eqb h "0" = false).
    { destruct (Hd h (t ++ [c]) eq_refl) as [?|E]; auto.
      now destruct t. }
    assert (1 <= vl).
    { cbn [digitsFrom forallb] in Evl, Dl. apply andb_true_iff in Dl as [Dh _].
      rewrite Dh in Evl. apply digitsFrom_ge in Evl.
      - assert (digitVal h <> 0).
        { intros Z0. rewrite <- (digitChar_digitVal _ Dh), Z0 in Hh.
          discriminate. }
        pose proof (digitVal_range _ Dh). lia.
      - pose proof (digitVal_range _ Dh). lia. }
    rewrite formatDigits_step by lia.
    replace ((10 * vl + digitVal c) / 10) with vl
      by (apply Z.div_unique with (r := digitVal c); lia).
    replace ((10 * vl + digitVal c) mod 10) with (digitVal c)
      by (apply Z.mod_unique with (q := vl); lia).
    rewrite digitChar_digitVal by assumption.
    f_equal.
    assert (Vl : digitsValue (h :: t) = vl) by (unfold digitsValue; now rewrite Evl).
    rewrite <- Vl. apply IH; auto; try congruence.
    + intros c' t' [= <- <-]. now left.
    + intros ->. rewrite Vl in *.
      change (2 ^ Z.of_nat 1) with 2 in Hv. lia.
    + rewrite Vl. rewrite Nat2Z.inj_succ, Z.pow_succ_r in Hv; lia.
Qed.

Lemma digitsValue_nonneg ds : 0 <= digitsValue ds.
Proof.
  unfold digitsValue. destruct (digitsFrom 0 ds) eqn:E; [|lia].
  now apply digitsFrom_ge in E.
Qed.

Lemma canonDigits_inv ds :
  canonDigits ds = true ->
  forallb isDigit ds = true /\ ds <> [] /\
  (forall c t, ds = c :: t -> Ascii.eqb c "0" = false \/ t = []).
Proof.
  destruct ds as [|c t]; [discriminate|].
  unfold canonDigits. rewrite andb_true_iff, orb_true_iff, negb_true_iff.
  intros [D H]. repeat split; auto; try congruence.
  intros c' t' [= <- <-]. destruct H as [H|H]; auto.
  right. now apply bytes_eqb_eq.
Qed.

Lemma FormatUint_of_digits ds :
  canonDigits ds = true -> FormatUint (digitsValue ds) = ds.
Proof.
  intros H. apply canonDigits_inv in H as (D & N & Hd).
  apply formatDigits_of_digits; auto.
  apply log2_fuel, digitsValue_nonneg.
Qed.

Lemma canonDigits_value ds n :
  canonDigits ds = true -> digitsFrom 0 ds = Some n <-> digitsValue ds = n.
Proof.
  intros H. apply canonDigits_inv in H as (D & _ & _).
  destruct (digits_digitsFrom 0 ds D) as [v E].
  unfold digitsValue. rewrite E. split; congruence.
Qed.

Lemma FormatUint_head n :
  0 <= n -> exists c t, FormatUint n = c :: t /\ isDigit c = true.
Proof.
  intros H. pose proof (FormatUint_canon H) as C.
  destruct (FormatUint n) as [|c t]; [discriminate|].
  apply canonDigits_inv in C as (D & _). simpl in D.
  apply andb_true_iff in D as [D _]. eauto.
Qed.

Lemma ParseInt_digits ds bits :
  canonDigits ds = true -> digitsValue ds < 2 ^ (bits - 1) ->
  ParseInt ds bits = Ok (digitsValue ds).
Proof.
  intros C R. pose proof C as C'.
  apply canonDigits_inv in C' as (D & N & _).
  destruct ds as [|c t]; [congruence|].
  unfold ParseInt. simpl in D. apply andb_true_iff in D as [Dc Dt].
  rewrite (@isDigit_not c "-"), (@isDigit_not c "+") by auto.
  simpl orb. cbv iota.
  destruct (digitsFrom 0 (c :: t)) eqn:E.
  - apply (canonDigits_value _ z C) in E. subst z.
    destruct (Z.leb_spec (2 ^ (bits - 1)) (digitsValue (c :: t))); [lia|].
    reflexivity.
  - destruct (@digits_digitsFrom 0 (c :: t)) as [v Ev]; [|congruence].
    simpl. now rewrite Dc.
Qed.

Lemma ParseInt_neg ds bits :
  canonDigits ds = true -> digitsValue ds <= 2 ^ (bits - 1) ->
  ParseInt ("-"%char :: ds) bits = Ok (- digitsValue ds).
Proof.
  intros C R. pose proof C as C'.
  apply canonDigits_inv in C' as (D & N & _).
  unfold ParseInt.
  replace (Ascii.eqb "-" "-") with true by reflexivity.
  replace (Ascii.eqb "-" "+" || true) with true by reflexivity.
  destruct ds as [|c t]; [congruence|].
  destruct (digitsFrom 0 (c :: t)) eqn:E.
  - apply (canonDigits_value _ z C) in E. subst z.
    destruct (Z.ltb_spec (2 ^ (bits - 1)) (digitsValue (c :: t))); [lia|].
    reflexivity.
  - destruct (@digits_digitsFrom 0 (c :: t)) as [v Ev]; congruence.
Qed.

Lemma ParseInt_FormatInt n bits :
  - 2 ^ (bits - 1) <= n < 2 ^ (bits - 1) -> ParseInt (FormatInt n) bits = Ok n.
Proof.
  intros R. unfold FormatInt. destruct (Z.ltb_spec n 0).
  - rewrite ParseInt_neg; rewrite ?digitsValue_FormatUint; try lia.
    + f_equal. lia.
    + apply FormatUint_canon. lia.
  - rewrite ParseInt_digits; rewrite ?digitsValue_FormatUint; try lia.
    + reflexivity.
    + now apply FormatUint_canon.
Qed.

End StrconvFacts.

(** ** The decoders stop, and consume what they decode *)

Module DecoderFacts.

Import Strconv Bencode Tags Spec.

Lemma good_Err {T} bs P e : @good T bs P (Err e).
Proof. repeat split; try discriminate. Qed.

Lemma good_weaken {T} bs bs' (P Q : Prop) (r : result (T * bytes)) :
  good bs P r -> length bs <= length bs' -> (Q -> P) -> good bs' Q r.
Proof.
  intros (H1 & H2 & H3) L PQ. repeat split; auto.
  intros x rest E. specialize (H1 _ _ E). lia.
Qed.

Lemma readBytes_good d bs : @good bytes bs True (readBytes d bs).
Proof.
  induction bs as [|c t IH]; simpl; [apply good_Err|].
  destruct (Ascii.eqb c d).
  - repeat split; try discriminate. intros x rest [= <- <-]. simpl. lia.
  - destruct IH as (H1 & H2 & H3).
    destruct (readBytes d t) as [[l r]| | |] eqn:E; simpl;
      repeat split; try discriminate; try tauto.
    intros x rest [= <- <-]. specialize (H1 _ _ eq_refl). simpl. lia.
Qed.

Lemma ParseInt_cases s bits : (exists n, ParseInt s bits = Ok n) \/ exists e, ParseInt s bits = Err e.
Proof.
  unfold ParseInt. destruct s as [|c t]; [eauto|].
  destruct (if Ascii.eqb c "+" || Ascii.eqb c "-" then t else c :: t); [eauto|].
  destruct (digitsFrom _ _); [|eauto].
  destruct (Ascii.eqb c "-").
  - destruct (_ <? _)%Z; eauto.
  - destruct (_ <=? _)%Z; eauto.
Qed.

Lemma decodeInt_good bs : @good Z bs True (decodeInt bs).
Proof.
  unfold decodeInt. destruct (readBytes_good "e" bs) as (H1 & H2 & H3).
  destruct (readBytes "e" bs) as [[l r]| | |]; simpl;
    try (repeat split; try discriminate; tauto).
  destruct (ParseInt_cases l 64) as [[n ->]|[e ->]]; simpl.
  - repeat split; try discriminate. intros x rest [= <- <-]. eauto.
  - apply good_Err.
Qed.

Lemma decodeString_good bs : @good bytes bs True (decodeString bs).
Proof.
  unfold decodeString. destruct (readBytes_good ":" bs) as (H1 & H2 & H3).
  destruct (readBytes ":" bs) as [[l r]| | |]; simpl;
    try (repeat split; try discriminate; tauto).
  destruct (ParseInt_cases l 32) as [[n ->]|[e ->]]; simpl; [|apply good_Err].
  destruct (n <? 0)%Z; [apply good_Err|].
  destruct (Z.to_nat n <=? length r); [|apply good_Err].
  repeat split; try discriminate. intros x rest [= <- <-].
  specialize (H1 _ _ eq_refl). rewrite length_skipn. lia.
Qed.

Lemma good_bind {T U} bs bs0 (P Q : Prop) (r : result (T * bytes))
    (k : T * bytes -> result (U * bytes)) :
  good bs0 P r -> length bs0 <= length bs -> (Q -> P) ->
  (forall x rest, r = Ok (x, rest) -> length rest < length bs0 ->
                  good rest Q (k (x, rest)) \/
                  (forall y r', k (x, rest) = Ok (y, r') -> length r' <= length rest)
                  /\ k (x, rest) <> Panic /\ (Q -> k (x, rest) <> NoFuel)) ->
  good bs Q (bind r k).
Proof.
  intros (H1 & H2 & H3) L PQ K.
  destruct r as [[x rest]| | |]; simpl; try (repeat split; try discriminate; tauto).
  specialize (H1 _ _ eq_refl).
  destruct (K _ _ eq_refl H1) as [(K1 & K2 & K3)|(K1 & K2 & K3)];
    repeat split; auto; intros y r' E; specialize (K1 _ _ E); lia.
Qed.

Lemma mismatch_good {T} c rest P : @good T (c :: rest) P (mismatch c (c :: rest) rest).
Proof.
  unfold mismatch.
  destruct (Ascii.eqb c "i").
  { destruct (readBytes "e" rest) as [[? ?]| | |] eqn:E; simpl;
      try apply good_Err; destruct (readBytes_good "e" rest) as (_ & ? & ?);
      rewrite E in *; tauto. }
  destruct (isDigit c).
  { destruct (decodeString (c :: rest)) as [[? ?]| | |] eqn:E; simpl;
      try apply good_Err;
      destruct (decodeString_good (c :: rest)) as (_ & ? & ?);
      rewrite E in *; tauto. }
  destruct (Ascii.eqb c "l"); [apply good_Err|].
  destruct (Ascii.eqb c "d"); apply good_Err.
Qed.

(** The three loops of the decoder into [interface{}]. *)
Lemma decodeInto_good_all fuel :
  (forall bs, good bs (2 * length bs < fuel) (decodeInto fuel bs)) /\
  (forall bs, good bs (2 * length bs + 1 < fuel) (decodeList fuel bs)) /\
  (forall bs m, good bs (2 * length bs + 1 < fuel) (decodeDict fuel bs m)).
Proof.
  induction fuel as [|f (IHv & IHl & IHd)].
  { repeat split; simpl; try discriminate; lia. }
  split; [|split].
  - intros [|c rest]; [apply good_Err|].
    cbn [decodeInto].
    destruct (Ascii.eqb c "i").
    { eapply good_bind; [apply decodeInt_good| simpl; lia | tauto |].
      intros n r _ L. right. repeat split; try discriminate.
      intros y r' [= <- <-]. lia. }
    destruct (isDigit c).
    { eapply good_bind; [apply decodeString_good| simpl; lia | tauto |].
      intros n r _ L. right. repeat split; try discriminate.
      intros y r' [= <- <-]. lia. }
    destruct (Ascii.eqb c "l").
    { eapply good_bind; [apply IHl| simpl; lia | simpl; lia |].
      intros n r _ L. right. repeat split; try discriminate.
      intros y r' [= <- <-]. lia. }
    destruct (Ascii.eqb c "d"); [|apply good_Err].
    eapply good_bind; [apply IHd| simpl; lia | simpl; lia |].
    intros n r _ L. right. repeat split; try discriminate.
    intros y r' [= <- <-]. lia.
  - intros [|c rest]; [apply good_Err|].
    cbn [decodeList].
    destruct (Ascii.eqb c "e").
    { repeat split; try discriminate. intros x r [= <- <-]. simpl. lia. }
    eapply good_bind; [apply IHv| lia | simpl; lia |].
    intros v r1 _ L1. left.
    eapply good_bind; [apply IHl| lia | simpl in *; lia |].
    intros vs r2 _ L2. right. repeat split; try discriminate.
    intros y r' [= <- <-]. lia.
  - intros [|c rest] m; [apply good_Err|].
    cbn [decodeDict].
    destruct (Ascii.eqb c "e").
    { repeat split; try discriminate. intros x r [= <- <-]. simpl. lia. }
    eapply good_bind; [apply decodeString_good| lia | tauto |].
    intros k r1 _ L1. left.
    eapply good_bind; [apply IHv| lia | simpl in *; lia |].
    intros v r2 _ L2. left.
    eapply good_weaken; [apply IHd| lia | simpl in *; lia].
Qed.

Lemma decodeInto_good fuel bs : good bs (2 * length bs < fuel) (decodeInto fuel bs).
Proof. apply decodeInto_good_all. Qed.

Lemma intoInterface_sound : sound intoInterface.
Proof.
  intros fuel cur bs. unfold intoInterface.
  eapply good_bind; [apply decodeInto_good| lia | tauto |].
  intros v r _ L. right. repeat split; try discriminate.
  intros y r' [= <- <-]. lia.
Qed.

Lemma intoMap_sound : sound intoMap.
Proof.
  intros fuel cur [|c rest]; [apply good_Err|]. unfold intoMap.
  destruct (Ascii.eqb c "i"); [apply mismatch_good|].
  destruct (isDigit c); [apply mismatch_good|].
  destruct (Ascii.eqb c "l"); [apply mismatch_good|].
  destruct (Ascii.eqb c "d"); [|apply mismatch_good].
  eapply good_weaken; [apply decodeInto_good_all| simpl; lia | simpl; lia].
Qed.

Lemma intoInt64_sound : sound intoInt64.
Proof.
  intros fuel cur [|c rest]; [apply good_Err|]. unfold intoInt64.
  destruct (Ascii.eqb c "i"); [|apply mismatch_good].
  eapply good_weaken; [apply decodeInt_good| simpl; lia | tauto].
Qed.

Lemma intoString_sound : sound intoString.
Proof.
  intros fuel cur [|c rest]; [apply good_Err|]. unfold intoString.
  destruct (Ascii.eqb c "i"); [apply mismatch_good|].
  destruct (isDigit c); [|apply mismatch_good].
  eapply good_weaken; [apply decodeString_good| simpl; lia | tauto].
Qed.

Lemma sliceLoop_good {E} (zero : E) (elem : decoder E) :
  sound elem ->
  forall fuel cur i bs,
    good bs (2 * length bs + 1 < fuel) (sliceLoop zero elem fuel cur i bs).
Proof.
  intros S. induction fuel as [|f IH]; intros cur i bs.
  { repeat split; simpl; try discriminate; lia. }
  destruct bs as [|c rest]; [apply good_Err|].
  cbn [sliceLoop]. destruct (Ascii.eqb c "e").
  { repeat split; try discriminate. intros x r [= <- <-]. simpl. lia. }
  eapply good_bind; [apply S| lia | simpl; lia |].
  intros x r1 _ L1. left.
  eapply good_weaken; [apply IH| lia | simpl in *; lia].
Qed.

Lemma intoSlice_sound {E} (zero : E) (elem : decoder E) :
  sound elem -> sound (intoSlice zero elem).
Proof.
  intros S fuel cur [|c rest]; [apply good_Err|]. unfold intoSlice.
  destruct (Ascii.eqb c "i"); [apply mismatch_good|].
  destruct (isDigit c); [apply mismatch_good|].
  destruct (Ascii.eqb c "l"); [|apply mismatch_good].
  eapply good_weaken; [apply sliceLoop_good, S| simpl; lia | simpl; lia].
Qed.

Lemma structLoop_good {S} (field : bytes -> option (decoder S)) :
  (forall k dec, field k = Some dec -> sound dec) ->
  forall fuel cur bs,
    good bs (2 * length bs + 1 < fuel) (structLoop field fuel cur bs).
Proof.
  intros F. induction fuel as [|f IH]; intros cur bs.
  { repeat split; simpl; try discriminate; lia. }
  destruct bs as [|c rest]; [apply good_Err|].
  cbn [structLoop]. destruct (Ascii.eqb c "e").
  { repeat split; try discriminate. intros x r [= <- <-]. simpl. lia. }
  eapply good_bind; [apply decodeString_good| lia | tauto |].
  intros k r1 _ L1. left.
  destruct (field k) as [dec|] eqn:Ef.
  - eapply good_bind; [apply (F _ _ Ef)| lia | simpl in *; lia |].
    intros x r2 _ L2. left.
    eapply good_weaken; [apply IH| lia | simpl in *; lia].
  - eapply good_bind; [apply decodeInto_good| lia | simpl in *; lia |].
    intros x r2 _ L2. left.
    eapply good_weaken; [apply IH| lia | simpl in *; lia].
Qed.

Lemma intoStruct_sound {S} (field : bytes -> option (decoder S)) :
  (forall k dec, field k = Some dec -> sound dec) -> sound (intoStruct field).
Proof.
  intros F fuel cur [|c rest]; [apply good_Err|]. unfold intoStruct.
  destruct (Ascii.eqb c "i"); [apply mismatch_good|].
  destruct (isDigit c); [apply mismatch_good|].
  destruct (Ascii.eqb c "l"); [apply mismatch_good|].
  destruct (Ascii.eqb c "d"); [|apply mismatch_good].
  eapply good_weaken; [apply structLoop_good, F| simpl; lia | simpl; lia].
Qed.

Lemma fieldOf_sound {S T} (get : S -> T) set (dec : decoder T) :
  sound dec -> sound (fieldOf get set dec).
Proof.
  intros D fuel cur bs. unfold fieldOf.
  eapply good_bind; [apply D| lia | tauto |].
  intros v r _ L. right. repeat split; try discriminate.
  intros y r' [= <- <-]. lia.
Qed.

Create HintDb sound.

#[local] Hint Resolve fieldOf_sound intoInt64_sound intoString_sound
  intoInterface_sound intoSlice_sound intoStruct_sound : sound.

Lemma FileDict_field_sound k dec : FileDict_field k = Some dec -> sound dec.
Proof.
  unfold FileDict_field.
  repeat (destruct (bytes_eqb k _); [intros [= <-]; auto with sound|]).
  discriminate.
Qed.

Lemma InfoDict_field_sound k dec : InfoDict_field k = Some dec -> sound dec.
Proof.
  pose proof FileDict_field_sound. unfold InfoDict_field.
  repeat (destruct (bytes_eqb k _); [intros [= <-]; auto with sound|]).
  discriminate.
Qed.

Lemma TorrentMetaInfo_field_sound k dec :
  TorrentMetaInfo_field k = Some dec -> sound dec.
Proof.
  pose proof InfoDict_field_sound. unfold TorrentMetaInfo_field.
  repeat (destruct (bytes_eqb k _); [intros [= <-]; auto with sound|]).
  discriminate.
Qed.

(** [DecodeBytes] returns a value or an error. *)
Lemma DecodeBytes_fuel {T} (dec : decoder T) zero data :
  sound dec ->
  (exists x, DecodeBytes dec zero data = Ok x) \/
  (exists e, DecodeBytes dec zero data = Err e).
Proof.
  intros S. unfold DecodeBytes, fuelFor.
  destruct (S (Datatypes.S (2 * length data)) zero data) as (_ & H2 & H3).
  destruct (dec _ zero data) as [[x r]|e| |]; simpl; eauto.
  - congruence.
  - exfalso. apply H3; [lia|reflexivity].
Qed.

Lemma DecodeTorrentMetaInfo_returns data :
  (exists x, DecodeTorrentMetaInfo data = Ok x) \/
  (exists e, DecodeTorrentMetaInfo data = Err e).
Proof.
  apply DecodeBytes_fuel, intoStruct_sound, TorrentMetaInfo_field_sound.
Qed.

Lemma DecodeMap_returns data :
  (exists x, DecodeMap data = Ok x) \/ (exists e, DecodeMap data = Err e).
Proof. apply DecodeBytes_fuel, intoMap_sound. Qed.

(** *** More fuel changes nothing *)

Lemma bind_stable {T U} (r r' : result T) (k k' : T -> result U) :
  bind r k <> NoFuel ->
  (r <> NoFuel -> r' = r) ->
  (forall x, r = Ok x -> k x <> NoFuel -> k' x = k x) ->
  bind r' k' = bind r k.
Proof.
  intros N Hr Hk. destruct r as [x| | |]; simpl in *.
  - rewrite Hr by discriminate. simpl. now apply Hk.
  - now rewrite Hr by discriminate.
  - now rewrite Hr by discriminate.
  - congruence.
Qed.

Lemma decodeInto_stable_all fuel :
  (forall bs, decodeInto fuel bs <> NoFuel ->
     forall fuel', fuel <= fuel' -> decodeInto fuel' bs = decodeInto fuel bs) /\
  (forall bs, decodeList fuel bs <> NoFuel ->
     forall fuel', fuel <= fuel' -> decodeList fuel' bs = decodeList fuel bs) /\
  (forall bs m, decodeDict fuel bs m <> NoFuel ->
     forall fuel', fuel <= fuel' -> decodeDict fuel' bs m = decodeDict fuel bs m).
Proof.
  induction fuel as [|f (IHv & IHl & IHd)].
  { repeat split; intros; simpl in *; congruence. }
  split; [|split].
  - intros bs N [|f'] L; [lia|]. apply le_S_n in L.
    destruct bs as [|c rest]; [reflexivity|]. cbn [decodeInto] in *.
    destruct (Ascii.eqb c "i"); [reflexivity|].
    destruct (isDigit c); [reflexivity|].
    destruct (Ascii.eqb c "l"); [now apply bind_stable; auto|].
    destruct (Ascii.eqb c "d"); [|reflexivity].
    now apply bind_stable; auto.
  - intros bs N [|f'] L; [lia|]. apply le_S_n in L.
    destruct bs as [|c rest]; [reflexivity|]. cbn [decodeList] in *.
    destruct (Ascii.eqb c "e"); [reflexivity|].
    apply bind_stable; auto.
    intros [v r1] _ N1. now apply bind_stable; auto.
  - intros bs m N [|f'] L; [lia|]. apply le_S_n in L.
    destruct bs as [|c rest]; [reflexivity|]. cbn [decodeDict] in *.
    destruct (Ascii.eqb c "e"); [reflexivity|].
    apply bind_stable; auto.
    intros [k r1] _ N1. apply bind_stable; auto.
    intros [v r2] _ N2. auto.
Qed.

Lemma decodeInto_stable fuel fuel' bs x :
  decodeInto fuel bs = Ok x -> fuel <= fuel' -> decodeInto fuel' bs = Ok x.
Proof.
  intros E L. rewrite <- E. apply decodeInto_stable_all; auto. congruence.
Qed.

Lemma decodeList_stable fuel fuel' bs x :
  decodeList fuel bs = Ok x -> fuel <= fuel' -> decodeList fuel' bs = Ok x.
Proof.
  intros E L. rewrite <- E. apply decodeInto_stable_all; auto. congruence.
Qed.

Lemma decodeDict_stable fuel fuel' bs m x :
  decodeDict fuel bs m = Ok x -> fuel <= fuel' -> decodeDict fuel' bs m = Ok x.
Proof.
  intros E L. rewrite <- E. apply decodeInto_stable_all; auto. congruence.
Qed.

Lemma decodeInto_deterministic f1 f2 bs x1 x2 :
  decodeInto f1 bs = Ok x1 -> decodeInto f2 bs = Ok x2 -> x1 = x2.
Proof.
  intros E1 E2.
  apply decodeInto_stable with (fuel' := Nat.max f1 f2) in E1; [|lia].
  apply decodeInto_stable with (fuel' := Nat.max f1 f2) in E2; [|lia].
  congruence.
Qed.

(** *** A typed decoder reads what the decoder into [interface{}] reads *)

Lemma mismatch_fails {T} c bs rest (x : T * bytes) : mismatch c bs rest <> Ok x.
Proof.
  unfold mismatch.
  destruct (Ascii.eqb c "i"); [destruct (readBytes "e" rest) as [[? ?]| | |]; discriminate|].
  destruct (isDigit c); [destruct (decodeString bs) as [[? ?]| | |]; discriminate|].
  destruct (Ascii.eqb c "l"); [discriminate|].
  destruct (Ascii.eqb c "d"); discriminate.
Qed.

Lemma intoInt64_inv fuel cur bs n r :
  intoInt64 fuel cur bs = Ok (n, r) ->
  exists rest, bs = "i"%char :: rest /\ decodeInt rest = Ok (n, r).
Proof.
  unfold intoInt64. destruct bs as [|c rest]; [discriminate|].
  destruct (Ascii.eqb c "i") eqn:E.
  - apply Ascii.eqb_eq in E. subst c. eauto.
  - intros H. now apply mismatch_fails in H.
Qed.

Lemma intoInt64_agrees : agrees intoInt64.
Proof.
  intros fuel cur bs n r H. apply intoInt64_inv in H as (rest & -> & H).
  exists 1, (VInt n). simpl. now rewrite H.
Qed.

Lemma intoString_agrees : agrees intoString.
Proof.
  intros fuel cur bs x r. unfold intoString.
  destruct bs as [|c rest]; [discriminate|].
  destruct (Ascii.eqb c "i") eqn:Ei; [intros H; now apply mismatch_fails in H|].
  destruct (isDigit c) eqn:Ed; [|intros H; now apply mismatch_fails in H].
  intros H. exists 1, (VString x). cbn [decodeInto]. now rewrite Ei, Ed, H.
Qed.

Lemma intoInterface_agrees : agrees intoInterface.
Proof.
  intros fuel cur bs x r. unfold intoInterface.
  destruct (decodeInto fuel bs) as [[v r']| | |] eqn:E; simpl; try discriminate.
  intros [= <- <-]. exists fuel, v. exact E.
Qed.

Lemma fieldOf_agrees {S T} (get : S -> T) set (dec : decoder T) :
  agrees dec -> agrees (fieldOf get set dec).
Proof.
  intros A fuel cur bs x r. unfold fieldOf.
  destruct (dec fuel (get cur) bs) as [[y r']| | |] eqn:E; simpl; try discriminate.
  intros [= <- <-]. eapply A; eauto.
Qed.

Lemma sliceLoop_reads {E} (zero : E) (elem : decoder E) :
  agrees elem ->
  forall fuel cur i bs l r,
    sliceLoop zero elem fuel cur i bs = Ok (l, r) ->
    exists fuel' vs, decodeList fuel' bs = Ok (vs, r).
Proof.
  intros A. induction fuel as [|f IH]; intros cur i bs l r; [discriminate|].
  destruct bs as [|c rest]; [discriminate|]. cbn [sliceLoop].
  destruct (Ascii.eqb c "e") eqn:Ee.
  - intros [= <- <-]. exists 1, []. simpl. now rewrite Ee.
  - destruct (elem f (nth i cur zero) (c :: rest)) as [[x r1]| | |] eqn:E1;
      simpl; try discriminate.
    intros H. apply IH in H as (f2 & vs & H2).
    destruct (A _ _ _ _ _ E1) as (f1 & v & H1).
    exists (S (Nat.max f1 f2)), (v :: vs). cbn [decodeList]. rewrite Ee.
    rewrite (decodeInto_stable _ H1) by lia. simpl.
    rewrite (decodeList_stable _ H2) by lia. reflexivity.
Qed.

Lemma intoSlice_agrees {E} (zero : E) (elem : decoder E) :
  agrees elem -> agrees (intoSlice zero elem).
Proof.
  intros A fuel cur bs x r. unfold intoSlice.
  destruct bs as [|c rest]; [discriminate|].
  destruct (Ascii.eqb c "i") eqn:Ei; [intros H; now apply mismatch_fails in H|].
  destruct (isDigit c) eqn:Ed; [intros H; now apply mismatch_fails in H|].
  destruct (Ascii.eqb c "l") eqn:El; [|intros H; now apply mismatch_fails in H].
  intros H. apply (@sliceLoop_reads _ zero elem A) in H as (f & vs & H).
  exists (S f), (VList vs). cbn [decodeInto]. now rewrite Ei, Ed, El, H.
Qed.

Lemma structLoop_reads {S} (field : bytes -> option (decoder S)) :
  (forall k dec, field k = Some dec -> agrees dec) ->
  forall fuel cur bs cur' r,
    structLoop field fuel cur bs = Ok (cur', r) ->
    exists fuel', forall acc, exists m, decodeDict fuel' bs acc = Ok (m, r).
Proof.
  intros A. induction fuel as [|f IH]; intros cur bs cur' r; [discriminate|].
  destruct bs as [|c rest]; [discriminate|]. cbn [structLoop].
  destruct (Ascii.eqb c "e") eqn:Ee.
  - intros [= <- <-]. exists 1. intros acc. exists acc. simpl. now rewrite Ee.
  - destruct (decodeString (c :: rest)) as [[k r1]| | |] eqn:Ek;
      simpl; try discriminate.
    assert (Hval : forall r2, reads r1 r2 ->
              forall cur1, structLoop field f cur1 r2 = Ok (cur', r) ->
              exists fuel', forall acc, exists m,
                decodeDict fuel' (c :: rest) acc = Ok (m, r)).
    { intros r2 (f1 & v & H1) cur1 H. apply IH in H as (f2 & H2).
      exists (Datatypes.S (Nat.max f1 f2)). intros acc.
      destruct (H2 (map_set k v acc)) as (m & Hm). exists m.
      cbn [decodeDict]. rewrite Ee, Ek. simpl.
      rewrite (decodeInto_stable _ H1) by lia. simpl.
      apply (decodeDict_stable _ _ Hm). lia. }
    destruct (field k) as [dec|] eqn:Ef.
    + destruct (dec f cur r1) as [[cur1 r2]| | |] eqn:E1; simpl; try discriminate.
      apply Hval. eapply A; eauto.
    + destruct (decodeInto f r1) as [[v r2]| | |] eqn:E1; simpl; try discriminate.
      apply Hval. exists f, v. exact E1.
Qed.

Lemma intoStruct_agrees {S} (field : bytes -> option (decoder S)) :
  (forall k dec, field k = Some dec -> agrees dec) -> agrees (intoStruct field).
Proof.
  intros A fuel cur bs x r. unfold intoStruct.
  destruct bs as [|c rest]; [discriminate|].
  destruct (Ascii.eqb c "i") eqn:Ei; [intros H; now apply mismatch_fails in H|].
  destruct (isDigit c) eqn:Ed; [intros H; now apply mismatch_fails in H|].
  destruct (Ascii.eqb c "l") eqn:El; [intros H; now apply mismatch_fails in H|].
  destruct (Ascii.eqb c "d") eqn:Edd; [|intros H; now apply mismatch_fails in H].
  intros H. apply (@structLoop_reads _ field A) in H as (f & H).
  destruct (H []) as (m & Hm).
  exists (Datatypes.S f), (VDict m). cbn [decodeInto].
  now rewrite Ei, Ed, El, Edd, Hm.
Qed.

Create HintDb agrees.

#[local] Hint Resolve fieldOf_agrees intoInt64_agrees intoString_agrees
  intoInterface_agrees intoSlice_agrees intoStruct_agrees : agrees.

Lemma FileDict_field_agrees k dec : FileDict_field k = Some dec -> agrees dec.
Proof.
  unfold FileDict_field.
  repeat (destruct (bytes_eqb k _); [intros [= <-]; auto with agrees|]).
  discriminate.
Qed.

Lemma InfoDict_field_agrees k dec : InfoDict_field k = Some dec -> agrees dec.
Proof.
  pose proof FileDict_field_agrees. unfold InfoDict_field.
  repeat (destruct (bytes_eqb k _); [intros [= <-]; auto with agrees|]).
  discriminate.
Qed.

Lemma TorrentMetaInfo_field_agrees k dec :
  TorrentMetaInfo_field k = Some dec -> agrees dec.
Proof.
  pose proof InfoDict_field_agrees. unfold TorrentMetaInfo_field.
  repeat (destruct (bytes_eqb k _); [intros [= <-]; auto with agrees|]).
  discriminate.
Qed.

(** *** A field of the struct and the entry of the map

    The struct and the map are decoded from the same dictionary; [rel]
    relates the entry of key [K] in the map to the field tagged [K] of
    the struct, from the first pair to the last. *)
Section FieldAndEntry.

Variables (S T : Type) (field : bytes -> option (decoder S)).
Variables (get : S -> T) (K : bytes) (rel : option value -> T -> Prop).

Hypothesis field_agrees : forall k dec, field k = Some dec -> agrees dec.
Hypothesis field_K : field K <> None.
Hypothesis other_fields :
  forall k dec, field k = Some dec -> k <> K ->
  forall fuel cur bs cur' r, dec fuel cur bs = Ok (cur', r) -> get cur' = get cur.
Hypothesis this_field :
  forall dec, field K = Some dec ->
  forall fuel cur bs cur' r fuel' v r',
    dec fuel cur bs = Ok (cur', r) -> decodeInto fuel' bs = Ok (v, r') ->
    rel (Some v) (get cur').

Lemma structLoop_entry fuel :
  forall cur bs cur' r,
    structLoop field fuel cur bs = Ok (cur', r) ->
    forall fuel' acc m r',
      decodeDict fuel' bs acc = Ok (m, r') ->
      rel (map_get K acc) (get cur) -> rel (map_get K m) (get cur').
Proof.
  induction fuel as [|f IH]; intros cur bs cur' r; [discriminate|].
  destruct bs as [|c rest]; [discriminate|]. cbn [structLoop].
  intros H [|g] acc m r'; [discriminate|]. cbn [decodeDict]. revert H.
  destruct (Ascii.eqb c "e") eqn:Ee.
  { intros [= <- <-] [= <- <-]. auto. }
  destruct (decodeString (c :: rest)) as [[k r1]| | |] eqn:Ek;
    simpl; try discriminate.
  intros H.
  destruct (decodeInto g r1) as [[v r2']| | |] eqn:Ev; simpl; try discriminate.
  intros Hm R.
  destruct (field k) as [dec|] eqn:Ef.
  - destruct (dec f cur r1) as [[cur1 r2]| | |] eqn:E1; simpl in H; try discriminate.
    pose proof Ef as Ag. apply field_agrees in Ag.
    destruct (Ag _ _ _ _ _ E1) as (f1 & v1 & H1).
    assert (r2 = r2')
      by (pose proof (@decodeInto_deterministic _ _ _ _ _ H1 Ev); congruence).
    subst r2'. eapply IH; eauto.
    destruct (bytes_eqb k K) eqn:EK.
    + apply bytes_eqb_eq in EK. subst k.
      rewrite map_get_set_same. eapply this_field; eauto.
    + apply bytes_eqb_neq in EK.
      rewrite map_get_set_other by assumption.
      assert (Hg : get cur1 = get cur) by (eapply other_fields; eauto).
      now rewrite Hg.
  - destruct (decodeInto f r1) as [[v1 r2]| | |] eqn:E1; simpl in H; try discriminate.
    assert (r2 = r2')
      by (pose proof (@decodeInto_deterministic _ _ _ _ _ E1 Ev); congruence).
    subst r2'. eapply IH; eauto.
    rewrite map_get_set_other; auto. intros ->. contradiction.
Qed.

Lemma DecodeBytes_entry zero data x m :
  DecodeBytes (intoStruct field) zero data = Ok x ->
  DecodeBytes intoMap [] data = Ok m ->
  rel None (get zero) -> rel (map_get K m) (get x).
Proof.
  unfold DecodeBytes, intoStruct, intoMap.
  destruct data as [|c rest]; [discriminate|].
  generalize (fuelFor (c :: rest)). intros F.
  destruct (Ascii.eqb c "i");
    [intros H; simpl in H; exfalso; revert H;
     destruct (mismatch c (c :: rest) rest) as [[? ?]| | |] eqn:E;
     simpl; try discriminate; now apply mismatch_fails in E|].
  destruct (isDigit c);
    [intros H; simpl in H; exfalso; revert H;
     destruct (mismatch c (c :: rest) rest) as [[? ?]| | |] eqn:E;
     simpl; try discriminate; now apply mismatch_fails in E|].
  destruct (Ascii.eqb c "l");
    [intros H; simpl in H; exfalso; revert H;
     destruct (mismatch c (c :: rest) rest) as [[? ?]| | |] eqn:E;
     simpl; try discriminate; now apply mismatch_fails in E|].
  destruct (Ascii.eqb c "d");
    [|intros H; simpl in H; exfalso; revert H;
      destruct (mismatch c (c :: rest) rest) as [[? ?]| | |] eqn:E;
      simpl; try discriminate; now apply mismatch_fails in E].
  destruct (structLoop field _ zero rest) as [[x' r]| | |] eqn:E1;
    simpl; try discriminate.
  intros [= <-].
  destruct (decodeDict _ rest []) as [[m' r']| | |] eqn:E2;
    simpl; try discriminate.
  intros [= <-] R. eapply structLoop_entry; eauto.
Qed.

End FieldAndEntry.

Lemma URLList_entry data metaInfo torrent :
  DecodeTorrentMetaInfo data = Ok metaInfo ->
  DecodeMap data = Ok torrent ->
  URLList metaInfo = ifaceOf (map_get (str "url-list") torrent).
Proof.
  intros M D.
  refine (@DecodeBytes_entry _ _ TorrentMetaInfo_field URLList (str "url-list")
            (fun entry x => x = ifaceOf entry) _ _ _ _
            zeroTorrentMetaInfo data metaInfo torrent M D _).
  - apply TorrentMetaInfo_field_agrees.
  - discriminate.
  - intros k dec. unfold TorrentMetaInfo_field.
    repeat (match goal with
            | |- context [if bytes_eqb k ?s then _ else _] =>
                destruct (bytes_eqb k s) eqn:?
            end;
            [intros [= <-] N fuel cur bs cur' r; unfold fieldOf;
             match goal with |- context [bind ?e _] => destruct e as [[? ?]| | |] end;
             simpl; try discriminate; intros [= <- <-]; try reflexivity|]);
      try discriminate.
    exfalso. apply N. now apply bytes_eqb_eq.
  - intros dec [= <-] fuel cur bs cur' r fuel' v r'. unfold fieldOf, intoInterface.
    destruct (decodeInto fuel bs) as [[v0 r0]| | |] eqn:E; simpl; try discriminate.
    intros [= <- <-] Ev.
    pose proof (@decodeInto_deterministic _ _ _ _ _ E Ev). simpl. congruence.
  - reflexivity.
Qed.

Lemma CreationDate_entry data metaInfo torrent :
  DecodeTorrentMetaInfo data = Ok metaInfo ->
  DecodeMap data = Ok torrent ->
  int64Of (map_get (str "creation date") torrent) (CreationDate metaInfo).
Proof.
  intros M D.
  refine (@DecodeBytes_entry _ _ TorrentMetaInfo_field CreationDate
            (str "creation date") int64Of _ _ _ _
            zeroTorrentMetaInfo data metaInfo torrent M D _).
  - apply TorrentMetaInfo_field_agrees.
  - discriminate.
  - intros k dec. unfold TorrentMetaInfo_field.
    repeat (match goal with
            | |- context [if bytes_eqb k ?s then _ else _] =>
                destruct (bytes_eqb k s) eqn:?
            end;
            [intros [= <-] N fuel cur bs cur' r; unfold fieldOf;
             match goal with |- context [bind ?e _] => destruct e as [[? ?]| | |] end;
             simpl; try discriminate; intros [= <- <-]; try reflexivity|]);
      try discriminate.
    exfalso. apply N. now apply bytes_eqb_eq.
  - intros dec [= <-] fuel cur bs cur' r fuel' v r'. unfold fieldOf.
    destruct (intoInt64 fuel (CreationDate cur) bs) as [[n r0]| | |] eqn:E;
      simpl; try discriminate.
    intros [= <- <-] Ev. apply intoInt64_inv in E as (rest & -> & E).
    destruct fuel' as [|g]; [discriminate|]. simpl in Ev. rewrite E in Ev.
    simpl in *. congruence.
  - reflexivity.
Qed.

(** A file that decodes into the struct decodes into a map. *)
Lemma DecodeMap_of_struct data metaInfo :
  DecodeTorrentMetaInfo data = Ok metaInfo ->
  exists torrent, DecodeMap data = Ok torrent.
Proof.
  intros M. destruct (DecodeMap_returns data) as [H|[e H]]; [exact H|].
  exfalso. revert M H.
  unfold DecodeTorrentMetaInfo, DecodeMap, DecodeBytes.
  destruct (intoStruct TorrentMetaInfo_field (fuelFor data) zeroTorrentMetaInfo data)
    as [[x r]| | |] eqn:E1; simpl; try discriminate.
  intros _.
  destruct (@intoStruct_agrees _ _ TorrentMetaInfo_field_agrees _ _ _ _ _ E1)
    as (f & v & Hv).
  revert E1. unfold intoStruct, intoMap.
  destruct data as [|c rest]; [discriminate|].
  destruct (Ascii.eqb c "i") eqn:Ei; [intros H; now apply mismatch_fails in H|].
  destruct (isDigit c) eqn:Ed; [intros H; now apply mismatch_fails in H|].
  destruct (Ascii.eqb c "l") eqn:El; [intros H; now apply mismatch_fails in H|].
  destruct (Ascii.eqb c "d") eqn:Edd; [|intros H; now apply mismatch_fails in H].
  intros _.
  destruct f as [|f]; [discriminate|]. cbn [decodeInto] in Hv.
  rewrite Ei, Ed, El, Edd in Hv.
  destruct (decodeDict f rest []) as [[m r']| | |] eqn:Em; simpl in Hv; try discriminate.
  destruct (decodeDict (fuelFor (c :: rest)) rest []) as [[m2 r2]| | |] eqn:Em2;
    simpl; try discriminate.
  intros _.
  destruct (Nat.le_ge_cases f (fuelFor (c :: rest))) as [L|L].
  - rewrite (decodeDict_stable _ _ Em L) in Em2. discriminate.
  - assert (N : decodeDict (fuelFor (c :: rest)) rest [] <> NoFuel)
      by (rewrite Em2; discriminate).
    pose proof (proj2 (proj2 (decodeInto_stable_all _)) _ _ N _ L) as St.
    rewrite Em, Em2 in St. discriminate.
Qed.

End DecoderFacts.

(** ** The codec: encoding, then decoding *)

Module CodecFacts.

Import Strconv Bencode Tags Spec StrconvFacts DecoderFacts.

(** Induction on a value, with the property at hand for the members of a
    list and of a dictionary. *)
Section ValueInduction.

Variable P : value -> Prop.
Hypothesis HInt : forall n, P (VInt n).
Hypothesis HString : forall s, P (VString s).
Hypothesis HList : forall l, Forall P l -> P (VList l).
Hypothesis HDict : forall m, Forall (fun kv => P (snd kv)) m -> P (VDict m).

Lemma value_induction : forall v, P v.
Proof.
  fix IH 1. intros [n|s|l|m].
  - apply HInt.
  - apply HString.
  - apply HList. induction l as [|x l IHl]; constructor; [apply IH | exact IHl].
  - apply HDict. induction m as [|kv m IHm]; constructor; [apply IH | exact IHm].
Qed.

End ValueInduction.

Lemma readBytes_app d l rest :
  forallb (fun c => negb (Ascii.eqb c d)) l = true ->
  readBytes d (l ++ d :: rest) = Ok (l, rest).
Proof.
  induction l as [|c l IH]; simpl.
  - now rewrite Ascii.eqb_refl.
  - rewrite andb_true_iff, negb_true_iff. intros [-> H].
    now rewrite IH.
Qed.

Lemma digits_without d l :
  isDigit d = false -> forallb isDigit l = true ->
  forallb (fun c => negb (Ascii.eqb c d)) l = true.
Proof.
  intros Hd. induction l as [|c l IH]; simpl; auto.
  rewrite !andb_true_iff. intros [Hc Hl]. split; auto.
  now rewrite (isDigit_not c d Hd Hc).
Qed.

Lemma canonDigits_digits ds : canonDigits ds = true -> forallb isDigit ds = true.
Proof. intros H. now apply canonDigits_inv in H. Qed.

Lemma decodeString_canon ds s rest :
  canonDigits ds = true -> digitsValue ds = Z.of_nat (length s) ->
  shortb s = true ->
  decodeString (ds ++ ":"%char :: s ++ rest) = Ok (s, rest).
Proof.
  intros C V S. unfold decodeString.
  rewrite readBytes_app
    by (apply digits_without; [reflexivity | now apply canonDigits_digits]).
  simpl bind. unfold shortb in S. apply Z.ltb_lt in S.
  rewrite ParseInt_digits by (auto; rewrite V; exact S).
  simpl bind. rewrite V.
  destruct (Z.ltb_spec (Z.of_nat (length s)) 0); [lia|].
  rewrite Nat2Z.id, length_app.
  destruct (Nat.leb_spec (length s) (length s + length rest)); [|lia].
  rewrite firstn_app, Nat.sub_diag, firstn_all, firstn_O, app_nil_r.
  rewrite skipn_app, Nat.sub_diag, skipn_all. reflexivity.
Qed.

Lemma decodeString_encode s rest :
  shortb s = true -> decodeString (encodeString s ++ rest) = Ok (s, rest).
Proof.
  intros S. unfold encodeString, FormatInt.
  destruct (Z.ltb_spec (Z.of_nat (length s)) 0); [lia|].
  rewrite <- app_assoc. simpl app.
  apply decodeString_canon; auto.
  - apply FormatUint_canon. lia.
  - apply digitsValue_FormatUint. lia.
Qed.

Lemma decodeInt_canon ds rest :
  canonDigits ds = true -> (digitsValue ds < 2 ^ 63)%Z ->
  decodeInt (ds ++ "e"%char :: rest) = Ok (digitsValue ds, rest).
Proof.
  intros C R. unfold decodeInt.
  rewrite readBytes_app
    by (apply digits_without; [reflexivity | now apply canonDigits_digits]).
  simpl bind. now rewrite ParseInt_digits.
Qed.

Lemma decodeInt_canon_neg ds rest :
  canonDigits ds = true -> (digitsValue ds <= 2 ^ 63)%Z ->
  decodeInt ("-"%char :: ds ++ "e"%char :: rest) = Ok ((- digitsValue ds)%Z, rest).
Proof.
  intros C R. unfold decodeInt.
  change ("-"%char :: ds ++ "e"%char :: rest)
    with (("-"%char :: ds) ++ "e"%char :: rest).
  rewrite readBytes_app.
  - cbv beta iota delta [bind]. rewrite ParseInt_neg by assumption.
    reflexivity.
  - simpl. apply digits_without; [reflexivity | now apply canonDigits_digits].
Qed.

Lemma decodeInt_encode n rest :
  (- 2 ^ 63 <= n < 2 ^ 63)%Z ->
  decodeInt (FormatInt n ++ "e"%char :: rest) = Ok (n, rest).
Proof.
  intros R. unfold FormatInt. destruct (Z.ltb_spec n 0).
  - simpl app. rewrite decodeInt_canon_neg.
    + rewrite digitsValue_FormatUint by lia. do 2 f_equal. lia.
    + apply FormatUint_canon. lia.
    + rewrite digitsValue_FormatUint; lia.
  - rewrite decodeInt_canon.
    + now rewrite digitsValue_FormatUint.
    + now apply FormatUint_canon.
    + rewrite digitsValue_FormatUint; lia.
Qed.

Lemma encodeString_head s :
  exists c t, encodeString s = c :: t /\ isDigit c = true.
Proof.
  unfold encodeString, FormatInt.
  destruct (Z.ltb_spec (Z.of_nat (length s)) 0); [lia|].
  destruct (@FormatUint_head (Z.of_nat (length s))) as (c & t & -> & D); [lia|].
  simpl. eauto.
Qed.

Lemma isDigit_not_e c : isDigit c = true -> Ascii.eqb c "e" = false.
Proof. now apply isDigit_not. Qed.

Lemma encodeValue_head v :
  exists c t, encodeValue v = c :: t /\ Ascii.eqb c "e" = false.
Proof.
  destruct v; simpl; try (eexists _, _; split; reflexivity).
  destruct (encodeString_head s) as (c & t & -> & D).
  eexists _, _. split; [reflexivity|]. now apply isDigit_not_e.
Qed.

Lemma encodeValue_length v : 1 <= length (encodeValue v).
Proof. destruct (encodeValue_head v) as (c & t & -> & _). simpl. lia. Qed.

Lemma nodupb_NoDup l : nodupb l = true -> NoDup l.
Proof.
  induction l as [|k t IH]; simpl; [constructor|].
  rewrite andb_true_iff, negb_true_iff. intros [H1 H2].
  constructor; auto. intros I.
  assert (existsb (bytes_eqb k) t = true); [|congruence].
  apply existsb_exists. exists k. split; auto. apply bytes_eqb_refl.
Qed.

Lemma decodeList_encode l :
  Forall decodes l -> forallb representable l = true ->
  forall fuel rest, 2 * length (flat_map encodeValue l) + 1 < fuel ->
  decodeList fuel (flat_map encodeValue l ++ "e"%char :: rest)
  = Ok (map norm l, rest).
Proof.
  induction 1 as [|v l Hv Hl IH]; intros R fuel rest F.
  - destruct fuel as [|f]; [simpl in F; lia|]. reflexivity.
  - simpl in R. apply andb_true_iff in R as [Rv Rl].
    destruct fuel as [|f]; [lia|].
    cbn [flat_map] in *. rewrite length_app in F.
    pose proof (encodeValue_length v).
    rewrite <- app_assoc.
    destruct (encodeValue_head v) as (c & t & E & Hc).
    cbn [decodeList]. rewrite E at 1. cbn [app]. rewrite Hc.
    replace (c :: t ++ flat_map encodeValue l ++ "e"%char :: rest)
      with (encodeValue v ++ flat_map encodeValue l ++ "e"%char :: rest)
      by (now rewrite E).
    rewrite (Hv Rv) by lia. simpl bind.
    rewrite IH by (auto; lia). reflexivity.
Qed.

Lemma decodeDict_encode es :
  Forall (fun kv => decodes (snd kv)) es ->
  forallb (fun kv => shortb (fst kv) && representable (snd kv)) es = true ->
  NoDup (keys es) ->
  forall fuel rest acc,
    (forall k, In k (keys es) -> ~ In k (keys acc)) ->
    2 * length (encodeEntries es) + 1 < fuel ->
    decodeDict fuel (encodeEntries es ++ "e"%char :: rest) acc
    = Ok (acc ++ normEntries es, rest).
Proof.
  unfold encodeEntries, normEntries.
  induction 1 as [|[k v] es Hv Hes IH]; intros R ND fuel rest acc D F.
  - destruct fuel as [|f]; [simpl in F; lia|]. simpl. now rewrite app_nil_r.
  - simpl in R. apply andb_true_iff in R as [Rv Res].
    apply andb_true_iff in Rv as [Sk Rv].
    inversion ND as [|? ? Nk ND']; subst.
    destruct fuel as [|f]; [lia|].
    cbn [map flat_map fst snd] in *. unfold encodeEntry at 1 in F.
    unfold encodeEntry at 1. cbn [fst snd] in *.
    rewrite !length_app in F.
    pose proof (encodeValue_length v).
    rewrite <- !app_assoc.
    destruct (encodeString_head k) as (c & t & E & Hc).
    cbn [decodeDict]. rewrite E at 1. cbn [app].
    rewrite (isDigit_not_e _ Hc).
    replace (c :: t ++ encodeValue v ++
             flat_map encodeEntry (map (fun kv => (fst kv, encodeValue (snd kv))) es)
             ++ "e"%char :: rest)
      with (encodeString k ++ encodeValue v ++
            flat_map encodeEntry (map (fun kv => (fst kv, encodeValue (snd kv))) es)
            ++ "e"%char :: rest)
      by (now rewrite E).
    rewrite decodeString_encode by assumption. simpl bind.
    rewrite (Hv Rv) by lia. simpl bind.
    rewrite map_set_fresh by (apply D; now left).
    rewrite IH; auto.
    + now rewrite <- app_assoc.
    + intros k' I. unfold keys. rewrite map_app, in_app_iff. simpl.
      intros [I'|[<-|[]]]; [|contradiction].
      apply (D k'); [now right | exact I'].
    + lia.
Qed.

Lemma Forall_perm {A} (Q : A -> Prop) l l' :
  Permutation l l' -> Forall Q l -> Forall Q l'.
Proof.
  intros Pm. rewrite !Forall_forall. intros H x I. apply H.
  eapply Permutation_in; [symmetry|]; eauto.
Qed.

Lemma forallb_perm {A} (q : A -> bool) l l' :
  Permutation l l' -> forallb q l = true -> forallb q l' = true.
Proof.
  intros Pm. rewrite !forallb_forall. intros H x I. apply H.
  eapply Permutation_in; [symmetry|]; eauto.
Qed.

Lemma encodeValue_dict m :
  encodeValue (VDict m)
  = "d"%char :: encodeEntries (sortKeys m) ++ ["e"%char].
Proof.
  unfold encodeEntries. simpl. now rewrite sortKeys_map.
Qed.

Lemma norm_dict m : norm (VDict m) = VDict (normEntries (sortKeys m)).
Proof. unfold normEntries. simpl. now rewrite sortKeys_map. Qed.

(** Decoding the encoding of a value gives the value back, its
    dictionaries in key order. *)
Lemma decodeInto_encode v : decodes v.
Proof.
  induction v as [n|s|l IH|m IH] using value_induction;
    intros R fuel rest F; (destruct fuel as [|f]; [lia|]).
  - simpl in R. apply andb_true_iff in R as [R1 R2].
    apply Z.leb_le in R1. apply Z.ltb_lt in R2.
    cbn [encodeValue app decodeInto].
    replace (Ascii.eqb "i" "i") with true by reflexivity.
    rewrite <- app_assoc. cbn [app].
    rewrite decodeInt_encode by lia. reflexivity.
  - simpl in R. cbn [encodeValue norm].
    destruct (encodeString_head s) as (c & t & E & Hc).
    cbn [decodeInto]. rewrite E at 1. cbn [app].
    rewrite (@isDigit_not c "i") by auto. rewrite Hc.
    replace (c :: t ++ rest) with (encodeString s ++ rest) by (now rewrite E).
    now rewrite decodeString_encode.
  - cbn [encodeValue norm representable] in *.
    cbn [app decodeInto length] in *.
    replace (Ascii.eqb "l" "i") with false by reflexivity.
    replace (isDigit "l") with false by reflexivity.
    replace (Ascii.eqb "l" "l") with true by reflexivity.
    rewrite <- app_assoc. cbn [app]. rewrite length_app in F. simpl in F.
    rewrite decodeList_encode by (auto; lia). reflexivity.
  - rewrite encodeValue_dict, norm_dict in *.
    cbn [representable] in R. apply andb_true_iff in R as [R1 R2].
    cbn [app decodeInto length] in *.
    replace (Ascii.eqb "d" "i") with false by reflexivity.
    replace (isDigit "d") with false by reflexivity.
    replace (Ascii.eqb "d" "l") with false by reflexivity.
    replace (Ascii.eqb "d" "d") with true by reflexivity.
    rewrite <- app_assoc. cbn [app]. rewrite length_app in F. simpl in F.
    pose proof (sortKeys_perm m) as Pm.
    rewrite decodeDict_encode; auto.
    + eapply Forall_perm; eauto.
    + eapply forallb_perm; eauto.
    + unfold keys. eapply Permutation_NoDup.
      * apply Permutation_map, Pm.
      * now apply nodupb_NoDup.
    + lia.
Qed.

(** *** Normal forms *)

Lemma map_ext_Forall {A B} (f g : A -> B) l :
  Forall (fun x => f x = g x) l -> map f l = map g l.
Proof. induction 1; simpl; congruence. Qed.

Lemma norm_idem v : norm (norm v) = norm v.
Proof.
  induction v as [n|s|l IH|m IH] using value_induction; auto.
  - simpl. rewrite map_map. f_equal. now apply map_ext_Forall.
  - rewrite norm_dict. rewrite norm_dict. f_equal. unfold normEntries.
    rewrite (sortKeys_map norm (sortKeys m)), sortKeys_idem, map_map.
    cbn [fst snd]. apply map_ext_Forall.
    eapply Forall_perm; [apply sortKeys_perm|].
    eapply Forall_impl; [|exact IH]. intros [k v] E. simpl in *. congruence.
Qed.

Lemma encodeValue_norm v : encodeValue (norm v) = encodeValue v.
Proof.
  induction v as [n|s|l IH|m IH] using value_induction; auto.
  - simpl. do 2 f_equal. rewrite !flat_map_concat_map, map_map. f_equal.
    now apply map_ext_Forall.
  - rewrite norm_dict, !encodeValue_dict. do 2 f_equal.
    unfold normEntries, encodeEntries.
    rewrite (sortKeys_map norm (sortKeys m)), sortKeys_idem, map_map.
    cbn [fst snd]. f_equal. apply map_ext_Forall.
    eapply Forall_perm; [apply sortKeys_perm|].
    eapply Forall_impl; [|exact IH]. intros [k v] E. simpl in *. congruence.
Qed.

Lemma veq_refl v : veq v v.
Proof. reflexivity. Qed.

Lemma veq_sym v w : veq v w -> veq w v.
Proof. unfold veq. congruence. Qed.

Lemma veq_trans u v w : veq u v -> veq v w -> veq u w.
Proof. unfold veq. congruence. Qed.

Lemma veq_norm v : veq (norm v) v.
Proof. apply norm_idem. Qed.

(** Values that are equal as key-value sets have one encoding. *)
Lemma veq_encode v w : veq v w -> encodeValue v = encodeValue w.
Proof.
  unfold veq. intros E.
  rewrite <- (encodeValue_norm v), <- (encodeValue_norm w). now f_equal.
Qed.

(** The entries of a dictionary in another order make an equal value. *)
Lemma veq_reorder m m' :
  Permutation m m' -> NoDup (keys m) -> veq (VDict m) (VDict m').
Proof.
  intros Pm ND. unfold veq. simpl. f_equal.
  apply sortKeys_permutation.
  - now apply Permutation_map.
  - now rewrite keys_map.
Qed.

(** *** Canonical byte strings are encodings *)

Lemma strictAsc_above a ks k :
  strictAsc (Some a) ks -> In k ks -> bytes_ltb a k = true.
Proof.
  revert a. induction ks as [|k' t IH]; simpl; [tauto|].
  intros a [H1 H2] [<-|I]; auto.
  eapply bytes_ltb_trans; eauto.
Qed.

Lemma strictAsc_weaken last ks : strictAsc last ks -> strictAsc None ks.
Proof. destruct ks; simpl; tauto. Qed.

Lemma strictAsc_nodupb last ks : strictAsc last ks -> nodupb ks = true.
Proof.
  revert last. induction ks as [|k t IH]; simpl; auto.
  intros last [_ H]. rewrite (IH _ H), andb_true_r, negb_true_iff.
  destruct (existsb (bytes_eqb k) t) eqn:E; auto.
  apply existsb_exists in E as (k' & I & E). apply bytes_eqb_eq in E. subst k'.
  pose proof (strictAsc_above _ _ _ H I) as L.
  now rewrite bytes_ltb_irrefl in L.
Qed.

Lemma strictAsc_ascending last (m : gomap value) :
  strictAsc last (keys m) -> ascending m.
Proof.
  revert last. induction m as [|[k v] t IH]; simpl; auto.
  intros last [_ H]. split; [|eapply IH; eauto].
  destruct t as [|[k' v'] t']; auto.
  simpl in H. destruct H as [H _]. now apply bytes_ltb_asym.
Qed.

Lemma FormatInt_nonneg n : (0 <= n)%Z -> FormatInt n = FormatUint n.
Proof. intros H. unfold FormatInt. destruct (Z.ltb_spec n 0); [lia|auto]. Qed.

Lemma encodeString_canon ds s :
  canonDigits ds = true -> digitsValue ds = Z.of_nat (length s) ->
  encodeString s = ds ++ ":"%char :: s.
Proof.
  intros C V. unfold encodeString.
  rewrite FormatInt_nonneg by lia. rewrite <- V.
  now rewrite FormatUint_of_digits.
Qed.

Lemma canonical_encoding :
  (forall b, Canonical b -> isEncoding b) /\
  (forall items, CanonItems items -> areEncodings items) /\
  (forall last pairs, CanonPairs last pairs -> areEntries last pairs).
Proof.
  apply Canonical_mutind.
  - intros ds C R. exists (VInt (digitsValue ds)).
    pose proof (digitsValue_nonneg ds).
    repeat split.
    + simpl. apply andb_true_iff. split; [apply Z.leb_le|apply Z.ltb_lt]; lia.
    + simpl. rewrite FormatInt_nonneg by lia.
      now rewrite FormatUint_of_digits.
  - intros ds C R. exists (VInt (- digitsValue ds)).
    repeat split.
    + simpl. apply andb_true_iff. split; [apply Z.leb_le|apply Z.ltb_lt]; lia.
    + simpl. unfold FormatInt.
      destruct (Z.ltb_spec (- digitsValue ds) 0); [|lia].
      rewrite Z.opp_involutive. now rewrite FormatUint_of_digits.
  - intros ds s0 C V S. exists (VString s0). repeat split; auto.
    simpl. now apply encodeString_canon.
  - intros items _ (l & R & N & E). exists (VList l). repeat split; auto.
    + simpl. now rewrite N.
    + simpl. now rewrite E.
  - intros pairs _ (m & R & N & A & E). exists (VDict m).
    pose proof (strictAsc_ascending _ _ A) as Asc.
    repeat split.
    + simpl. rewrite R, (strictAsc_nodupb _ _ A). reflexivity.
    + rewrite norm_dict, (sortKeys_of_ascending _ Asc). now rewrite N.
    + rewrite encodeValue_dict, (sortKeys_of_ascending _ Asc). now rewrite E.
  - exists []. repeat split.
  - intros b rest _ (v & R & N & E) _ (l & Rl & Nl & El).
    exists (v :: l). repeat split; simpl; try congruence.
    now rewrite R, Rl.
  - intros last. exists []. repeat split.
  - intros last ds k b rest C V S A _ (v & R & N & E) _ (m & Rm & Nm & Am & Em).
    exists ((k, v) :: m). split; [|split; [|split]].
    + simpl. now rewrite S, R, Rm.
    + unfold normEntries in *. simpl. now rewrite N, Nm.
    + simpl. auto.
    + unfold encodeEntries in *. simpl. unfold encodeEntry at 1. simpl.
      rewrite (encodeString_canon _ _ C V), E, Em.
      rewrite <- !app_assoc. reflexivity.
Qed.

Lemma DecodeBytes_encode v :
  representable v = true ->
  DecodeBytes intoInterface INil (encodeValue v) = Ok (IValue (norm v)).
Proof.
  intros R. unfold DecodeBytes, intoInterface, fuelFor.
  rewrite <- (app_nil_r (encodeValue v)) at 2.
  rewrite decodeInto_encode by (auto; lia). reflexivity.
Qed.

Lemma DecodeMap_encode m :
  representable (VDict m) = true ->
  DecodeMap (encodeValue (VDict m)) = Ok (normEntries (sortKeys m)).
Proof.
  intros R. unfold DecodeMap, DecodeBytes, fuelFor.
  rewrite encodeValue_dict. cbn [app intoMap].
  replace (Ascii.eqb "d" "i") with false by reflexivity.
  replace (isDigit "d") with false by reflexivity.
  replace (Ascii.eqb "d" "l") with false by reflexivity.
  replace (Ascii.eqb "d" "d") with true by reflexivity.
  cbn [representable] in R. apply andb_true_iff in R as [R1 R2].
  pose proof (sortKeys_perm m) as Pm.
  rewrite decodeDict_encode; auto.
  - rewrite Forall_forall. intros kv _. apply decodeInto_encode.
  - eapply forallb_perm; eauto.
  - unfold keys. eapply Permutation_NoDup.
    + apply Permutation_map, Pm.
    + now apply nodupb_NoDup.
  - simpl. rewrite length_app. simpl. lia.
Qed.

(** *** Equal values are values with the same entries *)

Lemma map_get_In {A} k (x : A) (l : gomap A) :
  NoDup (keys l) -> In (k, x) l -> map_get k l = Some x.
Proof.
  induction l as [|[k' y] t IH]; simpl; [tauto|].
  intros ND [E|I]; inversion ND as [|? ? N ND']; subst.
  - injection E as -> ->. now rewrite bytes_eqb_refl.
  - destruct (bytes_eqb k' k) eqn:Ek; [|auto].
    apply bytes_eqb_eq in Ek. subst k'. exfalso. apply N.
    change k with (fst (k, x)). now apply in_map.
Qed.

Lemma map_get_Some_In {A} k (x : A) (l : gomap A) :
  map_get k l = Some x -> In (k, x) l.
Proof.
  induction l as [|[k' y] t IH]; simpl; [discriminate|].
  destruct (bytes_eqb k' k) eqn:Ek; [|auto].
  apply bytes_eqb_eq in Ek. subst k'. intros [= ->]. now left.
Qed.

Lemma map_get_perm {A} k (l l' : gomap A) :
  Permutation l l' -> NoDup (keys l) -> map_get k l = map_get k l'.
Proof.
  intros Pm ND.
  assert (ND' : NoDup (keys l'))
    by (eapply Permutation_NoDup; [apply Permutation_map, Pm | exact ND]).
  destruct (map_get k l) as [x|] eqn:E.
  - symmetry. apply map_get_In; auto.
    eapply Permutation_in; [exact Pm|]. now apply map_get_Some_In.
  - destruct (map_get k l') as [x|] eqn:E'; auto.
    apply map_get_Some_In in E'.
    apply (Permutation_in _ (Permutation_sym Pm)) in E'.
    apply (@map_get_In _ _ _ _ ND) in E'. congruence.
Qed.

Lemma map_get_map {A B} (f : A -> B) k (l : gomap A) :
  map_get k (map (fun kv => (fst kv, f (snd kv))) l)
  = option_map f (map_get k l).
Proof.
  induction l as [|[k' y] t IH]; simpl; auto.
  destruct (bytes_eqb k' k); auto.
Qed.

Lemma ascending_strict {A} (l : gomap A) :
  ascending l -> NoDup (keys l) -> strictAsc None (keys l).
Proof.
  assert (G : forall last, ascending l -> NoDup (keys l) ->
              after last (hd [] (keys l)) = true \/ l = [] ->
              strictAsc last (keys l)).
  { induction l as [|[k x] t IH]; intros last; simpl; auto.
    intros [H1 H2] ND [Hl|Hl]; [|discriminate].
    inversion ND as [|? ? N ND']; subst.
    split; [exact Hl|]. apply IH; auto.
    destruct t as [|[k' y] t']; [now right|]. left. simpl in *.
    destruct (bytes_ltb k k') eqn:E; auto.
    exfalso. apply N. left. symmetry. now apply bytes_ltb_total. }
  intros H ND. apply G; auto.
Qed.

Lemma strictAsc_ext (l1 l2 : gomap value) :
  strictAsc None (keys l1) -> strictAsc None (keys l2) ->
  (forall k, map_get k l1 = map_get k l2) -> l1 = l2.
Proof.
  assert (G : forall last1 last2,
              strictAsc last1 (keys l1) -> strictAsc last2 (keys l2) ->
              (forall k, map_get k l1 = map_get k l2) -> l1 = l2).
  { revert l2. induction l1 as [|[k1 x1] t1 IH]; intros [|[k2 x2] t2] last1 last2;
      simpl; auto.
    - intros _ _ H. specialize (H k2). now rewrite bytes_eqb_refl in H.
    - intros _ _ H. specialize (H k1). now rewrite bytes_eqb_refl in H.
    - intros [_ S1] [_ S2] H.
      assert (k1 = k2).
      { apply bytes_ltb_total.
        - destruct (bytes_ltb k1 k2) eqn:E; auto.
          pose proof (H k1) as Hk. rewrite bytes_eqb_refl in Hk.
          destruct (bytes_eqb k2 k1) eqn:E2;
            [apply bytes_eqb_eq in E2; subst; now rewrite bytes_ltb_irrefl in E|].
          symmetry in Hk. apply map_get_Some_In in Hk.
          apply (in_map fst) in Hk. simpl in Hk.
          pose proof (strictAsc_above _ _ _ S2 Hk) as L.
          now rewrite (bytes_ltb_asym _ _ E) in L.
        - destruct (bytes_ltb k2 k1) eqn:E; auto.
          pose proof (H k2) as Hk. rewrite bytes_eqb_refl in Hk.
          destruct (bytes_eqb k1 k2) eqn:E2;
            [apply bytes_eqb_eq in E2; subst; now rewrite bytes_ltb_irrefl in E|].
          apply map_get_Some_In in Hk.
          apply (in_map fst) in Hk. simpl in Hk.
          pose proof (strictAsc_above _ _ _ S1 Hk) as L.
          now rewrite (bytes_ltb_asym _ _ E) in L. }
      subst k2. pose proof (H k1) as Hk. rewrite !bytes_eqb_refl in Hk.
      injection Hk as <-. f_equal.
      eapply IH; eauto. intros k. specialize (H k).
      destruct (bytes_eqb k1 k) eqn:E; auto.
      apply bytes_eqb_eq in E. subst k.
      assert (N1 : map_get k1 t1 = None).
      { apply map_get_None. intros I.
        pose proof (strictAsc_above _ _ _ S1 I) as L.
        now rewrite bytes_ltb_irrefl in L. }
      assert (N2 : map_get k1 t2 = None).
      { apply map_get_None. intros I.
        pose proof (strictAsc_above _ _ _ S2 I) as L.
        now rewrite bytes_ltb_irrefl in L. }
      congruence. }
  intros. eapply G; eauto.
Qed.

Lemma sortKeys_NoDup {A} (l : gomap A) : NoDup (keys l) -> NoDup (keys (sortKeys l)).
Proof.
  intros ND. eapply Permutation_NoDup; [|exact ND].
  apply Permutation_map, sortKeys_perm.
Qed.

Lemma normEntries_lookup k m :
  NoDup (keys m) ->
  map_get k (sortKeys (normEntries m)) = option_map norm (map_get k m).
Proof.
  intros ND. unfold normEntries.
  rewrite <- (@map_get_perm _ k _ _ (sortKeys_perm _)) by (now rewrite keys_map).
  apply map_get_map.
Qed.

(** On dictionaries with one entry per key, [veq] is the equality of the
    sets of key-value pairs. *)
Lemma veq_dict m1 m2 :
  NoDup (keys m1) -> NoDup (keys m2) ->
  (veq (VDict m1) (VDict m2) <-> sameEntries m1 m2).
Proof.
  intros ND1 ND2. unfold veq, sameEntries. simpl. split.
  - intros [= E] k.
    pose proof (@normEntries_lookup k _ ND1) as L1.
    pose proof (@normEntries_lookup k _ ND2) as L2.
    unfold normEntries in L1, L2. rewrite E, L2 in L1.
    unfold veq.
    destruct (map_get k m1), (map_get k m2); simpl in L1; try congruence; auto.
  - intros H. f_equal. apply strictAsc_ext.
    + apply ascending_strict; [apply sortKeys_ascending|].
      apply sortKeys_NoDup. now rewrite keys_map.
    + apply ascending_strict; [apply sortKeys_ascending|].
      apply sortKeys_NoDup. now rewrite keys_map.
    + intros k.
      pose proof (@normEntries_lookup k _ ND1) as L1.
      pose proof (@normEntries_lookup k _ ND2) as L2.
      unfold normEntries in L1, L2. rewrite L1, L2.
      specialize (H k).
      destruct (map_get k m1), (map_get k m2); simpl; try tauto.
      now f_equal.
Qed.

End CodecFacts.

(** * Checks

    The test vectors of SHA-1, the codec on a small dictionary, and the
    info hash of the specification's minimal torrent against a digest
    computed apart. *)

Example sha1_of_nothing :
  Hex.EncodeToString (SHA1.Sum [])
  = str "da39a3ee5e6b4b0d3255bfef95601890afd80709".
Proof. vm_compute. reflexivity. Qed.

Example sha1_of_abc :
  Hex.EncodeToString (SHA1.Sum (str "abc"))
  = str "a9993e364706816aba3e25717850c26c9cd0d89d".
Proof. vm_compute. reflexivity. Qed.

Example sha1_of_two_blocks :
  Hex.EncodeToString
    (SHA1.Sum (str "abcdbcdecdefdefgefghfghighijhijkijkljklmklmnlmnomnopnopq"))
  = str "84983e441c3bd26ebaae4aa1f95129e5e54670f1".
Proof. vm_compute. reflexivity. Qed.

Example decode_small :
  Tags.DecodeMap (str "d3:fooi42e3:barl1:a2:bcee")
  = Ok [(str "foo", VInt 42);
        (str "bar", VList [VString (str "a"); VString (str "bc")])].
Proof. vm_compute. reflexivity. Qed.

Example encode_small :
  Bencode.encodeValue
    (VDict [(str "foo", VInt 42);
            (str "bar", VList [VString (str "a"); VString (str "bc")])])
  = str "d3:barl1:a2:bce3:fooi42ee".
Proof. vm_compute. reflexivity. Qed.

Example decode_lenient :
  Tags.DecodeMap (str "d1:ai007e03:abci-0eetrailing")
  = Ok [(str "a", VInt 7); (str "abc", VInt 0)].
Proof. vm_compute. reflexivity. Qed.

Example infoHash_of_torrentA :
  calculateInfoHash (exactly torrentA)
  = Ok (str "ab58ac98894a72e12af48d0bedcb60830f7356af").
Proof. vm_compute. reflexivity. Qed.

(** * The claims *)

Import Spec CodecFacts.

(** ** C3: the codec *)

(** C3: decoding the encoding of a representable value gives an
    observationally equal value (for a dictionary also through the
    decoding into a map that [calculateInfoHash] uses), where two
    dictionaries are equal when they hold the same key-value pairs; and
    encoding the decoding of a canonical byte string gives the byte
    string back. *)
Theorem codec_roundtrip :
  (forall v, representable v = true ->
     exists b v',
       EncodeBytes v = Ok b /\
       DecodeBytes intoInterface INil b = Ok (IValue v') /\ veq v' v) /\
  (forall m, representable (VDict m) = true ->
     exists b m',
       EncodeBytes (VDict m) = Ok b /\
       DecodeMap b = Ok m' /\ veq (VDict m') (VDict m)) /\
  (forall m1 m2, NoDup (keys m1) -> NoDup (keys m2) ->
     (veq (VDict m1) (VDict m2) <-> sameEntries m1 m2)) /\
  (forall b, Canonical b ->
     exists v,
       DecodeBytes intoInterface INil b = Ok (IValue v) /\
       EncodeBytes v = Ok b).
Proof.
  split; [|split; [|split]].
  - intros v R. exists (encodeValue v), (norm v).
    split; [reflexivity|]. split; [now apply DecodeBytes_encode|].
    apply veq_norm.
  - intros m R. exists (encodeValue (VDict m)), (normEntries (sortKeys m)).
    split; [reflexivity|]. split; [now apply DecodeMap_encode|].
    rewrite <- norm_dict. apply veq_norm.
  - apply veq_dict.
  - intros b C. apply canonical_encoding in C as (v & R & N & E).
    exists v. subst b. split; [|reflexivity].
    rewrite DecodeBytes_encode by assumption. now rewrite N.
Qed.

(** The round trip on a two-entry dictionary and on its canonical
    encoding. *)
Lemma codec_roundtrip_witness :
  (exists b v',
     EncodeBytes (VDict [(str "b", VInt (-3)); (str "a", VList [VString (str "x")])])
     = Ok b /\
     DecodeBytes intoInterface INil b = Ok (IValue v') /\
     veq v' (VDict [(str "b", VInt (-3)); (str "a", VList [VString (str "x")])])) /\
  (exists v,
     DecodeBytes intoInterface INil (str "d1:ali-3e1:xe1:b0:e") = Ok (IValue v) /\
     EncodeBytes v = Ok (str "d1:ali-3e1:xe1:b0:e")).
Proof.
  split.
  - apply (proj1 codec_roundtrip). reflexivity.
  - apply (proj2 (proj2 (proj2 codec_roundtrip))).
    apply (CanonDict (pairs := str "1:ali-3e1:xe1:b0:")).
    apply (@CanonPairsCons None (str "1") (str "a") (str "li-3e1:xe") (str "1:b0:"));
      try reflexivity.
    + apply (CanonList (items := str "i-3e1:x")).
      apply (@CanonItemsCons (str "i-3e") (str "1:x")).
      * apply (@CanonNeg (str "3")); [reflexivity | vm_compute; split; congruence].
      * apply (@CanonItemsCons (str "1:x") []).
        -- apply (@CanonString (str "1") (str "x")); reflexivity.
        -- apply CanonItemsNil.
    + apply (@CanonPairsCons (Some (str "a")) (str "1") (str "b") (str "0:") []);
        try reflexivity.
      * apply (@CanonString (str "0") []); reflexivity.
      * apply CanonPairsNil.
Defined.

(** ** Building a record *)

Section ParseFacts.

Variables (w : World) (now : Time) (filePath : bytes).
Variables (data : byteSlice) (metaInfo : TorrentMetaInfo).
Hypothesis Hread : ReadFile w filePath = Some data.
Hypothesis Hmeta : DecodeTorrentMetaInfo (contents data) = Ok metaInfo.

(** The record [parseTorrentFile] returns once it has its info hash. *)
Lemma parseTorrentFile_with infoHash :
  (calculateInfoHash data = Ok infoHash \/
   exists e prefix, calculateInfoHash data = Err e /\
     sliceTo data 20 = Ok prefix /\ infoHash = Hex.EncodeToString prefix) ->
  parseTorrentFile w now filePath
  = Ok {| TorrentInfo_Name := InfoDict_Name (Info metaInfo);
          TorrentInfo_InfoHash := infoHash;
          TorrentInfo_Size := fst (sizeAndFiles (Info metaInfo));
          TorrentInfo_Files := snd (sizeAndFiles (Info metaInfo));
          TorrentInfo_WebSeeds := extractWebSeeds (URLList metaInfo);
          TorrentInfo_CreatedBy := CreatedBy metaInfo;
          TorrentInfo_CreatedDate :=
            if (0 <? CreationDate metaInfo)%Z
            then Unix (CreationDate metaInfo) 0 else now;
          TorrentInfo_Comment := Comment metaInfo;
          TorrentInfo_FilePath := filePath |}.
Proof.
  intros H. unfold parseTorrentFile. rewrite Hread, Hmeta.
  destruct (sizeAndFiles (Info metaInfo)) as [totalSize files].
  destruct H as [->|(e & prefix & -> & -> & ->)]; reflexivity.
Qed.

Lemma parseTorrentFile_inv rec :
  parseTorrentFile w now filePath = Ok rec ->
  (calculateInfoHash data = Ok (TorrentInfo_InfoHash rec) \/
   exists e prefix, calculateInfoHash data = Err e /\
     sliceTo data 20 = Ok prefix /\
     TorrentInfo_InfoHash rec = Hex.EncodeToString prefix) /\
  TorrentInfo_Size rec = fst (sizeAndFiles (Info metaInfo)) /\
  TorrentInfo_Files rec = snd (sizeAndFiles (Info metaInfo)) /\
  TorrentInfo_WebSeeds rec = extractWebSeeds (URLList metaInfo) /\
  TorrentInfo_CreatedDate rec =
    (if (0 <? CreationDate metaInfo)%Z
     then Unix (CreationDate metaInfo) 0 else now).
Proof.
  unfold parseTorrentFile. rewrite Hread, Hmeta.
  destruct (sizeAndFiles (Info metaInfo)) as [totalSize files].
  destruct (calculateInfoHash data) as [h|e| |] eqn:E; simpl; try discriminate.
  - intros [= <-]. simpl. auto 6.
  - destruct (sliceTo data 20) as [prefix| | |] eqn:S; simpl; try discriminate.
    intros [= <-]. simpl. repeat split; auto. right. eauto.
Qed.

End ParseFacts.

Lemma parseTorrentFile_Ok w now filePath rec :
  parseTorrentFile w now filePath = Ok rec ->
  exists data metaInfo,
    ReadFile w filePath = Some data /\
    DecodeTorrentMetaInfo (contents data) = Ok metaInfo.
Proof.
  unfold parseTorrentFile.
  destruct (ReadFile w filePath) as [data|]; try discriminate.
  destruct (DecodeTorrentMetaInfo (contents data)) as [m| | |] eqn:E;
    try discriminate.
  intros _. exists data, m. auto.
Qed.

Lemma calculateInfoHash_Ok data torrent info :
  DecodeMap (contents data) = Ok torrent ->
  map_get (str "info") torrent = Some info ->
  calculateInfoHash data
  = Ok (Hex.EncodeToString (SHA1.Sum (encodeValue info))).
Proof.
  intros D G. unfold calculateInfoHash. rewrite D.
  cbv beta iota delta [bind]. now rewrite G.
Qed.

(** ** C1: the info hash *)

Lemma bigEndian_length n x : length (SHA1.bigEndian n x) = n.
Proof.
  revert x. induction n as [|n IH]; intros x; simpl; auto.
  rewrite length_app, IH. simpl. lia.
Qed.

Lemma Sum_length d : length (SHA1.Sum d) = 20.
Proof.
  unfold SHA1.Sum.
  destruct (fold_left SHA1.compress _ SHA1.init) as [[[[h0 h1] h2] h3] h4].
  rewrite length_map, !length_app, !bigEndian_length. reflexivity.
Qed.

Lemma EncodeToString_length bs :
  length (Hex.EncodeToString bs) = 2 * length bs.
Proof.
  unfold Hex.EncodeToString.
  induction bs as [|c bs IH]; cbn [flat_map app length]; [reflexivity|].
  rewrite IH. lia.
Qed.

Lemma hexDigit_lowercase n : n < 16 -> In (Hex.hexDigit n) hexDigits.
Proof. intros H. unfold Hex.hexDigit. now apply nth_In. Qed.

Lemma EncodeToString_lowercase bs :
  Forall (fun c => In c hexDigits) (Hex.EncodeToString bs).
Proof.
  unfold Hex.EncodeToString.
  induction bs as [|c bs IH]; cbn [flat_map app]; [constructor|].
  pose proof (code_lt_256 c).
  constructor; [|constructor; [|exact IH]]; apply hexDigit_lowercase.
  - apply Nat.Div0.div_lt_upper_bound. lia.
  - apply Nat.mod_upper_bound. lia.
Qed.

(** C1: when the file decodes and its top-level dictionary has an
    [info] entry, the record is built and its infoHash is the 40
    lowercase hexadecimal digits of the SHA-1 of the encoding of the
    [info] value; that encoding lists a dictionary's entries in key
    order; so two files whose [info] values are equal as key-value sets
    get the same infoHash. *)
Theorem infoHash_canonical :
  (forall w now filePath data metaInfo torrent info,
     ReadFile w filePath = Some data ->
     DecodeTorrentMetaInfo (contents data) = Ok metaInfo ->
     DecodeMap (contents data) = Ok torrent ->
     map_get (str "info") torrent = Some info ->
     exists rec,
       parseTorrentFile w now filePath = Ok rec /\
       TorrentInfo_InfoHash rec
       = Hex.EncodeToString (SHA1.Sum (encodeValue info)) /\
       length (TorrentInfo_InfoHash rec) = 40 /\
       Forall (fun c => In c hexDigits) (TorrentInfo_InfoHash rec)) /\
  (forall m,
     encodeValue (VDict m)
     = "d"%char :: encodeEntries (sortKeys m) ++ ["e"%char] /\
     ascending (sortKeys m)) /\
  (forall w1 now1 path1 data1 torrent1 info1 rec1
          w2 now2 path2 data2 torrent2 info2 rec2,
     ReadFile w1 path1 = Some data1 ->
     DecodeMap (contents data1) = Ok torrent1 ->
     map_get (str "info") torrent1 = Some info1 ->
     parseTorrentFile w1 now1 path1 = Ok rec1 ->
     ReadFile w2 path2 = Some data2 ->
     DecodeMap (contents data2) = Ok torrent2 ->
     map_get (str "info") torrent2 = Some info2 ->
     parseTorrentFile w2 now2 path2 = Ok rec2 ->
     veq info1 info2 ->
     TorrentInfo_InfoHash rec1 = TorrentInfo_InfoHash rec2).
Proof.
  split; [|split].
  - intros w now filePath data metaInfo torrent info R M D G.
    eexists. split.
    + apply (@parseTorrentFile_with w now filePath data metaInfo R M). left.
      eapply calculateInfoHash_Ok; eauto.
    + simpl. split; [reflexivity|]. split.
      * now rewrite EncodeToString_length, Sum_length.
      * apply EncodeToString_lowercase.
  - intros m. split; [apply encodeValue_dict | apply sortKeys_ascending].
  - intros w1 now1 path1 data1 torrent1 info1 rec1
           w2 now2 path2 data2 torrent2 info2 rec2
           R1 D1 G1 P1 R2 D2 G2 P2 E.
    destruct (@parseTorrentFile_Ok _ _ _ _ P1) as (d1 & m1 & R1' & M1).
    destruct (@parseTorrentFile_Ok _ _ _ _ P2) as (d2 & m2 & R2' & M2).
    assert (d1 = data1) by congruence. assert (d2 = data2) by congruence.
    subst d1 d2.
    destruct (@parseTorrentFile_inv _ _ _ _ _ R1 M1 _ P1) as [[H1|(e & p & H1 & _)] _];
      rewrite (@calculateInfoHash_Ok _ _ _ D1 G1) in H1; [|discriminate].
    destruct (@parseTorrentFile_inv _ _ _ _ _ R2 M2 _ P2) as [[H2|(e & p & H2 & _)] _];
      rewrite (@calculateInfoHash_Ok _ _ _ D2 G2) in H2; [|discriminate].
    injection H1 as <-. injection H2 as <-.
    now rewrite (@veq_encode _ _ E).
Qed.

(** The specification's minimal torrent, and the same torrent with its
    keys in another order: one info hash, the digest computed apart. *)
Lemma infoHash_canonical_witness :
  exists recA recB,
    parseTorrentFile (oneFile (exactly torrentA)) (Unix 1 0) aPath = Ok recA /\
    parseTorrentFile (oneFile (exactly torrentB)) (Unix 2 0) aPath = Ok recB /\
    TorrentInfo_InfoHash recA
    = str "ab58ac98894a72e12af48d0bedcb60830f7356af" /\
    TorrentInfo_InfoHash recA = TorrentInfo_InfoHash recB.
Proof.
  eexists. eexists.
  split; [vm_compute; reflexivity|].
  split; [vm_compute; reflexivity|].
  split; [vm_compute; reflexivity|].
  eapply (proj2 (proj2 infoHash_canonical)
            (oneFile (exactly torrentA)) (Unix 1 0) aPath _ _ _ _
            (oneFile (exactly torrentB)) (Unix 2 0) aPath).
  - vm_compute; reflexivity.
  - vm_compute; reflexivity.
  - vm_compute; reflexivity.
  - vm_compute; reflexivity.
  - vm_compute; reflexivity.
  - vm_compute; reflexivity.
  - vm_compute; reflexivity.
  - vm_compute; reflexivity.
  - vm_compute; reflexivity.
Defined.

(** ** C2: the fallback *)

Lemma calculateInfoHash_fails data metaInfo e :
  DecodeTorrentMetaInfo (contents data) = Ok metaInfo ->
  calculateInfoHash data = Err e ->
  e = ErrNoInfo /\
  exists torrent,
    DecodeMap (contents data) = Ok torrent /\
    map_get (str "info") torrent = None.
Proof.
  intros M. destruct (@DecoderFacts.DecodeMap_of_struct _ _ M) as [torrent D].
  unfold calculateInfoHash. rewrite D. cbv beta iota delta [bind].
  destruct (map_get (str "info") torrent) eqn:G; [discriminate|].
  intros [= <-]. eauto.
Qed.

(** C2 (as the code has it): when info-hash computation fails for a file
    that decodes into the metadata struct (which it does only for want
    of an [info] entry) and the file holds at least 20 bytes, the record
    is built, with the hexadecimal form of the file's first 20 bytes as
    its infoHash; building a record returns an error only when the file
    cannot be read or does not decode into the struct. *)
Theorem fallback_on_failure :
  (forall w now filePath data metaInfo e,
     ReadFile w filePath = Some data ->
     DecodeTorrentMetaInfo (contents data) = Ok metaInfo ->
     calculateInfoHash data = Err e ->
     20 <= len data -> len data <= cap data ->
     exists rec,
       parseTorrentFile w now filePath = Ok rec /\
       TorrentInfo_InfoHash rec
       = Hex.EncodeToString (firstn 20 (contents data))) /\
  (forall data metaInfo e,
     DecodeTorrentMetaInfo (contents data) = Ok metaInfo ->
     calculateInfoHash data = Err e ->
     e = ErrNoInfo /\
     exists torrent,
       DecodeMap (contents data) = Ok torrent /\
       map_get (str "info") torrent = None) /\
  (forall w now filePath e,
     parseTorrentFile w now filePath = Err e ->
     ReadFile w filePath = None \/
     (exists data e', ReadFile w filePath = Some data /\
        DecodeTorrentMetaInfo (contents data) = Err e')).
Proof.
  split; [|split].
  - intros w now filePath data metaInfo e R M C L1 L2.
    eexists. split.
    + apply (@parseTorrentFile_with w now filePath data metaInfo R M).
      right. exists e, (firstn 20 (array data)). split; [exact C|].
      split; [|reflexivity]. unfold sliceTo.
      destruct (Nat.leb_spec 20 (cap data)); [reflexivity|lia].
    + cbn [TorrentInfo_InfoHash]. unfold contents.
      now rewrite firstn_firstn, Nat.min_l by lia.
  - apply calculateInfoHash_fails.
  - intros w now filePath e. unfold parseTorrentFile.
    destruct (ReadFile w filePath) as [data|]; [|intros _; now left].
    destruct (DecodeTorrentMetaInfo (contents data)) as [m|e1| |] eqn:D;
      try discriminate; [|intros _; right; eauto].
    destruct (sizeAndFiles (Info m)) as [totalSize files].
    destruct (calculateInfoHash data) as [h|e1| |]; simpl; try discriminate.
    unfold sliceTo. destruct (20 <=? cap data); simpl; discriminate.
Qed.

(** [noInfoFile] has no [info] entry and 38 bytes. *)
Lemma fallback_on_failure_witness :
  exists rec,
    parseTorrentFile (oneFile (exactly noInfoFile)) (Unix 0 0) aPath = Ok rec /\
    TorrentInfo_InfoHash rec
    = Hex.EncodeToString (firstn 20 (contents (exactly noInfoFile))).
Proof.
  eapply (proj1 fallback_on_failure (oneFile (exactly noInfoFile))
            (Unix 0 0) aPath (exactly noInfoFile)).
  - vm_compute; reflexivity.
  - vm_compute; reflexivity.
  - vm_compute; reflexivity.
  - vm_compute. lia.
  - vm_compute. lia.
Defined.

(** C2 (as stated) fails: the info-hash computation of [noInfoFile]
    fails, yet its record is built, with a value put in place of the
    info hash, and the scan keeps it in the catalog. *)
Lemma fallback_keeps_file :
  exists rec,
    calculateInfoHash (exactly noInfoFile) = Err ErrNoInfo /\
    parseTorrentFile (oneFile (exactly noInfoFile)) (Unix 0 0) aPath = Ok rec /\
    TorrentInfo_InfoHash rec
    = str "64383a616e6e6f756e6365313a78373a636f6d6d" /\
    LoadTorrents (oneFile (exactly noInfoFile)) (NewTorrentManager (str "./torrents"))
    = (Ok tt, {| torrentsDir := str "./torrents"; torrents := [rec] |}).
Proof.
  eexists. split; [vm_compute; reflexivity|].
  split; [vm_compute; reflexivity|].
  split; vm_compute; reflexivity.
Qed.

(** ** C10: a file shorter than the fallback's 20 bytes *)

(** C10 (fails): on the two-byte file [de] the metadata decode succeeds
    and the info-hash computation fails; the fallback's [data[:20]] then
    panics when the buffer's capacity is below 20, and otherwise reads
    the 18 bytes that lie past the end of the file in the buffer: the
    infoHash changes with them. *)
Theorem short_file_fallback :
  DecodeTorrentMetaInfo (str "de") = Ok zeroTorrentMetaInfo /\
  calculateInfoHash (exactly (str "de")) = Err ErrNoInfo /\
  parseTorrentFile (oneFile (exactly (str "de"))) (Unix 0 0) aPath = Panic /\
  (forall spare,
     exists rec,
       parseTorrentFile
         (oneFile (buffered (str "de") (spare ++ repeat zero 18)))
         (Unix 0 0) aPath = Ok rec /\
       TorrentInfo_InfoHash rec
       = str "6465" ++ Hex.EncodeToString (firstn 18 (spare ++ repeat zero 18))).
Proof.
  split; [vm_compute; reflexivity|].
  split; [vm_compute; reflexivity|].
  split; [vm_compute; reflexivity|].
  intros spare. eexists. split.
  - apply (@parseTorrentFile_with _ (Unix 0 0) aPath
             (buffered (str "de") (spare ++ repeat zero 18))
             zeroTorrentMetaInfo).
    + vm_compute; reflexivity.
    + vm_compute; reflexivity.
    + right. exists ErrNoInfo. eexists. split; [vm_compute; reflexivity|].
      split; [|reflexivity]. unfold sliceTo, cap, buffered. cbn [array].
      rewrite !length_app, repeat_length.
      destruct (Nat.leb_spec 20 (length (str "de") + (length spare + 18)));
        [reflexivity|simpl in *; lia].
  - reflexivity.
Qed.

(** ** C5: size and files *)

Lemma wrap64_add a b : wrap64 (wrap64 a + b) = wrap64 (a + b).
Proof.
  unfold wrap64. f_equal.
  replace ((a + 2 ^ 63) mod 2 ^ 64 - 2 ^ 63 + b + 2 ^ 63)%Z
    with ((a + 2 ^ 63) mod 2 ^ 64 + b)%Z by lia.
  rewrite Zplus_mod_idemp_l. f_equal. lia.
Qed.

Lemma wrap64_small z : (- 2 ^ 63 <= z < 2 ^ 63)%Z -> wrap64 z = z.
Proof. intros H. unfold wrap64. rewrite Z.mod_small; lia. Qed.

Lemma totalLength_app fs gs :
  totalLength (fs ++ gs) = (totalLength fs + totalLength gs)%Z.
Proof.
  unfold totalLength. induction fs as [|f fs IH]; simpl; auto.
  rewrite IH. lia.
Qed.

(** The loop of lines 202-208, from any point of its run. *)
Lemma multiFile_loop l t fs :
  fold_left
    (fun (acc : Z * list File) (file : FileDict) =>
       let (totalSize, files) := acc in
       (wrap64 (totalSize + FileDict_Length file),
        files ++ [ {| File_Path := FileDict_Path file;
                      File_Length := FileDict_Length file |} ]))
    l (t, fs)
  = (match l with
     | [] => t
     | _ => wrap64 (t + totalLength (map toFile l))
     end,
     fs ++ map toFile l).
Proof.
  revert t fs. induction l as [|x l IH]; intros t fs.
  - simpl. now rewrite app_nil_r.
  - cbn [fold_left]. rewrite IH. f_equal.
    + destruct l as [|y l'].
      * unfold totalLength. simpl. f_equal. lia.
      * rewrite wrap64_add. f_equal.
        change (map toFile (x :: y :: l')) with ([toFile x] ++ map toFile (y :: l')).
        rewrite totalLength_app. unfold totalLength at 2. simpl. lia.
    + rewrite <- app_assoc. reflexivity.
Qed.

Lemma sizeAndFiles_multi info :
  (InfoDict_Length info <= 0)%Z ->
  sizeAndFiles info
  = (wrap64 (totalLength (map toFile (InfoDict_Files info))),
     map toFile (InfoDict_Files info)).
Proof.
  intros H. unfold sizeAndFiles.
  destruct (Z.ltb_spec 0 (InfoDict_Length info)); [lia|].
  rewrite multiFile_loop. f_equal.
  destruct (InfoDict_Files info); [reflexivity|].
  f_equal.
Qed.

(** C5 (as the code has it): with a positive [length] in the decoded
    info dictionary the record holds exactly one File, made of the name
    and that length; otherwise (no [length], or one that is zero or
    negative) its Files are those of the [files] list, in order; either
    way totalSize is the sum of the Files' lengths as an int64, which is
    their sum whenever that fits. *)
Theorem size_and_files :
  forall w now filePath data metaInfo rec,
    ReadFile w filePath = Some data ->
    DecodeTorrentMetaInfo (contents data) = Ok metaInfo ->
    parseTorrentFile w now filePath = Ok rec ->
    ((0 < InfoDict_Length (Info metaInfo))%Z ->
       TorrentInfo_Files rec
       = [ {| File_Path := [InfoDict_Name (Info metaInfo)];
              File_Length := InfoDict_Length (Info metaInfo) |} ] /\
       TorrentInfo_Size rec = totalLength (TorrentInfo_Files rec)) /\
    ((InfoDict_Length (Info metaInfo) <= 0)%Z ->
       TorrentInfo_Files rec = map toFile (InfoDict_Files (Info metaInfo)) /\
       TorrentInfo_Size rec = wrap64 (totalLength (TorrentInfo_Files rec))) /\
    ((- 2 ^ 63 <= totalLength (TorrentInfo_Files rec) < 2 ^ 63)%Z ->
       TorrentInfo_Size rec = totalLength (TorrentInfo_Files rec)).
Proof.
  intros w now filePath data metaInfo rec R M P.
  destruct (@parseTorrentFile_inv _ _ _ _ _ R M _ P) as (_ & S & F & _).
  assert (H1 : (0 < InfoDict_Length (Info metaInfo))%Z ->
               sizeAndFiles (Info metaInfo)
               = (InfoDict_Length (Info metaInfo),
                  [ {| File_Path := [InfoDict_Name (Info metaInfo)];
                       File_Length := InfoDict_Length (Info metaInfo) |} ])).
  { intros L. unfold sizeAndFiles.
    destruct (Z.ltb_spec 0 (InfoDict_Length (Info metaInfo))); [reflexivity|lia]. }
  rewrite S, F. split; [|split].
  - intros L. rewrite (H1 L). cbn [fst snd]. split; [reflexivity|].
    unfold totalLength. cbn [map fold_right File_Length]. lia.
  - intros L. now rewrite sizeAndFiles_multi by assumption.
  - destruct (Z.ltb_spec 0 (InfoDict_Length (Info metaInfo))) as [L|L].
    + intros _. rewrite (H1 L). cbn [fst snd].
      unfold totalLength. cbn [map fold_right File_Length]. lia.
    + rewrite sizeAndFiles_multi by assumption. cbn [fst snd].
      intros Hr. now apply wrap64_small.
Qed.

(** The multi-file torrent of the specification: lengths 3 and 7. *)
Lemma size_and_files_witness :
  exists rec,
    parseTorrentFile (oneFile (exactly multiFile)) (Unix 0 0) aPath = Ok rec /\
    TorrentInfo_Files rec
    = [ {| File_Path := [str "a"]; File_Length := 3 |};
        {| File_Path := [str "b"]; File_Length := 7 |} ] /\
    TorrentInfo_Size rec = 10%Z.
Proof.
  eexists. split; [vm_compute; reflexivity|].
  pose proof (@size_and_files (oneFile (exactly multiFile)) (Unix 0 0) aPath
                (exactly multiFile) _ _
                ltac:(vm_compute; reflexivity)
                ltac:(vm_compute; reflexivity)
                ltac:(vm_compute; reflexivity)) as (_ & H2 & H3).
  split.
  - exact (proj1 (H2 ltac:(vm_compute; discriminate))).
  - refine (eq_trans (H3 _) _); vm_compute; [split; congruence | reflexivity].
Defined.

(** C5 (as stated) fails: the info dictionary of [emptyFile] contains a
    top-level [length] integer, and its record holds no File. *)
Lemma zero_length_has_no_file :
  exists torrent info rec,
    DecodeMap emptyFile = Ok torrent /\
    map_get (str "info") torrent = Some (VDict info) /\
    map_get (str "length") info = Some (VInt 0) /\
    parseTorrentFile (oneFile (exactly emptyFile)) (Unix 0 0) aPath = Ok rec /\
    TorrentInfo_Files rec = [].
Proof.
  do 3 eexists.
  split; [vm_compute; reflexivity|].
  split; [vm_compute; reflexivity|].
  split; [vm_compute; reflexivity|].
  split; vm_compute; reflexivity.
Qed.

(** ** C6: web seeds *)

Lemma webSeeds_loop l acc :
  fold_left
    (fun webSeeds url =>
       match url with
       | VString urlStr => webSeeds ++ [urlStr]
       | _ => webSeeds
       end)
    l acc
  = acc ++ stringsOf l.
Proof.
  revert acc. induction l as [|v l IH]; intros acc; simpl.
  - now rewrite app_nil_r.
  - rewrite IH. destruct v; simpl; auto. now rewrite <- app_assoc.
Qed.



(** ** C8: the creation date *)

(** C8 (as the code has it): when the file's dictionary has a positive
    [creation date], the record's createdDate is that Unix time,
    whatever the clock says; when the entry is absent, or not positive,
    createdDate is what the clock said while the file was parsed. *)
Theorem createdDate_from_file_or_clock :
  forall w now filePath data torrent rec,
    ReadFile w filePath = Some data ->
    DecodeMap (contents data) = Ok torrent ->
    parseTorrentFile w now filePath = Ok rec ->
    (forall n, map_get (str "creation date") torrent = Some (VInt n) ->
       (0 < n)%Z -> TorrentInfo_CreatedDate rec = Unix n 0) /\
    (forall n, map_get (str "creation date") torrent = Some (VInt n) ->
       (n <= 0)%Z -> TorrentInfo_CreatedDate rec = now) /\
    (map_get (str "creation date") torrent = None ->
       TorrentInfo_CreatedDate rec = now).
Proof.
  intros w now filePath data torrent rec R D P.
  destruct (@parseTorrentFile_Ok _ _ _ _ P) as (data' & metaInfo & R' & M).
  assert (data' = data) by congruence. subst data'.
  destruct (@parseTorrentFile_inv _ _ _ _ _ R M _ P) as (_ & _ & _ & _ & C).
  pose proof (@DecoderFacts.CreationDate_entry _ _ _ M D) as E.
  rewrite C. split; [|split].
  - intros n G L. rewrite G in E. injection E as <-.
    destruct (Z.ltb_spec 0 n); [reflexivity|lia].
  - intros n G L. rewrite G in E. injection E as <-.
    destruct (Z.ltb_spec 0 n); [lia|reflexivity].
  - intros G. rewrite G in E. simpl in E. rewrite E. reflexivity.
Qed.

(** A file dated 1700000000, parsed at another time. *)
Lemma createdDate_from_file_or_clock_witness :
  exists rec,
    parseTorrentFile (oneFile (exactly datedFile)) (Unix 42 7) aPath = Ok rec /\
    TorrentInfo_CreatedDate rec = Unix 1700000000 0.
Proof.
  eexists. split; [vm_compute; reflexivity|].
  refine (proj1 (@createdDate_from_file_or_clock
                   (oneFile (exactly datedFile)) (Unix 42 7) aPath
                   (exactly datedFile) _ _ _ _ _) 1700000000%Z _ _);
    vm_compute; reflexivity.
Defined.

(** C8 (as stated) fails: the dictionary of [torrentA] has no
    [creation date]; scanned at two moments, its two records carry the
    two moments as their createdDate. *)
Lemma createdDate_follows_clock :
  exists torrent rec1 rec2,
    DecodeMap torrentA = Ok torrent /\
    map_get (str "creation date") torrent = None /\
    parseTorrentFile (oneFile (exactly torrentA)) (Unix 1000 0) aPath = Ok rec1 /\
    parseTorrentFile (oneFile (exactly torrentA)) (Unix 2000 0) aPath = Ok rec2 /\
    TorrentInfo_CreatedDate rec1 = Unix 1000 0 /\
    TorrentInfo_CreatedDate rec2 = Unix 2000 0 /\
    TorrentInfo_CreatedDate rec1 <> TorrentInfo_CreatedDate rec2.
Proof.
  do 3 eexists.
  split; [vm_compute; reflexivity|].
  split; [vm_compute; reflexivity|].
  split; [vm_compute; reflexivity|].
  split; [vm_compute; reflexivity|].
  split; [vm_compute; reflexivity|].
  split; [vm_compute; reflexivity|].
  vm_compute. discriminate.
Qed.

(** ** C7: search *)

Lemma HasPrefix_spec s p :
  Strings.HasPrefix s p = true <-> exists post, s = p ++ post.
Proof.
  revert s. induction p as [|c p IH]; intros s; simpl.
  - destruct s; simpl; split; eauto.
  - destruct s as [|d s]; simpl.
    + split; [discriminate|]. intros [post H]. discriminate.
    + rewrite andb_true_iff, Ascii.eqb_eq, IH. split.
      * intros [-> [post ->]]. eauto.
      * intros [post [= -> ->]]. eauto.
Qed.

Lemma Contains_spec s sub :
  Strings.Contains s sub = true <-> exists pre post, s = pre ++ sub ++ post.
Proof.
  split.
  - induction s as [|c s IH]; cbn [Strings.Contains]; rewrite orb_true_iff.
    + intros [H|H]; [|discriminate].
      apply HasPrefix_spec in H as [post ->]. exists [], post. reflexivity.
    + intros [H|H].
      * apply HasPrefix_spec in H as [post ->]. exists [], post. reflexivity.
      * destruct (IH H) as (pre & post & ->). exists (c :: pre), post. reflexivity.
  - intros (pre & post & ->). induction pre as [|c pre IH].
    + assert (H : Strings.HasPrefix (sub ++ post) sub = true)
        by (apply HasPrefix_spec; eauto).
      cbn [app]. destruct (sub ++ post); cbn [Strings.Contains]; now rewrite H.
    + cbn [app Strings.Contains]. rewrite IH. apply orb_true_r.
Qed.

Lemma search_loop (p : TorrentInfo -> bool) l acc :
  fold_left (fun results torrent => if p torrent then results ++ [torrent] else results)
            l acc
  = acc ++ filter p l.
Proof.
  revert acc. induction l as [|t l IH]; intros acc; simpl.
  - now rewrite app_nil_r.
  - rewrite IH. destruct (p t); auto. now rewrite <- app_assoc.
Qed.

(** C7: the empty term gives every record, in catalog order; any other
    term gives, in catalog order, exactly the records whose name contains
    it, letter case set aside. *)
Theorem search_by_name :
  (forall w tm, SearchTorrents w tm [] = torrents tm) /\
  (forall w tm query, query <> [] ->
     exists p,
       (forall torrent,
          p torrent = true <-> containsFold w (TorrentInfo_Name torrent) query) /\
       SearchTorrents w tm query = filter p (torrents tm)).
Proof.
  split; [reflexivity|].
  intros w tm query N.
  exists (fun torrent =>
            Strings.Contains (ToLower w (TorrentInfo_Name torrent)) (ToLower w query)).
  split.
  - intros torrent. apply Contains_spec.
  - destruct query as [|c q]; [congruence|].
    unfold SearchTorrents. apply search_loop.
Qed.

(** The searches of the specification on a shelf of three records. *)
Lemma search_by_name_witness :
  SearchTorrents (oneFile (exactly [])) shelf (str "movie")
  = [named "Movie.2023"; named "HOME MOVIES"] /\
  SearchTorrents (oneFile (exactly [])) shelf (str "2023") = [named "Movie.2023"] /\
  SearchTorrents (oneFile (exactly [])) shelf (str "xyz") = [] /\
  exists p,
    (forall torrent,
       p torrent = true <->
       containsFold (oneFile (exactly [])) (TorrentInfo_Name torrent) (str "movie")) /\
    SearchTorrents (oneFile (exactly [])) shelf (str "movie")
    = filter p (torrents shelf).
Proof.
  split; [vm_compute; reflexivity|].
  split; [vm_compute; reflexivity|].
  split; [vm_compute; reflexivity|].
  apply (proj2 search_by_name (oneFile (exactly [])) shelf (str "movie")).
  vm_compute. discriminate.
Defined.

(** ** C4: the scan *)

Lemma calculateInfoHash_returns data :
  (exists h, calculateInfoHash data = Ok h) \/
  (exists e, calculateInfoHash data = Err e).
Proof.
  unfold calculateInfoHash.
  destruct (DecoderFacts.DecodeMap_returns (contents data)) as [[m ->]|[e ->]];
    simpl; eauto.
  destruct (map_get _ m); simpl; eauto.
Qed.

(** With the fallback's 20 bytes within the buffer, building a record
    returns: a record or an error. *)
Lemma parseTorrentFile_returns w now filePath :
  (forall data, ReadFile w filePath = Some data -> 20 <= cap data) ->
  (exists rec, parseTorrentFile w now filePath = Ok rec) \/
  (exists e, parseTorrentFile w now filePath = Err e).
Proof.
  intros C. unfold parseTorrentFile.
  destruct (ReadFile w filePath) as [data|]; [|eauto].
  specialize (C data eq_refl).
  destruct (DecoderFacts.DecodeTorrentMetaInfo_returns (contents data))
    as [[m ->]|[e ->]]; [|eauto].
  destruct (sizeAndFiles (Info m)) as [totalSize files].
  destruct (calculateInfoHash_returns data) as [[h ->]|[e ->]]; simpl; eauto.
  unfold sliceTo. destruct (Nat.leb_spec 20 (cap data)); [|lia].
  simpl. eauto.
Qed.

Lemma loadLoop_loaded w dir files :
  (forall filePath data, ReadFile w filePath = Some data -> 20 <= cap data) ->
  forall i acc,
    loadLoop w dir i files acc = (Ok tt, acc ++ loaded w dir i files).
Proof.
  intros C. induction files as [|file rest IH]; intros i acc; simpl.
  - now rewrite app_nil_r.
  - destruct (isCandidate w file); [|apply IH].
    destruct (@parseTorrentFile_returns w (Now w i)
                (Join w dir (FileInfo_Name file)) (C _))
      as [[rec ->]|[e ->]].
    + rewrite IH, <- app_assoc. reflexivity.
    + apply IH.
Qed.



(** ** C9: what a reader sees during a refresh *)

Module MemoryFacts.

Import Memory.

Lemma setIndex_length {E} i (x : E) l :
  i < length l -> length (setIndex i x l) = length l.
Proof.
  intros H. unfold setIndex.
  rewrite length_app, length_firstn. cbn [length]. rewrite length_skipn. lia.
Qed.

Lemma setIndex_firstn_S {E} i (x : E) l :
  i <= length l -> firstn (S i) (setIndex i x l) = firstn i l ++ [x].
Proof.
  intros H. unfold setIndex.
  rewrite firstn_app, length_firstn, Nat.min_l by assumption.
  rewrite firstn_firstn, Nat.min_r by lia.
  replace (S i - i) with 1 by lia. reflexivity.
Qed.

Lemma store_length h p i x :
  p < length h -> length (store h p i x) = length h.
Proof.
  intros H. unfold store. rewrite length_app, length_firstn. cbn [length].
  rewrite length_skipn. lia.
Qed.

Lemma store_nth_same h p i x :
  p < length h -> nth p (store h p i x) [] = setIndex i x (nth p h []).
Proof.
  revert p. induction h as [|y h IH]; intros p H; simpl in H; [lia|].
  destruct p as [|p]; [reflexivity|].
  unfold store in *. simpl. apply IH. lia.
Qed.

Lemma store_nth_other h p i x a :
  p < length h -> a <> p -> nth a (store h p i x) [] = nth a h [].
Proof.
  revert p a. induction h as [|y h IH]; intros p a H N; simpl in H; [lia|].
  destruct p as [|p], a as [|a]; try reflexivity; try congruence.
  unfold store in *. simpl. apply IH; [lia|congruence].
Qed.

Section Append.

Variables (grow : nat -> nat) (h : heap) (s : slice) (x : TorrentInfo).
Hypothesis WF : wellFormed h s.

Let h' := fst (append grow h s x).
Let s' := snd (append grow h s x).

Lemma append_spec :
  wellFormed h' s' /\
  view h' s' = view h s ++ [x] /\
  length h <= length h' /\
  (ptr s' = ptr s \/ ptr s' = length h) /\
  (forall a, a < length h -> a <> ptr s -> nth a h' [] = nth a h []).
Proof.
  destruct WF as (W1 & W2 & W3). subst h' s'. unfold append.
  destruct (Nat.ltb_spec (slen s) (scap s)) as [L|L]; cbn [fst snd].
  - assert (Hlen : length (store h (ptr s) (slen s) x) = length h)
      by (apply store_length; assumption).
    unfold wellFormed, view. cbn [ptr slen scap].
    rewrite store_nth_same by assumption.
    repeat split; try lia.
    + rewrite setIndex_length; lia.
    + apply setIndex_firstn_S. lia.
    + intros a Ha Na. now apply store_nth_other.
  - unfold wellFormed, view. cbn [ptr slen scap].
    rewrite nth_middle, length_app. cbn [length].
    assert (Hv : length (firstn (slen s) (nth (ptr s) h [])) = slen s)
      by (rewrite length_firstn; lia).
    repeat split; try lia.
    + rewrite length_app, Hv. cbn [length]. rewrite repeat_length. lia.
    + rewrite firstn_app, Hv.
      replace (S (slen s) - slen s) with 1 by lia.
      rewrite firstn_all2 by lia. reflexivity.
    + intros a Ha _. now apply app_nth1.
Qed.

End Append.

Section Refresh.

Variables (w : World) (grow : nat -> nat) (dir : bytes).
Variables (files : list FileInfo) (st0 : state).
Hypothesis Hidle : at_pc st0 = Idle.
Hypothesis Hlist : ReadDir w dir = Some files.

Lemma inv_first st : step w grow dir st0 st -> inv w dir files st0 st.
Proof.
  intros S. inversion S; subst; try congruence.
  assert (files0 = files) by congruence. subst files0.
  unfold inv, make0, wellFormed, view. cbn [mem tm_torrents at_pc fst snd ptr slen scap].
  rewrite length_app, nth_middle. cbn [length firstn app].
  repeat split; try lia.
  intros a Ha. now apply app_nth1.
Qed.

Lemma inv_next st st' :
  inv w dir files st0 st -> at_pc st <> Idle -> step w grow dir st st' ->
  inv w dir files st0 st'.
Proof.
  intros (I1 & I2 & I3 & I4 & I5) N S.
  inversion S; subst; try congruence;
    match goal with H : at_pc st = _ |- _ => rewrite H in I5 end;
    cbn [Spec.loaded] in I5;
    repeat match goal with
           | H : isCandidate _ _ = _ |- _ => rewrite H in I5; clear H
           | H : parseTorrentFile _ _ _ = _ |- _ => rewrite H in I5; clear H
           end;
    cbn [app] in I5;
    unfold inv; cbn [mem tm_torrents at_pc].
  - (* not a candidate *) auto.
  - (* the record fails *) auto.
  - (* the record panics *) eauto 6.
  - (* the record is appended *)
    destruct (@append_spec grow (mem st) (tm_torrents st) info I2)
      as (A1 & A2 & A3 & A4 & A5).
    split; [|split; [exact A1|split; [lia|split]]].
    + destruct A4 as [-> | ->]; lia.
    + intros a Ha. rewrite A5; [auto | lia | lia].
    + rewrite A2, <- app_assoc. exact I5.
  - (* the loop is over *)
    rewrite app_nil_r in I5. auto.
Qed.

Lemma inv_during st : during w grow dir st0 st -> inv w dir files st0 st.
Proof.
  induction 1 as [st S | st st' D IH N S].
  - now apply inv_first.
  - eapply inv_next; eauto.
Qed.

End Refresh.

End MemoryFacts.

Import Memory MemoryFacts.


Lemma during_emptied : during twoGood double (str "./torrents") oldState emptied.
Proof.
  apply during_first.
  apply (@step_make twoGood double (str "./torrents") oldState listing);
    vm_compute; reflexivity.
Qed.

Lemma during_halfway : during twoGood double (str "./torrents") oldState halfway.
Proof.
  apply during_next with (st := emptied).
  - apply during_emptied.
  - discriminate.
  - apply (@step_append twoGood double (str "./torrents") emptied 0
             (hd {| FileInfo_Name := []; FileInfo_IsDir := false |} listing)
             (tl listing) recordA);
      vm_compute; reflexivity.
Qed.



(** * Further properties of the code *)

Import Notions StrconvFacts DecoderFacts.

(** ** The tagged fields and the entries of the dictionary *)

Lemma intoString_entry fuel cur bs s r fuel' v r' :
  intoString fuel cur bs = Ok (s, r) ->
  decodeInto fuel' bs = Ok (v, r') -> v = VString s.
Proof.
  unfold intoString. destruct bs as [|c rest]; [discriminate|].
  destruct (Ascii.eqb c "i") eqn:Ei; [intros H; now apply mismatch_fails in H|].
  destruct (isDigit c) eqn:Ed; [|intros H; now apply mismatch_fails in H].
  intros H. destruct fuel' as [|g]; [discriminate|]. cbn [decodeInto].
  rewrite Ei, Ed, H. simpl. congruence.
Qed.

Lemma intoStruct_entry {S} (field : bytes -> option (decoder S))
    fuel cur bs x r fuel' v r' :
  intoStruct field fuel cur bs = Ok (x, r) ->
  decodeInto fuel' bs = Ok (v, r') ->
  exists rest m g,
    v = VDict m /\ structLoop field fuel cur rest = Ok (x, r) /\
    decodeDict g rest [] = Ok (m, r').
Proof.
  unfold intoStruct. destruct bs as [|c rest]; [discriminate|].
  destruct (Ascii.eqb c "i") eqn:Ei; [intros H; now apply mismatch_fails in H|].
  destruct (isDigit c) eqn:Ed; [intros H; now apply mismatch_fails in H|].
  destruct (Ascii.eqb c "l") eqn:El; [intros H; now apply mismatch_fails in H|].
  destruct (Ascii.eqb c "d") eqn:Edd; [|intros H; now apply mismatch_fails in H].
  intros H. destruct fuel' as [|g]; [discriminate|]. cbn [decodeInto].
  rewrite Ei, Ed, El, Edd.
  destruct (decodeDict g rest []) as [[m r0]| | |] eqn:Em; simpl; try discriminate.
  intros [= <- <-]. exists rest, m, g. auto.
Qed.

(** A decoder of another field leaves the field at hand as it is. *)
Ltac other_fields :=
  let k := fresh "k" in
  intros k ?;
  repeat (match goal with
          | |- context [if bytes_eqb k ?s then _ else _] =>
              destruct (bytes_eqb k s) eqn:?
          end;
          [intros [= <-] ? ? ? ? ? ?; unfold fieldOf;
           match goal with |- context [bind ?e _] => destruct e as [[? ?]| | |] end;
           simpl; try discriminate; intros [= <- <-]; try reflexivity|]);
  try discriminate;
  exfalso; match goal with N : _ <> _ |- _ => apply N end;
  now apply bytes_eqb_eq.

(** The entry of a key tagged on a [string] field. *)
Ltac string_entry get key :=
  let M := fresh "M" in
  let D := fresh "D" in
  intros M D;
  refine (@DecodeBytes_entry _ _ TorrentMetaInfo_field get key
            stringOf _ _ _ _ zeroTorrentMetaInfo _ _ _ M D _);
  [ apply TorrentMetaInfo_field_agrees
  | discriminate
  | unfold TorrentMetaInfo_field; other_fields
  | intros ? [= <-] ? ? ? ? ? ? ? ?; unfold fieldOf;
    match goal with
    | |- context [bind ?e _] => destruct e as [[? ?]| | |] eqn:?
    end; simpl; try discriminate;
    intros [= <- <-] ?; simpl; eapply intoString_entry; eauto
  | reflexivity ].

Lemma Announce_entry data metaInfo torrent :
  DecodeTorrentMetaInfo data = Ok metaInfo ->
  DecodeMap data = Ok torrent ->
  stringOf (map_get (str "announce") torrent) (Announce metaInfo).
Proof. string_entry Announce (str "announce"). Qed.

Lemma Comment_entry data metaInfo torrent :
  DecodeTorrentMetaInfo data = Ok metaInfo ->
  DecodeMap data = Ok torrent ->
  stringOf (map_get (str "comment") torrent) (Comment metaInfo).
Proof. string_entry Comment (str "comment"). Qed.

Lemma CreatedBy_entry data metaInfo torrent :
  DecodeTorrentMetaInfo data = Ok metaInfo ->
  DecodeMap data = Ok torrent ->
  stringOf (map_get (str "created by") torrent) (CreatedBy metaInfo).
Proof. string_entry CreatedBy (str "created by"). Qed.

(** The [info] entry, when the struct was decoded, is a dictionary, and
    the [name] entry of that dictionary is the struct's name. *)
Lemma Info_entry data metaInfo torrent :
  DecodeTorrentMetaInfo data = Ok metaInfo ->
  DecodeMap data = Ok torrent ->
  dictOf (map_get (str "info") torrent) /\
  forall info v,
    map_get (str "info") torrent = Some (VDict info) ->
    map_get (str "name") info = Some v ->
    v = VString (InfoDict_Name (Info metaInfo)).
Proof.
  intros M D.
  refine (@DecodeBytes_entry _ _ TorrentMetaInfo_field Info (str "info")
            (fun entry x =>
               dictOf entry /\
               forall info v,
                 entry = Some (VDict info) ->
                 map_get (str "name") info = Some v ->
                 v = VString (InfoDict_Name x))
            _ _ _ _ zeroTorrentMetaInfo _ _ _ M D _).
  - apply TorrentMetaInfo_field_agrees.
  - discriminate.
  - unfold TorrentMetaInfo_field. other_fields.
  - intros dec [= <-] fuel cur bs cur' r fuel' v r'. unfold fieldOf.
    destruct (intoStruct InfoDict_field fuel (Info cur) bs)
      as [[x r0]| | |] eqn:E; simpl; try discriminate.
    intros [= <- <-] Ev. simpl.
    pose proof E as E'. eapply intoStruct_entry in E'; [|exact Ev].
    destruct E' as (rest & m & g & -> & L & Dm).
    split; [eauto|]. intros info v [= <-] G.
    refine (@structLoop_entry _ _ InfoDict_field InfoDict_Name (str "name")
              (fun entry nm => forall v, entry = Some v -> v = VString nm)
              _ _ _ _ _ _ _ _ _ L _ _ _ _ Dm _ _ G).
    + apply InfoDict_field_agrees.
    + discriminate.
    + unfold InfoDict_field. other_fields.
    + intros dec [= <-] fuel0 cur0 bs0 cur1 r1 fuel1 v1 r2. unfold fieldOf.
      destruct (intoString fuel0 (InfoDict_Name cur0) bs0)
        as [[s r3]| | |] eqn:Es; simpl; try discriminate.
      intros [= <- <-] Ev1 v2 [= <-]. simpl. eapply intoString_entry; eauto.
    + discriminate.
  - split; [exact I|discriminate].
Qed.

Lemma parseTorrentFile_text w now filePath data metaInfo rec :
  ReadFile w filePath = Some data ->
  DecodeTorrentMetaInfo (contents data) = Ok metaInfo ->
  parseTorrentFile w now filePath = Ok rec ->
  TorrentInfo_Name rec = InfoDict_Name (Info metaInfo) /\
  TorrentInfo_Comment rec = Comment metaInfo /\
  TorrentInfo_CreatedBy rec = CreatedBy metaInfo /\
  TorrentInfo_FilePath rec = filePath.
Proof.
  intros R M. unfold parseTorrentFile. rewrite R, M.
  destruct (sizeAndFiles (Info metaInfo)) as [totalSize files].
  destruct (calculateInfoHash data) as [h|e| |]; simpl; try discriminate.
  - intros [= <-]. simpl. auto.
  - destruct (sliceTo data 20) as [prefix| | |]; simpl; try discriminate.
    intros [= <-]. simpl. auto.
Qed.

(** X1: the record's comment and creator are the [comment] and [created
    by] strings of the file's dictionary, and the empty string when the
    dictionary has no such entry; its name is the [name] string of the
    [info] dictionary; its file path is the path the file was read
    from. *)
Theorem text_fields_from_entries :
  forall w now filePath data torrent rec,
    ReadFile w filePath = Some data ->
    DecodeMap (contents data) = Ok torrent ->
    parseTorrentFile w now filePath = Ok rec ->
    stringOf (map_get (str "comment") torrent) (TorrentInfo_Comment rec) /\
    stringOf (map_get (str "created by") torrent) (TorrentInfo_CreatedBy rec) /\
    (forall info v,
       map_get (str "info") torrent = Some (VDict info) ->
       map_get (str "name") info = Some v ->
       v = VString (TorrentInfo_Name rec)) /\
    TorrentInfo_FilePath rec = filePath.
Proof.
  intros w now filePath data torrent rec R D P.
  destruct (@parseTorrentFile_Ok _ _ _ _ P) as (data' & metaInfo & R' & M).
  assert (data' = data) by congruence. subst data'.
  destruct (@parseTorrentFile_text _ _ _ _ _ _ R M P) as (-> & -> & -> & ->).
  split; [exact (@Comment_entry _ _ _ M D)|].
  split; [exact (@CreatedBy_entry _ _ _ M D)|].
  split; [|reflexivity]. apply (@Info_entry _ _ _ M D).
Qed.

(** A file with a comment and a creator, and one with neither. *)
Lemma text_fields_from_entries_witness :
  TorrentInfo_Comment (recordOf (oneFile (exactly commentedFile)) aPath)
  = str "hello" /\
  TorrentInfo_CreatedBy (recordOf (oneFile (exactly commentedFile)) aPath)
  = str "me" /\
  stringOf (map_get (str "comment") (entriesOf commentedFile))
           (TorrentInfo_Comment (recordOf (oneFile (exactly commentedFile)) aPath)) /\
  stringOf (map_get (str "comment") (entriesOf torrentA))
           (TorrentInfo_Comment (recordOf (oneFile (exactly torrentA)) aPath)).
Proof.
  split; [vm_compute; reflexivity|].
  split; [vm_compute; reflexivity|].
  split.
  - refine (proj1 (@text_fields_from_entries
                     (oneFile (exactly commentedFile)) (Unix 0 0) aPath
                     (exactly commentedFile) (entriesOf commentedFile)
                     (recordOf (oneFile (exactly commentedFile)) aPath) _ _ _));
      vm_compute; reflexivity.
  - refine (proj1 (@text_fields_from_entries
                     (oneFile (exactly torrentA)) (Unix 0 0) aPath
                     (exactly torrentA) (entriesOf torrentA)
                     (recordOf (oneFile (exactly torrentA)) aPath) _ _ _));
      vm_compute; reflexivity.
Defined.



(** ** What decoding keeps of a struct *)

Section Kept.

Variables (S : Type) (P : S -> Prop) (field : bytes -> option (decoder S)).

Hypothesis field_keeps :
  forall k dec, field k = Some dec ->
  forall fuel cur bs cur' r, P cur -> dec fuel cur bs = Ok (cur', r) -> P cur'.

Lemma structLoop_keeps fuel :
  forall cur bs cur' r,
    P cur -> structLoop field fuel cur bs = Ok (cur', r) -> P cur'.
Proof.
  induction fuel as [|f IH]; intros cur bs cur' r Pc; [discriminate|].
  destruct bs as [|c rest]; [discriminate|]. cbn [structLoop].
  destruct (Ascii.eqb c "e"); [now intros [= <- <-]|].
  destruct (decodeString (c :: rest)) as [[k r1]| | |]; simpl; try discriminate.
  destruct (field k) as [dec|] eqn:Ef.
  - destruct (dec f cur r1) as [[cur1 r2]| | |] eqn:E1; simpl; try discriminate.
    apply IH. eapply field_keeps; eauto.
  - destruct (decodeInto f r1) as [[v r2]| | |]; simpl; try discriminate.
    now apply IH.
Qed.

Lemma intoStruct_keeps fuel cur bs cur' r :
  P cur -> intoStruct field fuel cur bs = Ok (cur', r) -> P cur'.
Proof.
  intros Pc. unfold intoStruct. destruct bs as [|c rest]; [discriminate|].
  destruct (Ascii.eqb c "i"); [intros H; now apply mismatch_fails in H|].
  destruct (isDigit c); [intros H; now apply mismatch_fails in H|].
  destruct (Ascii.eqb c "l"); [intros H; now apply mismatch_fails in H|].
  destruct (Ascii.eqb c "d"); [|intros H; now apply mismatch_fails in H].
  now apply structLoop_keeps.
Qed.

End Kept.

Lemma ParseInt_int64 s n : ParseInt s 64 = Ok n -> int64 n.
Proof.
  unfold ParseInt, int64. destruct s as [|c t]; [discriminate|].
  destruct (if Ascii.eqb c "+" || Ascii.eqb c "-" then t else c :: t)
    as [|d ds]; [discriminate|].
  destruct (digitsFrom 0 (d :: ds)) as [un|] eqn:E; [|discriminate].
  apply digitsFrom_ge in E; [|lia].
  change (2 ^ (64 - 1))%Z with (2 ^ 63)%Z.
  destruct (Ascii.eqb c "-").
  - destruct (Z.ltb_spec (2 ^ 63) un); [discriminate|]. intros [= <-]. lia.
  - destruct (Z.leb_spec (2 ^ 63) un); [discriminate|]. intros [= <-]. lia.
Qed.

Lemma intoInt64_int64 fuel cur bs n r :
  intoInt64 fuel cur bs = Ok (n, r) -> int64 n.
Proof.
  intros H. apply intoInt64_inv in H as (rest & _ & H). revert H.
  unfold decodeInt.
  destruct (readBytes "e" rest) as [[digits r0]| | |]; simpl; try discriminate.
  destruct (ParseInt digits 64) as [m| | |] eqn:E; simpl; try discriminate.
  intros [= <- <-]. now apply ParseInt_int64 in E.
Qed.

(** A decoder of a field either leaves what is looked at as it is, or
    stores an [int64] there. *)
Ltac field_keeps_int64 :=
  let k := fresh "k" in
  intros k ?;
  repeat (match goal with
          | |- context [if bytes_eqb k ?s then _ else _] =>
              destruct (bytes_eqb k s)
          end;
          [intros [= <-] ? ? ? ? ? ?; unfold fieldOf;
           match goal with
           | |- context [bind ?e _] => destruct e as [[? ?]| | |] eqn:?
           end;
           simpl; try discriminate; intros [= <- <-]; simpl;
           try assumption|]);
  try discriminate.

Lemma InfoDict_field_int64 k dec :
  InfoDict_field k = Some dec ->
  forall fuel cur bs cur' r,
    int64 (InfoDict_Length cur) -> dec fuel cur bs = Ok (cur', r) ->
    int64 (InfoDict_Length cur').
Proof.
  revert k dec. unfold InfoDict_field. field_keeps_int64.
  eapply intoInt64_int64; eauto.
Qed.

Lemma TorrentMetaInfo_field_int64 k dec :
  TorrentMetaInfo_field k = Some dec ->
  forall fuel cur bs cur' r,
    int64 (InfoDict_Length (Info cur)) -> dec fuel cur bs = Ok (cur', r) ->
    int64 (InfoDict_Length (Info cur')).
Proof.
  revert k dec. unfold TorrentMetaInfo_field. field_keeps_int64.
  eapply (@intoStruct_keeps _ (fun info => int64 (InfoDict_Length info)));
    eauto using InfoDict_field_int64.
Qed.

Lemma DecodeTorrentMetaInfo_int64 data metaInfo :
  DecodeTorrentMetaInfo data = Ok metaInfo ->
  int64 (InfoDict_Length (Info metaInfo)).
Proof.
  unfold DecodeTorrentMetaInfo, DecodeBytes.
  destruct (intoStruct TorrentMetaInfo_field (fuelFor data) zeroTorrentMetaInfo data)
    as [[x r]| | |] eqn:E; simpl; try discriminate.
  intros [= <-].
  eapply (@intoStruct_keeps _ (fun m => int64 (InfoDict_Length (Info m))));
    eauto using TorrentMetaInfo_field_int64.
  unfold int64. simpl. lia.
Qed.

Lemma wrap64_int64 z : int64 (wrap64 z).
Proof.
  unfold int64, wrap64.
  pose proof (Z.mod_pos_bound (z + 2 ^ 63) (2 ^ 64) ltac:(lia)). lia.
Qed.

Lemma sizeAndFiles_int64 info :
  int64 (InfoDict_Length info) -> int64 (fst (sizeAndFiles info)).
Proof.
  intros H. destruct (Z.ltb_spec 0 (InfoDict_Length info)) as [L|L].
  - unfold sizeAndFiles. destruct (Z.ltb_spec 0 (InfoDict_Length info)); [|lia].
    exact H.
  - rewrite sizeAndFiles_multi by assumption. apply wrap64_int64.
Qed.

Lemma parseTorrentFile_int64 w now filePath rec :
  parseTorrentFile w now filePath = Ok rec -> int64 (TorrentInfo_Size rec).
Proof.
  intros P. destruct (@parseTorrentFile_Ok _ _ _ _ P) as (data & metaInfo & R & M).
  destruct (@parseTorrentFile_inv _ _ _ _ _ R M _ P) as (_ & -> & _).
  apply sizeAndFiles_int64. now apply DecodeTorrentMetaInfo_int64 in M.
Qed.

(** ** What holds of every record of the catalog *)

Lemma parseTorrentFile_path w now filePath rec :
  parseTorrentFile w now filePath = Ok rec ->
  TorrentInfo_FilePath rec = filePath.
Proof.
  intros P. destruct (@parseTorrentFile_Ok _ _ _ _ P) as (data & metaInfo & R & M).
  now destruct (@parseTorrentFile_text _ _ _ _ _ _ R M P) as (_ & _ & _ & ->).
Qed.

Lemma loadLoop_Forall (P : TorrentInfo -> Prop) w dir :
  (forall now filePath rec, parseTorrentFile w now filePath = Ok rec -> P rec) ->
  forall files i acc,
    Forall P acc -> Forall P (snd (loadLoop w dir i files acc)).
Proof.
  intros H. induction files as [|file rest IH]; intros i acc A; simpl; auto.
  destruct (isCandidate w file); [|now apply IH].
  destruct (parseTorrentFile w (Now w i) (Join w dir (FileInfo_Name file)))
    as [rec|e| |] eqn:E; simpl; auto.
  apply IH. apply Forall_app. split; [exact A|].
  constructor; [|constructor]. eapply H; eauto.
Qed.

Lemma LoadTorrents_Forall (P : TorrentInfo -> Prop) w tm :
  (forall now filePath rec, parseTorrentFile w now filePath = Ok rec -> P rec) ->
  Forall P (torrents tm) -> Forall P (torrents (snd (LoadTorrents w tm))).
Proof.
  intros H A. unfold LoadTorrents.
  destruct (ReadDir w (torrentsDir tm)) as [files|]; [|exact A].
  pose proof (@loadLoop_Forall P w (torrentsDir tm) H files 0 [] (Forall_nil _)) as L.
  destruct (loadLoop w (torrentsDir tm) 0 files []) as [r ts]. exact L.
Qed.

Lemma parseTorrentFile_hash w now filePath rec :
  parseTorrentFile w now filePath = Ok rec ->
  length (TorrentInfo_InfoHash rec) = 40 /\
  Forall (fun c => In c hexDigits) (TorrentInfo_InfoHash rec).
Proof.
  intros P. destruct (@parseTorrentFile_Ok _ _ _ _ P) as (data & metaInfo & R & M).
  destruct (@parseTorrentFile_inv _ _ _ _ _ R M _ P)
    as ([H|(e & prefix & _ & S & ->)] & _).
  - revert H. unfold calculateInfoHash.
    destruct (DecodeMap (contents data)) as [torrent| | |];
      cbv beta iota delta [bind]; try discriminate.
    destruct (map_get (str "info") torrent) as [info|]; try discriminate.
    unfold EncodeBytes. cbv beta iota delta [bind].
    intros [= <-]. split; [|apply EncodeToString_lowercase].
    now rewrite EncodeToString_length, Sum_length.
  - split; [|apply EncodeToString_lowercase].
    rewrite EncodeToString_length. revert S. unfold sliceTo, cap.
    destruct (Nat.leb_spec 20 (length (array data))); [|discriminate].
    intros E. assert (prefix = firstn 20 (array data)) by congruence.
    subst prefix. rewrite length_firstn. lia.
Qed.

(** X3: whichever way its info hash was obtained, a record that is built
    carries 40 lowercase hexadecimal digits as its infoHash; a new
    manager's catalog holds only such records, and a scan keeps it
    so. *)
Theorem infoHash_always_40_hex :
  (forall w now filePath rec,
     parseTorrentFile w now filePath = Ok rec ->
     length (TorrentInfo_InfoHash rec) = 40 /\
     Forall (fun c => In c hexDigits) (TorrentInfo_InfoHash rec)) /\
  (forall dir,
     Forall (fun rec =>
               length (TorrentInfo_InfoHash rec) = 40 /\
               Forall (fun c => In c hexDigits) (TorrentInfo_InfoHash rec))
            (GetTorrents (NewTorrentManager dir))) /\
  (forall w tm,
     Forall (fun rec =>
               length (TorrentInfo_InfoHash rec) = 40 /\
               Forall (fun c => In c hexDigits) (TorrentInfo_InfoHash rec))
            (GetTorrents tm) ->
     Forall (fun rec =>
               length (TorrentInfo_InfoHash rec) = 40 /\
               Forall (fun c => In c hexDigits) (TorrentInfo_InfoHash rec))
            (GetTorrents (snd (LoadTorrents w tm)))).
Proof.
  split; [apply parseTorrentFile_hash|]. split; [constructor|].
  intros w tm. apply LoadTorrents_Forall. apply parseTorrentFile_hash.
Qed.

(** The record of a file that took the fallback. *)
Lemma infoHash_always_40_hex_witness :
  length (TorrentInfo_InfoHash (recordOf (oneFile (exactly noInfoFile)) aPath)) = 40 /\
  Forall (fun c => In c hexDigits)
         (TorrentInfo_InfoHash (recordOf (oneFile (exactly noInfoFile)) aPath)).
Proof.
  apply (proj1 infoHash_always_40_hex (oneFile (exactly noInfoFile)) (Unix 0 0) aPath).
  vm_compute; reflexivity.
Defined.

(** ** Which directory entries the catalog comes from *)

Lemma Subseq_refl {A} (l : list A) : Subseq l l.
Proof. induction l; constructor; auto. Qed.

Lemma Subseq_nil_l {A} (l : list A) : Subseq [] l.
Proof. induction l; constructor; auto. Qed.

Lemma Subseq_length {A} (l l' : list A) : Subseq l l' -> length l <= length l'.
Proof. induction 1; simpl; lia. Qed.

Lemma Subseq_In {A} (l l' : list A) x : Subseq l l' -> In x l -> In x l'.
Proof. induction 1; simpl; intuition. Qed.

Lemma Subseq_filter {A} (p q : A -> bool) l :
  (forall x, p x = true -> q x = true) -> Subseq (filter p l) (filter q l).
Proof.
  intros H. induction l as [|x l IH]; simpl; [constructor|].
  destruct (p x) eqn:Ep.
  - rewrite (H _ Ep). now constructor.
  - destruct (q x); [now constructor|exact IH].
Qed.

Lemma filter_Subseq {A} (p : A -> bool) l : Subseq (filter p l) l.
Proof.
  induction l as [|x l IH]; simpl; [constructor|].
  destruct (p x); now constructor.
Qed.

Lemma loadLoop_paths w dir files :
  forall i acc,
  exists kept,
    Subseq kept (filter (isCandidate w) files) /\
    map TorrentInfo_FilePath (snd (loadLoop w dir i files acc))
    = map TorrentInfo_FilePath acc
      ++ map (fun file => Join w dir (FileInfo_Name file)) kept.
Proof.
  induction files as [|file rest IH]; intros i acc; simpl.
  - exists []. split; [constructor|]. now rewrite app_nil_r.
  - destruct (isCandidate w file) eqn:C.
    + destruct (parseTorrentFile w (Now w i) (Join w dir (FileInfo_Name file)))
        as [rec|e| |] eqn:E.
      * destruct (IH (S i) (acc ++ [rec])) as (kept & K & ->).
        exists (file :: kept). split; [now constructor|].
        rewrite map_app, <- app_assoc. simpl.
        now rewrite (parseTorrentFile_path _ _ _ E).
      * destruct (IH (S i) acc) as (kept & K & ->).
        exists kept. split; [now constructor|reflexivity].
      * exists []. split; [apply Subseq_nil_l|]. simpl. now rewrite app_nil_r.
      * exists []. split; [apply Subseq_nil_l|]. simpl. now rewrite app_nil_r.
    + apply IH.
Qed.

Lemma LoadTorrents_paths w tm files :
  ReadDir w (torrentsDir tm) = Some files ->
  exists kept,
    Subseq kept (filter (isCandidate w) files) /\
    map TorrentInfo_FilePath (GetTorrents (snd (LoadTorrents w tm)))
    = map (fun file => Join w (torrentsDir tm) (FileInfo_Name file)) kept.
Proof.
  intros R. unfold LoadTorrents, GetTorrents. rewrite R.
  destruct (loadLoop_paths w (torrentsDir tm) files 0 []) as (kept & K & E).
  destruct (loadLoop w (torrentsDir tm) 0 files []) as [r ts].
  exists kept. split; [exact K|exact E].
Qed.

Lemma loadLoop_no_error w dir files :
  forall i acc e, fst (loadLoop w dir i files acc) <> Err e.
Proof.
  induction files as [|file rest IH]; intros i acc e; simpl; [discriminate|].
  destruct (isCandidate w file); [|apply IH].
  destruct (parseTorrentFile w (Now w i) (Join w dir (FileInfo_Name file)));
    simpl; try discriminate; apply IH.
Qed.

(** X4: when the directory is listed, the file paths of the catalog a
    scan leaves are, in listing order, the joined paths of some of the
    candidate entries (those not a directory whose lowered name ends in
    [.torrent]), each taken at most once: no other entry gives a record,
    and the catalog is no longer than the list of candidates. *)
Theorem catalog_from_candidates :
  forall w tm files,
    ReadDir w (torrentsDir tm) = Some files ->
    (exists kept,
       Subseq kept (filter (isCandidate w) files) /\
       map TorrentInfo_FilePath (GetTorrents (snd (LoadTorrents w tm)))
       = map (fun file => Join w (torrentsDir tm) (FileInfo_Name file)) kept) /\
    length (GetTorrents (snd (LoadTorrents w tm)))
    <= length (filter (isCandidate w) files).
Proof.
  intros w tm files R. pose proof (LoadTorrents_paths w tm R) as H.
  split; [exact H|]. destruct H as (kept & K & E).
  apply Subseq_length in K.
  apply (f_equal (@length _)) in E. rewrite !length_map in E. lia.
Qed.

(** A directory of three entries, two of them candidates. *)
Lemma catalog_from_candidates_witness :
  (exists kept,
     Subseq kept (filter (isCandidate twoFiles) (listingOf twoFiles (str "./torrents"))) /\
     map TorrentInfo_FilePath (GetTorrents (scanned twoFiles))
     = map (fun file => Join twoFiles (str "./torrents") (FileInfo_Name file)) kept) /\
  length (GetTorrents (scanned twoFiles))
  <= length (filter (isCandidate twoFiles) (listingOf twoFiles (str "./torrents"))).
Proof.
  apply (@catalog_from_candidates twoFiles (NewTorrentManager (str "./torrents"))).
  vm_compute; reflexivity.
Defined.

(** ** Search *)

Lemma Contains_refl s : Strings.Contains s s = true.
Proof. apply Contains_spec. exists [], []. now rewrite app_nil_r. Qed.

Lemma Contains_trans a b c :
  Strings.Contains a b = true -> Strings.Contains b c = true ->
  Strings.Contains a c = true.
Proof.
  rewrite !Contains_spec. intros (p1 & q1 & ->) (p2 & q2 & ->).
  exists (p1 ++ p2), (q2 ++ q1). now rewrite <- !app_assoc.
Qed.

Lemma SearchTorrents_filter w tm c query :
  SearchTorrents w tm (c :: query)
  = filter (fun torrent =>
              Strings.Contains (ToLower w (TorrentInfo_Name torrent))
                               (ToLower w (c :: query)))
           (torrents tm).
Proof. unfold SearchTorrents. apply search_loop. Qed.

(** X5: a search for the whole name of a record of the catalog finds
    that record, whatever [strings.ToLower] does to the name; and the
    result of any search is the catalog with some records left out. *)
Theorem search_finds_own_name :
  forall w tm,
    (forall torrent,
       In torrent (GetTorrents tm) ->
       In torrent (SearchTorrents w tm (TorrentInfo_Name torrent))) /\
    (forall query, Subseq (SearchTorrents w tm query) (GetTorrents tm)).
Proof.
  intros w tm. split.
  - intros torrent H. destruct (TorrentInfo_Name torrent) as [|c n] eqn:E.
    + exact H.
    + rewrite SearchTorrents_filter. apply filter_In. split; [exact H|].
      rewrite E. apply Contains_refl.
  - intros [|c query]; [apply Subseq_refl|].
    rewrite SearchTorrents_filter. apply filter_Subseq.
Qed.

(** A search for a name in capitals. *)
Lemma search_finds_own_name_witness :
  In (named "HOME MOVIES")
     (SearchTorrents (oneFile (exactly [])) shelf (str "HOME MOVIES")).
Proof.
  apply (proj1 (search_finds_own_name (oneFile (exactly [])) shelf)
           (named "HOME MOVIES")).
  right. right. left. reflexivity.
Defined.

(** X6: a term that (lowered) contains another term (lowered) finds no
    record the other does not find: the result for the longer term is
    the result for the shorter one with some records left out. *)
Theorem search_narrows :
  forall w tm short long,
    short <> [] -> long <> [] ->
    Strings.Contains (ToLower w long) (ToLower w short) = true ->
    Subseq (SearchTorrents w tm long) (SearchTorrents w tm short).
Proof.
  intros w tm [|c s] [|d l] N1 N2 H; try congruence.
  rewrite !SearchTorrents_filter. apply Subseq_filter.
  intros torrent C. eapply Contains_trans; eauto.
Qed.

(** [movies] after [movie]. *)
Lemma search_narrows_witness :
  Subseq (SearchTorrents (oneFile (exactly [])) shelf (str "movies"))
         (SearchTorrents (oneFile (exactly [])) shelf (str "movie")).
Proof.
  apply search_narrows; [discriminate|discriminate|vm_compute; reflexivity].
Defined.

(** ** Which entries are candidates *)

Lemma bytes_eqb_true a b : bytes_eqb a b = true <-> a = b.
Proof.
  split; [apply bytes_eqb_eq|]. intros ->. apply bytes_eqb_refl.
Qed.

Lemma HasSuffix_spec s suffix :
  Strings.HasSuffix s suffix = true <-> exists pre, s = pre ++ suffix.
Proof.
  unfold Strings.HasSuffix. rewrite andb_true_iff, Nat.leb_le, bytes_eqb_true.
  split.
  - intros [L E]. exists (firstn (length s - length suffix) s).
    rewrite <- E at 2. symmetry. apply firstn_skipn.
  - intros [pre ->]. rewrite length_app. split; [lia|].
    replace (length pre + length suffix - length suffix) with (length pre + 0) by lia.
    rewrite skipn_app, Nat.add_0_r, skipn_all.
    replace (length pre - length pre) with 0 by lia. reflexivity.
Qed.

(** X7: with names in ASCII, the entries a scan reads are exactly those
    that are not directories and whose name ends in [.torrent] in any
    mix of letter case (the eight bytes alone are such a name). *)
Theorem candidate_by_suffix :
  forall w file,
    ToLower w (FileInfo_Name file) = Strings.asciiToLower (FileInfo_Name file) ->
    (isCandidate w file = true <->
     FileInfo_IsDir file = false /\
     exists stem ext,
       FileInfo_Name file = stem ++ ext /\
       Strings.asciiToLower ext = str ".torrent").
Proof.
  intros w file L. unfold isCandidate.
  rewrite andb_true_iff, negb_true_iff, L, HasSuffix_spec.
  unfold Strings.asciiToLower. split.
  - intros [D [pre E]]. split; [exact D|].
    apply map_eq_app in E as (stem & ext & -> & <- & E). eauto.
  - intros [D (stem & ext & -> & E)]. split; [exact D|].
    exists (map Strings.lowerByte stem). now rewrite map_app, E.
Qed.

(** An entry whose suffix is in capitals. *)
Lemma candidate_by_suffix_witness :
  isCandidate twoFiles {| FileInfo_Name := str "bad.TORRENT"; FileInfo_IsDir := false |}
  = true <->
  false = false /\
  exists stem ext,
    str "bad.TORRENT" = stem ++ ext /\
    Strings.asciiToLower ext = str ".torrent".
Proof.
  apply (@candidate_by_suffix twoFiles
           {| FileInfo_Name := str "bad.TORRENT"; FileInfo_IsDir := false |}).
  reflexivity.
Defined.

(** ** Web seeds *)

(** X8: the [url-list] field of a decoded file is never a [[]string]:
    it is nil or a value the decoder stored, so the third case of
    [extractWebSeeds] is never the one taken for a file, and the web
    seeds of a record are never more than the elements of its
    [url-list]. *)
Theorem url_list_never_string_slice :
  forall data metaInfo,
    DecodeTorrentMetaInfo data = Ok metaInfo ->
    (URLList metaInfo = INil \/ exists v, URLList metaInfo = IValue v) /\
    (forall l, URLList metaInfo <> IStrings l) /\
    (forall l, URLList metaInfo = IValue (VList l) ->
       length (extractWebSeeds (URLList metaInfo)) <= length l).
Proof.
  intros data metaInfo M.
  destruct (@DecodeMap_of_struct _ _ M) as [torrent D].
  pose proof (@URLList_entry _ _ _ M D) as E.
  split; [|split].
  - rewrite E. destruct (map_get (str "url-list") torrent); simpl; eauto.
  - intros l. rewrite E.
    destruct (map_get (str "url-list") torrent); simpl; discriminate.
  - intros l ->. cbn [extractWebSeeds]. rewrite webSeeds_loop. simpl.
    unfold stringsOf. clear. induction l as [|v l IH]; simpl; [lia|].
    rewrite length_app. destruct v; simpl; lia.
Qed.

(** A file whose [url-list] is a list. *)
Lemma url_list_never_string_slice_witness :
  (URLList (metaInfoOf multiFile) = INil \/
   exists v, URLList (metaInfoOf multiFile) = IValue v) /\
  (forall l, URLList (metaInfoOf multiFile) <> IStrings l) /\
  (forall l, URLList (metaInfoOf multiFile) = IValue (VList l) ->
     length (extractWebSeeds (URLList (metaInfoOf multiFile))) <= length l).
Proof.
  apply (@url_list_never_string_slice multiFile). vm_compute; reflexivity.
Defined.

(** ** The fallback info hash *)

Lemma hexValue_hexDigit n : n < 16 -> hexValue (Hex.hexDigit n) = n.
Proof.
  intros H. do 16 (destruct n as [|n]; [reflexivity|]). lia.
Qed.

Lemma cons_eq {A} (x y : A) l l' : x :: l = y :: l' -> x = y /\ l = l'.
Proof. now intros [= -> ->]. Qed.

Lemma hexPair_inj x y :
  Hex.hexDigit (code x / 16) = Hex.hexDigit (code y / 16) ->
  Hex.hexDigit (code x mod 16) = Hex.hexDigit (code y mod 16) ->
  x = y.
Proof.
  intros H1 H2. apply code_inj.
  pose proof (code_lt_256 x). pose proof (code_lt_256 y).
  apply (f_equal hexValue) in H1, H2.
  rewrite !hexValue_hexDigit in H1, H2;
    try (apply Nat.mod_upper_bound; lia);
    try (apply Nat.Div0.div_lt_upper_bound; lia).
  pose proof (Nat.div_mod_eq (code x) 16).
  pose proof (Nat.div_mod_eq (code y) 16). lia.
Qed.

Lemma EncodeToString_inj a b :
  Hex.EncodeToString a = Hex.EncodeToString b -> a = b.
Proof.
  unfold Hex.EncodeToString. revert b.
  induction a as [|x a IH]; intros [|y b]; cbn [flat_map app];
    try discriminate; auto.
  intros H. apply cons_eq in H as [H1 H]. apply cons_eq in H as [H2 H].
  f_equal; [now apply hexPair_inj|now apply IH].
Qed.

(** X9: two files for which the info-hash computation fails get the
    same infoHash exactly when the first 20 bytes of their buffers are
    the same, whatever else they hold. *)
Theorem fallback_hash_is_prefix :
  forall w1 now1 path1 data1 e1 rec1 w2 now2 path2 data2 e2 rec2,
    ReadFile w1 path1 = Some data1 ->
    calculateInfoHash data1 = Err e1 ->
    parseTorrentFile w1 now1 path1 = Ok rec1 ->
    ReadFile w2 path2 = Some data2 ->
    calculateInfoHash data2 = Err e2 ->
    parseTorrentFile w2 now2 path2 = Ok rec2 ->
    (TorrentInfo_InfoHash rec1 = TorrentInfo_InfoHash rec2 <->
     firstn 20 (array data1) = firstn 20 (array data2)).
Proof.
  intros w1 now1 path1 data1 e1 rec1 w2 now2 path2 data2 e2 rec2
         R1 C1 P1 R2 C2 P2.
  assert (F : forall w now path data e rec,
             ReadFile w path = Some data -> calculateInfoHash data = Err e ->
             parseTorrentFile w now path = Ok rec ->
             TorrentInfo_InfoHash rec
             = Hex.EncodeToString (firstn 20 (array data))).
  { intros w now path data e rec R C P.
    destruct (@parseTorrentFile_Ok _ _ _ _ P) as (data' & metaInfo & R' & M).
    assert (data' = data) by congruence. subst data'.
    destruct (@parseTorrentFile_inv _ _ _ _ _ R M _ P)
      as ([H|(e' & prefix & _ & S & ->)] & _); [congruence|].
    revert S. unfold sliceTo. destruct (20 <=? cap data); [|discriminate].
    intros S. f_equal. congruence. }
  rewrite (F _ _ _ _ _ _ R1 C1 P1), (F _ _ _ _ _ _ R2 C2 P2).
  split; [apply EncodeToString_inj|now intros ->].
Qed.

(** Two files without [info] that differ after their first 20 bytes. *)
Lemma fallback_hash_is_prefix_witness :
  noInfoFile <> noInfoTwin /\
  TorrentInfo_InfoHash (recordOf (oneFile (exactly noInfoFile)) aPath)
  = TorrentInfo_InfoHash (recordOf (oneFile (exactly noInfoTwin)) aPath).
Proof.
  split; [vm_compute; discriminate|].
  apply (@fallback_hash_is_prefix
           (oneFile (exactly noInfoFile)) (Unix 0 0) aPath (exactly noInfoFile)
           ErrNoInfo _
           (oneFile (exactly noInfoTwin)) (Unix 0 0) aPath (exactly noInfoTwin)
           ErrNoInfo _);
    vm_compute; reflexivity.
Defined.

(** ** Escaping and the last element of a path *)

Lemma upperhex_kept n : n < 16 -> URL.shouldEscape (URL.upperhex n) = false.
Proof.
  intros H. do 16 (destruct n as [|n]; [reflexivity|]). lia.
Qed.

Lemma hexValue_upperhex n : n < 16 -> hexValue (URL.upperhex n) = n.
Proof.
  intros H. do 16 (destruct n as [|n]; [reflexivity|]). lia.
Qed.

Lemma escapeByte_safe c : forallb urlSafe (URL.escapeByte c) = true.
Proof.
  unfold URL.escapeByte. pose proof (code_lt_256 c).
  destruct (Ascii.eqb c " "); [reflexivity|].
  destruct (URL.shouldEscape c) eqn:E.
  - cbn [forallb]. unfold urlSafe at 2 3.
    rewrite !upperhex_kept; [reflexivity| |].
    + apply Nat.mod_upper_bound. lia.
    + apply Nat.Div0.div_lt_upper_bound. lia.
  - cbn [forallb]. unfold urlSafe. now rewrite E.
Qed.

Lemma QueryEscape_safe s : forallb urlSafe (URL.QueryEscape s) = true.
Proof.
  unfold URL.QueryEscape. induction s as [|c s IH]; [reflexivity|].
  cbn [flat_map]. rewrite forallb_app, escapeByte_safe. exact IH.
Qed.

Lemma unescaped_escapeByte c rest :
  unescaped (URL.escapeByte c ++ rest) = c :: unescaped rest.
Proof.
  unfold URL.escapeByte. pose proof (code_lt_256 c).
  destruct (Ascii.eqb c " ") eqn:Es.
  - apply Ascii.eqb_eq in Es. subst c. reflexivity.
  - destruct (URL.shouldEscape c) eqn:E.
    + cbn [app unescaped]. change (Ascii.eqb "%" "%") with true. cbv iota.
      rewrite !hexValue_upperhex.
      * rewrite <- Nat.div_mod_eq. unfold code. now rewrite ascii_nat_embedding.
      * apply Nat.mod_upper_bound. lia.
      * apply Nat.Div0.div_lt_upper_bound. lia.
    + cbn [app unescaped].
      destruct (Ascii.eqb c "%") eqn:E1;
        [apply Ascii.eqb_eq in E1; subst c; discriminate|].
      destruct (Ascii.eqb c "+") eqn:E2;
        [apply Ascii.eqb_eq in E2; subst c; discriminate|].
      reflexivity.
Qed.

Lemma unescaped_QueryEscape s : unescaped (URL.QueryEscape s) = s.
Proof.
  unfold URL.QueryEscape. induction s as [|c s IH]; [reflexivity|].
  cbn [flat_map]. now rewrite unescaped_escapeByte, IH.
Qed.

Lemma QueryEscape_inj a b : URL.QueryEscape a = URL.QueryEscape b -> a = b.
Proof.
  intros H. apply (f_equal unescaped) in H.
  now rewrite !unescaped_QueryEscape in H.
Qed.

Lemma QueryEscape_length s : length s <= length (URL.QueryEscape s).
Proof.
  unfold URL.QueryEscape. induction s as [|c s IH]; [reflexivity|].
  cbn [flat_map]. rewrite length_app.
  set (n := length (flat_map URL.escapeByte s)) in *. unfold URL.escapeByte.
  destruct (Ascii.eqb c " "); [simpl; lia|].
  destruct (URL.shouldEscape c); simpl; lia.
Qed.

Lemma QueryEscape_plain s :
  URL.QueryEscape s = s <->
  forallb (fun c => negb (URL.shouldEscape c)) s = true.
Proof.
  induction s as [|c s IH]; [now split|].
  change (URL.QueryEscape (c :: s)) with (URL.escapeByte c ++ URL.QueryEscape s).
  cbn [forallb]. rewrite andb_true_iff, negb_true_iff, <- IH.
  pose proof (QueryEscape_length s) as L. unfold URL.escapeByte.
  destruct (Ascii.eqb c " ") eqn:Es.
  - apply Ascii.eqb_eq in Es. subst c. split; [discriminate|].
    intros [H _]. discriminate.
  - destruct (URL.shouldEscape c) eqn:E.
    + split; [|intros [H _]; discriminate].
      intros H. apply (f_equal (@length _)) in H. simpl in H. lia.
    + cbn [app]. split.
      * intros H. apply cons_eq in H as [_ H]. auto.
      * intros [_ ->]. reflexivity.
Qed.

Lemma stripTrailing_plain name :
  existsb Filepath.isSep name = false -> Filepath.stripTrailing name = name.
Proof.
  induction name as [|c t IH]; [reflexivity|].
  cbn [existsb Filepath.stripTrailing]. rewrite orb_false_iff. intros [C T].
  rewrite (IH T). destruct t; [now rewrite C|reflexivity].
Qed.

Lemma stripTrailing_app p name :
  name <> [] -> existsb Filepath.isSep name = false ->
  Filepath.stripTrailing (p ++ name) = p ++ name.
Proof.
  intros N S. induction p as [|c p IH].
  - now apply stripTrailing_plain.
  - cbn [app Filepath.stripTrailing]. rewrite IH.
    destruct (p ++ name) eqn:E; [|reflexivity].
    apply app_eq_nil in E as [_ E]. contradiction.
Qed.

Lemma lastElement_join dir name :
  existsb Filepath.isSep name = false ->
  Filepath.lastElement (dir ++ "/"%char :: name) = name.
Proof.
  intros S. induction dir as [|c dir IH].
  - cbn [app Filepath.lastElement]. now rewrite S.
  - cbn [app Filepath.lastElement]. rewrite existsb_app. cbn [existsb].
    change (Filepath.isSep "/") with true.
    now rewrite orb_true_l, orb_true_r.
Qed.

Lemma Base_join dir name :
  name <> [] -> existsb Filepath.isSep name = false ->
  Filepath.Base (dir ++ str "/" ++ name) = name.
Proof.
  intros N S. change (str "/" ++ name) with ("/"%char :: name).
  unfold Filepath.Base.
  replace (Filepath.stripTrailing (dir ++ "/"%char :: name))
    with (dir ++ "/"%char :: name).
  - rewrite lastElement_join by assumption.
    destruct (dir ++ "/"%char :: name) eqn:E.
    + apply app_eq_nil in E as [_ E]. discriminate.
    + destruct name; [contradiction|reflexivity].
  - symmetry. change (dir ++ "/"%char :: name) with (dir ++ ["/"%char] ++ name).
    rewrite app_assoc. now apply stripTrailing_app.
Qed.

(** ** The Torznab feed *)

Lemma items_loop {A B} (f : A -> B) l acc :
  fold_left (fun items x => items ++ [f x]) l acc = acc ++ map f l.
Proof.
  revert acc. induction l as [|x l IH]; intros acc; simpl.
  - now rewrite app_nil_r.
  - now rewrite IH, <- app_assoc.
Qed.

Lemma torznabItem_fields h s torrent :
  TorznabItem_Title (torznabItem h s torrent) = TorrentInfo_Name torrent /\
  TorznabItem_Description (torznabItem h s torrent) = TorrentInfo_Comment torrent /\
  TorznabItem_GUID (torznabItem h s torrent) = TorrentInfo_InfoHash torrent /\
  TorznabItem_Size (torznabItem h s torrent) = TorrentInfo_Size torrent /\
  TorznabItem_PubDate (torznabItem h s torrent)
  = FormatRFC1123Z h (TorrentInfo_CreatedDate torrent) /\
  TorznabItem_Link (torznabItem h s torrent)
  = baseURL s ++ str "/torrent/"
    ++ URL.QueryEscape (Filepath.Base (TorrentInfo_FilePath torrent)) /\
  TorznabEnclosure_URL (TorznabItem_Enclosure (torznabItem h s torrent))
  = TorznabItem_Link (torznabItem h s torrent) /\
  TorznabEnclosure_Length (TorznabItem_Enclosure (torznabItem h s torrent))
  = TorrentInfo_Size torrent.
Proof.
  unfold torznabItem. destruct (TorrentInfo_WebSeeds torrent); simpl; auto 10.
Qed.

(** X10: the feed of a search holds one item for each record the search
    finds, in the order of the search: the item's title, description,
    GUID and size are the record's name, comment, infoHash and size,
    and its enclosure repeats its link and its size; the channel links
    to the base URL; the answer is sent as [application/xml]. *)
Theorem feed_one_item_per_hit :
  forall env h s w query,
  exists response,
    Body (handleTorznabSearch env h s w query) = Body w ++ [EncodedXML response] /\
    map_get (str "Content-Type") (Header (handleTorznabSearch env h s w query))
    = Some (str "application/xml") /\
    TorznabChannel_Link (TorznabResponse_Channel response) = baseURL s /\
    map TorznabItem_Title (TorznabChannel_Items (TorznabResponse_Channel response))
    = map TorrentInfo_Name (SearchTorrents env (torrentManager s) query) /\
    map TorznabItem_Description
        (TorznabChannel_Items (TorznabResponse_Channel response))
    = map TorrentInfo_Comment (SearchTorrents env (torrentManager s) query) /\
    map TorznabItem_GUID (TorznabChannel_Items (TorznabResponse_Channel response))
    = map TorrentInfo_InfoHash (SearchTorrents env (torrentManager s) query) /\
    map TorznabItem_Size (TorznabChannel_Items (TorznabResponse_Channel response))
    = map TorrentInfo_Size (SearchTorrents env (torrentManager s) query) /\
    Forall (fun item =>
              TorznabEnclosure_URL (TorznabItem_Enclosure item)
              = TorznabItem_Link item /\
              TorznabEnclosure_Length (TorznabItem_Enclosure item)
              = TorznabItem_Size item)
           (TorznabChannel_Items (TorznabResponse_Channel response)).
Proof.
  intros env h s w query. unfold handleTorznabSearch. eexists.
  split; [reflexivity|].
  split; [cbn [Send WriteHeader SetHeader Header]; apply map_get_set_same|].
  cbn [TorznabResponse_Channel TorznabChannel_Link TorznabChannel_Items].
  rewrite items_loop. cbn [app].
  generalize (SearchTorrents env (torrentManager s) query). intros hits.
  rewrite !map_map.
  split; [reflexivity|].
  split; [apply map_ext; intros t; apply torznabItem_fields|].
  split; [apply map_ext; intros t; apply torznabItem_fields|].
  split; [apply map_ext; intros t; apply torznabItem_fields|].
  split; [apply map_ext; intros t; apply torznabItem_fields|].
  apply Forall_forall. intros item I. apply in_map_iff in I as (t & <- & _).
  destruct (torznabItem_fields h s t) as (_ & _ & _ & -> & _ & _ & -> & ->).
  auto.
Qed.

(** The feed of a search for [q]. *)
Lemma feed_one_item_per_hit_witness :
  exists response,
    Body (handleTorznabSearch twoGood plainHost (localServer twoGood) NewRecorder
            (str "q"))
    = Body NewRecorder ++ [EncodedXML response] /\
    map TorznabItem_Title (TorznabChannel_Items (TorznabResponse_Channel response))
    = [str "q"].
Proof.
  destruct (feed_one_item_per_hit twoGood plainHost (localServer twoGood)
              NewRecorder (str "q")) as (response & B & _ & _ & T & _).
  exists response. split; [exact B|].
  refine (eq_trans T _). vm_compute; reflexivity.
Defined.

Lemma torznabItem_attributes h s torrent :
  TorznabItem_Attributes (torznabItem h s torrent)
  = [ {| TorznabAttr_Name := str "category"; TorznabAttr_Value := str "7000" |};
      {| TorznabAttr_Name := str "size";
         TorznabAttr_Value := FormatInt (TorrentInfo_Size torrent) |};
      {| TorznabAttr_Name := str "seeders"; TorznabAttr_Value := str "1" |};
      {| TorznabAttr_Name := str "peers"; TorznabAttr_Value := str "1" |} ]
    ++ match TorrentInfo_WebSeeds torrent with
       | [] => []
       | first :: _ =>
           [ {| TorznabAttr_Name := str "magneturl";
                TorznabAttr_Value :=
                  str "magnet:?xt=urn:btih:" ++ TorrentInfo_InfoHash torrent
                  ++ str "&dn=" ++ URL.QueryEscape (TorrentInfo_Name torrent)
                  ++ str "&ws=" ++ URL.QueryEscape first |} ]
       end.
Proof.
  unfold torznabItem. destruct (TorrentInfo_WebSeeds torrent); reflexivity.
Qed.

(** X11: the item of a record that was built from a file carries its
    size twice: as its [Size] and as the [size] attribute, whose decimal
    digits read back (as a 64-bit integer) to that same size; it also
    bears the category 7000 and one seeder and one peer. *)
Theorem size_attribute_reads_back :
  forall w now filePath rec h s,
    parseTorrentFile w now filePath = Ok rec ->
    exists digits,
      attr (str "size") (TorznabItem_Attributes (torznabItem h s rec))
      = Some digits /\
      ParseInt digits 64 = Ok (TorznabItem_Size (torznabItem h s rec)) /\
      attr (str "category") (TorznabItem_Attributes (torznabItem h s rec))
      = Some (str "7000") /\
      attr (str "seeders") (TorznabItem_Attributes (torznabItem h s rec))
      = Some (str "1") /\
      attr (str "peers") (TorznabItem_Attributes (torznabItem h s rec))
      = Some (str "1").
Proof.
  intros w now filePath rec h s P. apply parseTorrentFile_int64 in P.
  rewrite torznabItem_attributes.
  destruct (torznabItem_fields h s rec) as (_ & _ & _ & -> & _).
  exists (FormatInt (TorrentInfo_Size rec)).
  split; [reflexivity|]. split; [now apply ParseInt_FormatInt|].
  repeat split; reflexivity.
Qed.

(** The item of the multi-file torrent. *)
Lemma size_attribute_reads_back_witness :
  exists digits,
    attr (str "size")
         (TorznabItem_Attributes (torznabItem plainHost (localServer twoGood) recordB))
    = Some digits /\
    ParseInt digits 64
    = Ok (TorznabItem_Size (torznabItem plainHost (localServer twoGood) recordB)) /\
    attr (str "category")
         (TorznabItem_Attributes (torznabItem plainHost (localServer twoGood) recordB))
    = Some (str "7000") /\
    attr (str "seeders")
         (TorznabItem_Attributes (torznabItem plainHost (localServer twoGood) recordB))
    = Some (str "1") /\
    attr (str "peers")
         (TorznabItem_Attributes (torznabItem plainHost (localServer twoGood) recordB))
    = Some (str "1").
Proof.
  apply (@size_attribute_reads_back twoGood (Unix 0 0) (str "./torrents/b.torrent")).
  vm_compute; reflexivity.
Defined.

(** X12: an item bears a [magneturl] attribute exactly when its record
    has a web seed; the link then names the record's infoHash, its name
    and the first web seed only, the last two escaped: what stands for
    them holds no byte that [url.QueryEscape] escapes, and reads back
    to the name and to the seed. *)
Theorem magnet_link_of_first_seed :
  forall h s torrent,
    (TorrentInfo_WebSeeds torrent = [] ->
     attr (str "magneturl") (TorznabItem_Attributes (torznabItem h s torrent))
     = None /\
     length (TorznabItem_Attributes (torznabItem h s torrent)) = 4) /\
    (forall first others,
       TorrentInfo_WebSeeds torrent = first :: others ->
       length (TorznabItem_Attributes (torznabItem h s torrent)) = 5 /\
       exists dn ws,
         attr (str "magneturl") (TorznabItem_Attributes (torznabItem h s torrent))
         = Some (str "magnet:?xt=urn:btih:" ++ TorrentInfo_InfoHash torrent
                 ++ str "&dn=" ++ dn ++ str "&ws=" ++ ws) /\
         forallb urlSafe dn = true /\ forallb urlSafe ws = true /\
         unescaped dn = TorrentInfo_Name torrent /\ unescaped ws = first).
Proof.
  intros h s torrent. rewrite torznabItem_attributes. split.
  - intros ->. split; reflexivity.
  - intros first others ->. split; [reflexivity|].
    exists (URL.QueryEscape (TorrentInfo_Name torrent)), (URL.QueryEscape first).
    split; [reflexivity|].
    rewrite !QueryEscape_safe, !unescaped_QueryEscape. auto.
Qed.

(** The item of a record with two web seeds. *)
Lemma magnet_link_of_first_seed_witness :
  length (TorznabItem_Attributes (torznabItem plainHost (localServer twoGood) recordB))
  = 5 /\
  exists dn ws,
    attr (str "magneturl")
         (TorznabItem_Attributes (torznabItem plainHost (localServer twoGood) recordB))
    = Some (str "magnet:?xt=urn:btih:" ++ TorrentInfo_InfoHash recordB
            ++ str "&dn=" ++ dn ++ str "&ws=" ++ ws) /\
    forallb urlSafe dn = true /\ forallb urlSafe ws = true /\
    unescaped dn = TorrentInfo_Name recordB /\ unescaped ws = str "http://x".
Proof.
  apply (proj2 (magnet_link_of_first_seed plainHost (localServer twoGood) recordB)
           (str "http://x") [str "http://y"]).
  vm_compute; reflexivity.
Defined.

(** X13: the link of an item is the base URL, [/torrent/] and the
    escaped last element of the record's file path, so two items of one
    server with the same link are of files with the same name; the link
    spells the file name as it is exactly when the name holds only
    letters, digits and [-_.~]; and for a path joined with a slash from
    a directory and a name without slash, that last element is the
    name. *)
Theorem link_names_the_file :
  forall h s torrent,
    (forall other,
       TorznabItem_Link (torznabItem h s torrent)
       = TorznabItem_Link (torznabItem h s other) ->
       Filepath.Base (TorrentInfo_FilePath torrent)
       = Filepath.Base (TorrentInfo_FilePath other)) /\
    (TorznabItem_Link (torznabItem h s torrent)
     = baseURL s ++ str "/torrent/" ++ Filepath.Base (TorrentInfo_FilePath torrent)
     <-> forallb (fun c => negb (URL.shouldEscape c))
                 (Filepath.Base (TorrentInfo_FilePath torrent)) = true) /\
    (forall dir name,
       name <> [] -> existsb Filepath.isSep name = false ->
       TorrentInfo_FilePath torrent = dir ++ str "/" ++ name ->
       TorznabItem_Link (torznabItem h s torrent)
       = baseURL s ++ str "/torrent/" ++ URL.QueryEscape name).
Proof.
  intros h s torrent.
  destruct (torznabItem_fields h s torrent) as (_ & _ & _ & _ & _ & -> & _).
  split; [|split].
  - intros other.
    destruct (torznabItem_fields h s other) as (_ & _ & _ & _ & _ & -> & _).
    intros H. apply app_inv_head in H. apply app_inv_head in H.
    now apply QueryEscape_inj.
  - rewrite <- QueryEscape_plain. split.
    + intros H. apply app_inv_head in H. now apply app_inv_head in H.
    + now intros ->.
  - intros dir name N S ->. now rewrite Base_join.
Qed.

(** The link of [a.torrent]. *)
Lemma link_names_the_file_witness :
  TorznabItem_Link (torznabItem plainHost (localServer twoGood) recordA)
  = str "http://localhost:8080/torrent/a.torrent".
Proof.
  refine (eq_trans
            (proj2 (proj2 (link_names_the_file plainHost (localServer twoGood) recordA))
               (str "./torrents") (str "a.torrent") _ _ _) _).
  - discriminate.
  - reflexivity.
  - vm_compute; reflexivity.
  - vm_compute; reflexivity.
Defined.

(** ** The handlers *)

Lemma served_Error w msg code : served (Error w msg code) = served w.
Proof.
  unfold served, Error, Send. cbn [Body WriteHeader SetHeader].
  rewrite flat_map_app. simpl. now rewrite app_nil_r.
Qed.

Lemma Status_Error w msg code :
  Status w = None -> Status (Error w msg code) = Some code.
Proof.
  intros H. unfold Error, Send. cbn [Status WriteHeader SetHeader]. now rewrite H.
Qed.

(** X14: the download handler answers 404 when [os.Stat] says the file
    does not exist, whatever its name; 400 when it may exist and the
    lowered name does not end in [.torrent]; and otherwise hands the
    joined path to [http.ServeFile] as an attachment of type
    [application/x-bittorrent].  So it never serves a file whose name
    lacks the suffix, and serves no file but the one named. *)
Theorem download_only_torrent_files :
  forall env h s w r filename,
    Status w = None ->
    map_get (str "filename") (Vars r) = Some filename ->
    (Stat h (Join env (torrentsDir (torrentManager s)) filename) = StatNotExist ->
     Status (handleTorrentDownload env h s w r) = Some 404 /\
     served (handleTorrentDownload env h s w r) = served w) /\
    (Stat h (Join env (torrentsDir (torrentManager s)) filename) <> StatNotExist ->
     Strings.HasSuffix (ToLower env filename) (str ".torrent") = false ->
     Status (handleTorrentDownload env h s w r) = Some 400 /\
     served (handleTorrentDownload env h s w r) = served w) /\
    (Stat h (Join env (torrentsDir (torrentManager s)) filename) <> StatNotExist ->
     Strings.HasSuffix (ToLower env filename) (str ".torrent") = true ->
     served (handleTorrentDownload env h s w r)
     = served w ++ [Join env (torrentsDir (torrentManager s)) filename] /\
     map_get (str "Content-Type") (Header (handleTorrentDownload env h s w r))
     = Some (str "application/x-bittorrent") /\
     map_get (str "Content-Disposition") (Header (handleTorrentDownload env h s w r))
     = Some (quoted "attachment; filename='" ++ filename ++ quoted "'")).
Proof.
  intros env h s w r filename W V. unfold handleTorrentDownload. rewrite V.
  split; [|split].
  - intros ->. unfold NotFound. now rewrite Status_Error, served_Error.
  - intros N ->. cbn [negb].
    destruct (Stat h _); [|contradiction|];
      now rewrite Status_Error, served_Error.
  - intros N ->. cbn [negb].
    assert (G : forall w0,
               served (ServeFile w0 (Join env (torrentsDir (torrentManager s)) filename))
               = served w0 ++ [Join env (torrentsDir (torrentManager s)) filename]).
    { intros w0. unfold served, ServeFile. cbn [Body].
      now rewrite flat_map_app. }
    destruct (Stat h _); [|contradiction|];
      (split; [rewrite G; reflexivity|]);
      cbn [ServeFile SetHeader Header];
      (split; [|apply map_get_set_same]);
      (rewrite map_get_set_other by discriminate; apply map_get_set_same).
Qed.

(** A name that [os.Stat] does not find, and one that it finds. *)
Lemma download_only_torrent_files_witness :
  (Status (handleTorrentDownload twoGood plainHost (localServer twoGood) NewRecorder
             (asking "filename" "missing.torrent")) = Some 404 /\
   served (handleTorrentDownload twoGood plainHost (localServer twoGood) NewRecorder
             (asking "filename" "missing.torrent")) = served NewRecorder) /\
  served (handleTorrentDownload twoGood plainHost (localServer twoGood) NewRecorder
            (asking "filename" "a.torrent"))
  = served NewRecorder ++ [str "./torrents/a.torrent"].
Proof.
  split.
  - apply (proj1 (@download_only_torrent_files twoGood plainHost (localServer twoGood)
                    NewRecorder (asking "filename" "missing.torrent")
                    (str "missing.torrent") eq_refl eq_refl)).
    vm_compute; reflexivity.
  - apply (proj2 (proj2 (@download_only_torrent_files twoGood plainHost
                           (localServer twoGood) NewRecorder
                           (asking "filename" "a.torrent")
                           (str "a.torrent") eq_refl eq_refl))).
    + vm_compute; discriminate.
    + vm_compute; reflexivity.
Defined.

Lemma LoadTorrents_dir w tm : torrentsDir (snd (LoadTorrents w tm)) = torrentsDir tm.
Proof.
  unfold LoadTorrents. destruct (ReadDir w (torrentsDir tm)); [|reflexivity].
  now destruct (loadLoop w (torrentsDir tm) 0 l []).
Qed.

(** X15: every record of the catalog a scan leaves can be asked for by
    the name of its directory entry: the record's file path is the
    directory joined with that name, and the download handler, given the
    name, never answers 400 for it; unless [os.Stat] says the file is
    gone, it hands the record's file path to [http.ServeFile]. *)
Theorem cataloged_files_are_served :
  forall env h tm files base w r rec,
    ReadDir env (torrentsDir tm) = Some files ->
    In rec (GetTorrents (snd (LoadTorrents env tm))) ->
    Status w = None ->
    exists file,
      In file files /\
      TorrentInfo_FilePath rec = Join env (torrentsDir tm) (FileInfo_Name file) /\
      (map_get (str "filename") (Vars r) = Some (FileInfo_Name file) ->
       Status (handleTorrentDownload env h
                 (NewAPIServer (snd (LoadTorrents env tm)) base) w r) <> Some 400 /\
       (Stat h (TorrentInfo_FilePath rec) <> StatNotExist ->
        served (handleTorrentDownload env h
                  (NewAPIServer (snd (LoadTorrents env tm)) base) w r)
        = served w ++ [TorrentInfo_FilePath rec])).
Proof.
  intros env h tm files base w r rec R I W.
  destruct (LoadTorrents_paths env tm R) as (kept & K & E).
  apply (in_map TorrentInfo_FilePath) in I. rewrite E in I.
  apply in_map_iff in I as (file & P & I).
  apply (@Subseq_In _ _ _ _ K) in I. apply filter_In in I as [I C].
  exists file. split; [exact I|]. split; [now symmetry|].
  intros V. rewrite <- P.
  apply andb_true_iff in C as [_ C].
  unfold handleTorrentDownload. rewrite V. cbn [NewAPIServer torrentManager].
  rewrite LoadTorrents_dir, C. cbn [negb].
  destruct (Stat h (Join env (torrentsDir tm) (FileInfo_Name file))) eqn:S.
  - split.
    + cbn [ServeFile SetHeader Status]. rewrite W. discriminate.
    + intros _. unfold served, ServeFile. cbn [Body SetHeader].
      now rewrite flat_map_app.
  - split; [|contradiction].
    unfold NotFound. rewrite Status_Error by assumption. discriminate.
  - split.
    + cbn [ServeFile SetHeader Status]. rewrite W. discriminate.
    + intros _. unfold served, ServeFile. cbn [Body SetHeader].
      now rewrite flat_map_app.
Qed.

(** The first record of a scanned directory, asked for by name. *)
Lemma cataloged_files_are_served_witness :
  exists file,
    In file (listingOf twoGood (str "./torrents")) /\
    TorrentInfo_FilePath recordA
    = Join twoGood (str "./torrents") (FileInfo_Name file) /\
    (map_get (str "filename") (Vars (asking "filename" "a.torrent"))
     = Some (FileInfo_Name file) ->
     Status (handleTorrentDownload twoGood plainHost
               (NewAPIServer (scanned twoGood) (str "http://localhost:8080"))
               NewRecorder (asking "filename" "a.torrent")) <> Some 400 /\
     (Stat plainHost (TorrentInfo_FilePath recordA) <> StatNotExist ->
      served (handleTorrentDownload twoGood plainHost
                (NewAPIServer (scanned twoGood) (str "http://localhost:8080"))
                NewRecorder (asking "filename" "a.torrent"))
      = served NewRecorder ++ [TorrentInfo_FilePath recordA])).
Proof.
  apply (@cataloged_files_are_served twoGood plainHost
           (NewTorrentManager (str "./torrents"))
           (listingOf twoGood (str "./torrents"))).
  - vm_compute; reflexivity.
  - assert (E : GetTorrents (snd (LoadTorrents twoGood
                                    (NewTorrentManager (str "./torrents"))))
                = [recordA; recordB]) by (vm_compute; reflexivity).
    rewrite E. left. reflexivity.
  - reflexivity.
Defined.

(** X16: a refresh whose directory listing fails answers 500 and leaves
    the manager as it was; any other refresh that comes to its end
    answers with the JSON object whose [count] is the number of records
    of the catalog the scan has just left. *)
Theorem refresh_reports_the_new_catalog :
  forall env h s w,
    Status w = None ->
    (ReadDir env (torrentsDir (torrentManager s)) = None ->
     exists w',
       handleRefresh env h s w = (Ok w', torrentManager s) /\
       Status w' = Some 500 /\
       Body w' = Body w ++ [Written (str "Error refreshing torrents: "
                                      ++ ErrorText h ErrReadDir
                                      ++ [ascii_of_nat 10])]) /\
    (forall w' tm,
       ReadDir env (torrentsDir (torrentManager s)) <> None ->
       handleRefresh env h s w = (Ok w', tm) ->
       tm = snd (LoadTorrents env (torrentManager s)) /\
       Status w' = Some 200 /\
       map_get (str "Content-Type") (Header w') = Some (str "application/json") /\
       Body w'
       = Body w ++
         [EncodedJSON
            [ (str "status", JString (str "success"));
              (str "message", JString (str "Torrents refreshed successfully"));
              (str "count", JInt (Z.of_nat (length (GetTorrents tm)))) ]]).
Proof.
  intros env h s w W. unfold handleRefresh. split.
  - intros R. unfold LoadTorrents. rewrite R. eexists. split; [reflexivity|].
    split; [now apply Status_Error|].
    unfold Error, Send. cbn [Body WriteHeader SetHeader].
    now rewrite <- app_assoc.
  - intros w' tm R. unfold LoadTorrents.
    destruct (ReadDir env (torrentsDir (torrentManager s))) as [files|];
      [|contradiction].
    pose proof (loadLoop_no_error env (torrentsDir (torrentManager s)) files 0 [])
      as NE.
    destruct (loadLoop env (torrentsDir (torrentManager s)) 0 files [])
      as [[[]|e| |] ts]; try discriminate;
      [|exfalso; now apply (NE e)].
    intros [= <- <-]; cbn [snd].
    + split; [reflexivity|]. cbn [Send WriteHeader SetHeader Status Header Body].
      rewrite W. split; [reflexivity|]. split; [apply map_get_set_same|reflexivity].
Qed.

(** A refresh of a manager whose directory cannot be listed. *)
Lemma refresh_reports_the_new_catalog_witness :
  exists w',
    handleRefresh twoGood plainHost
      (NewAPIServer (NewTorrentManager (str "./elsewhere")) (str "http://localhost:8080"))
      NewRecorder
    = (Ok w', NewTorrentManager (str "./elsewhere")) /\
    Status w' = Some 500 /\
    Body w' = Body NewRecorder
              ++ [Written (str "Error refreshing torrents: "
                           ++ ErrorText plainHost ErrReadDir ++ [ascii_of_nat 10])].
Proof.
  apply (proj1 (@refresh_reports_the_new_catalog twoGood plainHost
                  (NewAPIServer (NewTorrentManager (str "./elsewhere"))
                     (str "http://localhost:8080"))
                  NewRecorder eq_refl)).
  vm_compute; reflexivity.
Defined.



(** X18: the Torznab endpoint answers the capabilities when [t] is
    [caps], whatever [q] and the catalog are, and answers a search for
    [q] for any other [t], a missing one and an unknown one alike; either
    way the answer is marked [application/xml], with status 200 when
    nothing was written before. *)
Theorem torznab_dispatch :
  forall env h s w r,
    (URL.Get (Query r) (str "t") = str "caps" ->
     handleTorznabAPI env h s w r = handleTorznabCaps s w) /\
    (URL.Get (Query r) (str "t") <> str "caps" ->
     handleTorznabAPI env h s w r
     = handleTorznabSearch env h s w (URL.Get (Query r) (str "q"))) /\
    map_get (str "Content-Type") (Header (handleTorznabAPI env h s w r))
    = Some (str "application/xml") /\
    (Status w = None -> Status (handleTorznabAPI env h s w r) = Some 200) /\
    served (handleTorznabAPI env h s w r) = served w.
Proof.
  intros env h s w r. unfold handleTorznabAPI.
  destruct (bytes_eqb (URL.Get (Query r) (str "t")) (str "caps")) eqn:E.
  - apply bytes_eqb_eq in E. split; [reflexivity|]. split; [congruence|].
    unfold handleTorznabCaps, served.
    cbn [Send WriteHeader SetHeader Header Status Body].
    split; [apply map_get_set_same|]. split; [now intros ->|].
    rewrite flat_map_app. simpl. now rewrite app_nil_r.
  - apply bytes_eqb_neq in E. split; [congruence|].
    assert (H : (if bytes_eqb (URL.Get (Query r) (str "t")) (str "search")
                 then handleTorznabSearch env h s w (URL.Get (Query r) (str "q"))
                 else handleTorznabSearch env h s w (URL.Get (Query r) (str "q")))
                = handleTorznabSearch env h s w (URL.Get (Query r) (str "q")))
      by (destruct (bytes_eqb _ (str "search")); reflexivity).
    rewrite H. split; [reflexivity|].
    unfold handleTorznabSearch, served.
    cbn [Send WriteHeader SetHeader Header Status Body].
    split; [apply map_get_set_same|]. split; [now intros ->|].
    rewrite flat_map_app. simpl. now rewrite app_nil_r.
Qed.

(** A request for the capabilities. *)
Lemma torznab_dispatch_witness :
  handleTorznabAPI twoGood plainHost (localServer twoGood) NewRecorder (asking "t" "caps")
  = handleTorznabCaps (localServer twoGood) NewRecorder.
Proof.
  apply (proj1 (torznab_dispatch twoGood plainHost (localServer twoGood) NewRecorder
                  (asking "t" "caps"))).
  reflexivity.
Defined.

(** ** The info hash and the bytes of the file *)

(** X19: for a file that is the encoding of a dictionary, the infoHash
    is the SHA-1 of the bytes of the [info] value as they stand in the
    file, after its key. *)
Theorem infoHash_of_the_bytes_in_the_file :
  forall m info,
    representable (VDict m) = true ->
    map_get (str "info") m = Some info ->
    calculateInfoHash (exactly (encodeValue (VDict m)))
    = Ok (Hex.EncodeToString (SHA1.Sum (encodeValue info))) /\
    exists before after,
      encodeValue (VDict m)
      = before ++ encodeString (str "info") ++ encodeValue info ++ after.
Proof.
  intros m info R G.
  assert (ND : NoDup (keys m)).
  { apply nodupb_NoDup. cbn [representable] in R.
    now apply andb_true_iff in R as [R _]. }
  assert (G' : map_get (str "info") (sortKeys m) = Some info)
    by (now rewrite <- (@map_get_perm _ _ _ _ (sortKeys_perm m) ND)).
  split.
  - assert (D : DecodeMap (contents (exactly (encodeValue (VDict m))))
                 = Ok (normEntries (sortKeys m))).
    { unfold contents, exactly. cbv beta iota delta [len array].
      rewrite firstn_all. apply DecodeMap_encode. exact R. }
    assert (G2 : map_get (str "info") (normEntries (sortKeys m))
                 = Some (norm info)).
    { unfold normEntries. rewrite map_get_map, G'. reflexivity. }
    rewrite (@calculateInfoHash_Ok _ _ _ D G2).
    rewrite encodeValue_norm. reflexivity.
  - apply map_get_Some_In, in_split in G' as (l1 & l2 & E).
    rewrite encodeValue_dict, E. unfold encodeEntries.
    rewrite map_app, flat_map_app. cbn [map flat_map fst snd].
    unfold encodeEntry at 2. cbn [fst snd].
    exists ("d"%char ::
            flat_map encodeEntry
              (map (fun kv => (fst kv, encodeValue (snd kv))) l1)),
           (flat_map encodeEntry
              (map (fun kv => (fst kv, encodeValue (snd kv))) l2) ++ ["e"%char]).
    cbn [app]. f_equal. rewrite <- !app_assoc. reflexivity.
Qed.

(** A dictionary of two entries, given with [info] first. *)
Lemma infoHash_of_the_bytes_in_the_file_witness :
  calculateInfoHash
    (exactly (encodeValue
                (VDict [(str "info", VDict [(str "name", VString (str "a"))]);
                        (str "announce", VString (str "x"))])))
  = Ok (Hex.EncodeToString
          (SHA1.Sum (encodeValue (VDict [(str "name", VString (str "a"))])))) /\
  exists before after,
    encodeValue
      (VDict [(str "info", VDict [(str "name", VString (str "a"))]);
              (str "announce", VString (str "x"))])
    = before ++ encodeString (str "info")
      ++ encodeValue (VDict [(str "name", VString (str "a"))]) ++ after.
Proof.
  apply infoHash_of_the_bytes_in_the_file; reflexivity.
Defined.

(** ** Files that are no dictionary *)

(** X20: a file that is empty, or whose first byte is not [d], gets no
    record: building it returns a decoding error (the end of the input,
    for an empty file). *)
Theorem non_dictionary_rejected :
  forall w now filePath data,
    ReadFile w filePath = Some data ->
    (contents data = [] ->
     parseTorrentFile w now filePath = Err (ErrDecode ErrEOF)) /\
    (forall c rest,
       contents data = c :: rest -> c <> "d"%char ->
       exists e, parseTorrentFile w now filePath = Err (ErrDecode e)).
Proof.
  intros w now filePath data R. unfold parseTorrentFile. rewrite R. split.
  - intros ->. reflexivity.
  - intros c rest E N.
    destruct (DecodeTorrentMetaInfo_returns (contents data)) as [[m M]|[e ->]];
      [exfalso|eauto].
    revert M. rewrite E. unfold DecodeTorrentMetaInfo, DecodeBytes, intoStruct.
    generalize (fuelFor (c :: rest)). intros F.
    assert (Ed : Ascii.eqb c "d" = false) by (now apply Ascii.eqb_neq).
    rewrite Ed.
    assert (H : forall (r : result (TorrentMetaInfo * bytes)),
               (forall x, r <> Ok x) ->
               ('(x, _) <- r ;; Ok x) <> Ok m).
    { intros [[x r0]| | |] H; simpl; try discriminate. now destruct (H (x, r0)). }
    destruct (Ascii.eqb c "i"); [apply H; intros x; apply mismatch_fails|].
    destruct (isDigit c); [apply H; intros x; apply mismatch_fails|].
    destruct (Ascii.eqb c "l"); apply H; intros x; apply mismatch_fails.
Qed.

(** An empty file, and a file that holds a list. *)
Lemma non_dictionary_rejected_witness :
  parseTorrentFile (oneFile (exactly [])) (Unix 0 0) aPath = Err (ErrDecode ErrEOF) /\
  exists e,
    parseTorrentFile (oneFile (exactly (str "l4:spame"))) (Unix 0 0) aPath
    = Err (ErrDecode e).
Proof.
  split.
  - apply (proj1 (@non_dictionary_rejected (oneFile (exactly [])) (Unix 0 0) aPath
                    (exactly []) eq_refl)).
    reflexivity.
  - apply (proj2 (@non_dictionary_rejected (oneFile (exactly (str "l4:spame")))
                    (Unix 0 0) aPath (exactly (str "l4:spame")) eq_refl)
             "l"%char (str "4:spame")).
    + reflexivity.
    + discriminate.
Defined.

(** ** Bytes after the dictionary *)

Lemma readBytes_junk d bs l r junk :
  readBytes d bs = Ok (l, r) -> readBytes d (bs ++ junk) = Ok (l, r ++ junk).
Proof.
  revert l r. induction bs as [|c bs IH]; intros l r; simpl; [discriminate|].
  destruct (Ascii.eqb c d); [now intros [= <- <-]|].
  destruct (readBytes d bs) as [[l0 r0]| | |]; simpl; try discriminate.
  intros [= <- <-]. now rewrite (IH _ _ eq_refl).
Qed.

Lemma decodeInt_junk bs n r junk :
  decodeInt bs = Ok (n, r) -> decodeInt (bs ++ junk) = Ok (n, r ++ junk).
Proof.
  unfold decodeInt.
  destruct (readBytes "e" bs) as [[digits r0]| | |] eqn:E; simpl; try discriminate.
  rewrite (readBytes_junk _ _ junk E). simpl.
  destruct (ParseInt digits 64); simpl; try discriminate.
  now intros [= <- <-].
Qed.

Lemma decodeString_junk bs s r junk :
  decodeString bs = Ok (s, r) -> decodeString (bs ++ junk) = Ok (s, r ++ junk).
Proof.
  unfold decodeString.
  destruct (readBytes ":" bs) as [[digits r0]| | |] eqn:E; simpl; try discriminate.
  rewrite (readBytes_junk _ _ junk E). simpl.
  destruct (ParseInt digits 32) as [l| | |]; simpl; try discriminate.
  destruct (l <? 0)%Z; [discriminate|].
  destruct (Nat.leb_spec (Z.to_nat l) (length r0)) as [L|L]; [|discriminate].
  intros [= <- <-]. rewrite length_app.
  destruct (Nat.leb_spec (Z.to_nat l) (length r0 + length junk)); [|lia].
  rewrite firstn_app, skipn_app.
  replace (Z.to_nat l - length r0) with 0 by lia.
  simpl. now rewrite app_nil_r.
Qed.

Lemma decodeInto_junk_all fuel :
  (forall bs v r, decodeInto fuel bs = Ok (v, r) ->
     forall fuel' junk, fuel <= fuel' ->
     decodeInto fuel' (bs ++ junk) = Ok (v, r ++ junk)) /\
  (forall bs l r, decodeList fuel bs = Ok (l, r) ->
     forall fuel' junk, fuel <= fuel' ->
     decodeList fuel' (bs ++ junk) = Ok (l, r ++ junk)) /\
  (forall bs m m' r, decodeDict fuel bs m = Ok (m', r) ->
     forall fuel' junk, fuel <= fuel' ->
     decodeDict fuel' (bs ++ junk) m = Ok (m', r ++ junk)).
Proof.
  induction fuel as [|f (IHv & IHl & IHd)].
  { repeat split; intros; discriminate. }
  split; [|split].
  - intros bs v r H [|f'] junk L; [lia|]. apply le_S_n in L.
    destruct bs as [|c rest]; [discriminate|]. cbn [app decodeInto] in *.
    revert H. destruct (Ascii.eqb c "i").
    { destruct (decodeInt rest) as [[n r0]| | |] eqn:E; simpl; try discriminate.
      intros [= <- <-]. now rewrite (decodeInt_junk _ junk E). }
    destruct (isDigit c).
    { destruct (decodeString (c :: rest)) as [[s r0]| | |] eqn:E;
        simpl; try discriminate.
      intros [= <- <-].
      change (c :: rest ++ junk) with ((c :: rest) ++ junk).
      now rewrite (decodeString_junk _ junk E). }
    destruct (Ascii.eqb c "l").
    { destruct (decodeList f rest) as [[l r0]| | |] eqn:E; simpl; try discriminate.
      intros [= <- <-]. now rewrite (IHl _ _ _ E _ junk L). }
    destruct (Ascii.eqb c "d"); [|discriminate].
    destruct (decodeDict f rest []) as [[m r0]| | |] eqn:E; simpl; try discriminate.
    intros [= <- <-]. now rewrite (IHd _ _ _ _ E _ junk L).
  - intros bs l r H [|f'] junk L; [lia|]. apply le_S_n in L.
    destruct bs as [|c rest]; [discriminate|]. cbn [app decodeList] in *.
    revert H. destruct (Ascii.eqb c "e"); [now intros [= <- <-]|].
    destruct (decodeInto f (c :: rest)) as [[v r1]| | |] eqn:E1;
      simpl; try discriminate.
    destruct (decodeList f r1) as [[vs r2]| | |] eqn:E2; simpl; try discriminate.
    intros [= <- <-].
    change (c :: rest ++ junk) with ((c :: rest) ++ junk).
    rewrite (IHv _ _ _ E1 _ junk L). simpl.
    now rewrite (IHl _ _ _ E2 _ junk L).
  - intros bs m m' r H [|f'] junk L; [lia|]. apply le_S_n in L.
    destruct bs as [|c rest]; [discriminate|]. cbn [app decodeDict] in *.
    revert H. destruct (Ascii.eqb c "e"); [now intros [= <- <-]|].
    destruct (decodeString (c :: rest)) as [[k r1]| | |] eqn:E1;
      simpl; try discriminate.
    destruct (decodeInto f r1) as [[v r2]| | |] eqn:E2; simpl; try discriminate.
    intros H.
    change (c :: rest ++ junk) with ((c :: rest) ++ junk).
    rewrite (decodeString_junk _ junk E1). simpl.
    rewrite (IHv _ _ _ E2 _ junk L). simpl.
    now apply IHd.
Qed.

Lemma intoInterface_robust : robust intoInterface.
Proof.
  intros fuel cur bs x r. unfold intoInterface.
  destruct (decodeInto fuel bs) as [[v r0]| | |] eqn:E; simpl; try discriminate.
  intros [= <- <-] fuel' junk L.
  now rewrite (proj1 (decodeInto_junk_all fuel) _ _ _ E _ junk L).
Qed.

Lemma intoInt64_robust : robust intoInt64.
Proof.
  intros fuel cur bs x r H fuel' junk _.
  apply intoInt64_inv in H as (rest & -> & H).
  cbn [app intoInt64]. change (Ascii.eqb "i" "i") with true. cbv iota.
  now apply decodeInt_junk.
Qed.

Lemma intoString_robust : robust intoString.
Proof.
  intros fuel cur bs x r. unfold intoString.
  destruct bs as [|c rest]; [discriminate|]. cbn [app].
  destruct (Ascii.eqb c "i"); [intros H; now apply mismatch_fails in H|].
  destruct (isDigit c); [|intros H; now apply mismatch_fails in H].
  intros H fuel' junk _.
  change (c :: rest ++ junk) with ((c :: rest) ++ junk).
  now apply decodeString_junk.
Qed.

Lemma intoMap_robust : robust intoMap.
Proof.
  intros fuel cur bs x r. unfold intoMap.
  destruct bs as [|c rest]; [discriminate|]. cbn [app].
  destruct (Ascii.eqb c "i"); [intros H; now apply mismatch_fails in H|].
  destruct (isDigit c); [intros H; now apply mismatch_fails in H|].
  destruct (Ascii.eqb c "l"); [intros H; now apply mismatch_fails in H|].
  destruct (Ascii.eqb c "d"); [|intros H; now apply mismatch_fails in H].
  intros H fuel' junk L.
  eapply (proj2 (proj2 (decodeInto_junk_all fuel))); eauto.
Qed.

Lemma fieldOf_robust {S T} (get : S -> T) set dec :
  robust dec -> robust (fieldOf get set dec).
Proof.
  intros R fuel cur bs x r. unfold fieldOf.
  destruct (dec fuel (get cur) bs) as [[y r0]| | |] eqn:E; simpl; try discriminate.
  intros [= <- <-] fuel' junk L. now rewrite (R _ _ _ _ _ E _ junk L).
Qed.

Lemma sliceLoop_robust {E} (zero : E) elem :
  robust elem ->
  forall fuel cur i bs x r,
    sliceLoop zero elem fuel cur i bs = Ok (x, r) ->
    forall fuel' junk, fuel <= fuel' ->
    sliceLoop zero elem fuel' cur i (bs ++ junk) = Ok (x, r ++ junk).
Proof.
  intros R. induction fuel as [|f IH]; intros cur i bs x r; [discriminate|].
  intros H [|f'] junk L; [lia|]. apply le_S_n in L.
  destruct bs as [|c rest]; [discriminate|]. cbn [app sliceLoop] in *.
  revert H. destruct (Ascii.eqb c "e"); [now intros [= <- <-]|].
  destruct (elem f (nth i cur zero) (c :: rest)) as [[y r1]| | |] eqn:E1;
    simpl; try discriminate.
  intros H. change (c :: rest ++ junk) with ((c :: rest) ++ junk).
  rewrite (R _ _ _ _ _ E1 _ junk L). simpl. now apply IH.
Qed.

Lemma intoSlice_robust {E} (zero : E) elem :
  robust elem -> robust (intoSlice zero elem).
Proof.
  intros R fuel cur bs x r. unfold intoSlice.
  destruct bs as [|c rest]; [discriminate|]. cbn [app].
  destruct (Ascii.eqb c "i"); [intros H; now apply mismatch_fails in H|].
  destruct (isDigit c); [intros H; now apply mismatch_fails in H|].
  destruct (Ascii.eqb c "l"); [|intros H; now apply mismatch_fails in H].
  intros H fuel' junk L. eapply sliceLoop_robust; eauto.
Qed.

Lemma structLoop_robust {S} (field : bytes -> option (decoder S)) :
  (forall k dec, field k = Some dec -> robust dec) ->
  forall fuel cur bs x r,
    structLoop field fuel cur bs = Ok (x, r) ->
    forall fuel' junk, fuel <= fuel' ->
    structLoop field fuel' cur (bs ++ junk) = Ok (x, r ++ junk).
Proof.
  intros R. induction fuel as [|f IH]; intros cur bs x r; [discriminate|].
  intros H [|f'] junk L; [lia|]. apply le_S_n in L.
  destruct bs as [|c rest]; [discriminate|]. cbn [app structLoop] in *.
  revert H. destruct (Ascii.eqb c "e"); [now intros [= <- <-]|].
  destruct (decodeString (c :: rest)) as [[k r1]| | |] eqn:E1;
    simpl; try discriminate.
  change (c :: rest ++ junk) with ((c :: rest) ++ junk).
  rewrite (decodeString_junk _ junk E1). simpl.
  destruct (field k) as [dec|] eqn:Ef.
  - destruct (dec f cur r1) as [[cur1 r2]| | |] eqn:E2; simpl; try discriminate.
    intros H. rewrite (R _ _ Ef _ _ _ _ _ E2 _ junk L). simpl. now apply IH.
  - destruct (decodeInto f r1) as [[v r2]| | |] eqn:E2; simpl; try discriminate.
    intros H. rewrite (proj1 (decodeInto_junk_all f) _ _ _ E2 _ junk L). simpl.
    now apply IH.
Qed.

Lemma intoStruct_robust {S} (field : bytes -> option (decoder S)) :
  (forall k dec, field k = Some dec -> robust dec) -> robust (intoStruct field).
Proof.
  intros R fuel cur bs x r. unfold intoStruct.
  destruct bs as [|c rest]; [discriminate|]. cbn [app].
  destruct (Ascii.eqb c "i"); [intros H; now apply mismatch_fails in H|].
  destruct (isDigit c); [intros H; now apply mismatch_fails in H|].
  destruct (Ascii.eqb c "l"); [intros H; now apply mismatch_fails in H|].
  destruct (Ascii.eqb c "d"); [|intros H; now apply mismatch_fails in H].
  intros H fuel' junk L. eapply structLoop_robust; eauto.
Qed.

Create HintDb robust.

#[local] Hint Resolve fieldOf_robust intoInt64_robust intoString_robust
  intoInterface_robust intoSlice_robust intoStruct_robust : robust.

Lemma FileDict_field_robust k dec : FileDict_field k = Some dec -> robust dec.
Proof.
  unfold FileDict_field.
  repeat (destruct (bytes_eqb k _); [intros [= <-]; auto with robust|]).
  discriminate.
Qed.

Lemma InfoDict_field_robust k dec : InfoDict_field k = Some dec -> robust dec.
Proof.
  pose proof FileDict_field_robust. unfold InfoDict_field.
  repeat (destruct (bytes_eqb k _); [intros [= <-]; auto with robust|]).
  discriminate.
Qed.

Lemma TorrentMetaInfo_field_robust k dec :
  TorrentMetaInfo_field k = Some dec -> robust dec.
Proof.
  pose proof InfoDict_field_robust. unfold TorrentMetaInfo_field.
  repeat (destruct (bytes_eqb k _); [intros [= <-]; auto with robust|]).
  discriminate.
Qed.

Lemma DecodeBytes_junk {T} (dec : decoder T) zero data junk x :
  robust dec ->
  DecodeBytes dec zero data = Ok x -> DecodeBytes dec zero (data ++ junk) = Ok x.
Proof.
  intros R. unfold DecodeBytes.
  destruct (dec (fuelFor data) zero data) as [[y r]| | |] eqn:E;
    simpl; try discriminate.
  intros [= <-].
  rewrite (R _ _ _ _ _ E (fuelFor (data ++ junk)) junk); [reflexivity|].
  unfold fuelFor. rewrite length_app. lia.
Qed.

(** X21: bytes that follow the top-level dictionary of a file are not
    looked at: a file that gives a record with a computed info hash, and
    the same file with any bytes added at its end, give the same record
    (each with the path it was read from). *)
Theorem trailing_bytes_ignored :
  forall w now filePath data w' filePath' data' junk rec h,
    ReadFile w filePath = Some data ->
    ReadFile w' filePath' = Some data' ->
    contents data' = contents data ++ junk ->
    parseTorrentFile w now filePath = Ok rec ->
    calculateInfoHash data = Ok h ->
    parseTorrentFile w' now filePath'
    = Ok {| TorrentInfo_Name := TorrentInfo_Name rec;
            TorrentInfo_InfoHash := TorrentInfo_InfoHash rec;
            TorrentInfo_Size := TorrentInfo_Size rec;
            TorrentInfo_Files := TorrentInfo_Files rec;
            TorrentInfo_WebSeeds := TorrentInfo_WebSeeds rec;
            TorrentInfo_CreatedBy := TorrentInfo_CreatedBy rec;
            TorrentInfo_CreatedDate := TorrentInfo_CreatedDate rec;
            TorrentInfo_Comment := TorrentInfo_Comment rec;
            TorrentInfo_FilePath := filePath' |}.
Proof.
  intros w now filePath data w' filePath' data' junk rec h R R' Hc P C.
  destruct (@parseTorrentFile_Ok _ _ _ _ P) as (data0 & metaInfo & R0 & M).
  assert (data0 = data) by congruence. subst data0.
  assert (M' : DecodeTorrentMetaInfo (contents data') = Ok metaInfo).
  { rewrite Hc. apply DecodeBytes_junk; [|exact M].
    apply intoStruct_robust, TorrentMetaInfo_field_robust. }
  assert (C' : calculateInfoHash data' = Ok h).
  { revert C. unfold calculateInfoHash.
    destruct (DecodeMap (contents data)) as [torrent| | |] eqn:D;
      cbv beta iota delta [bind]; try discriminate.
    assert (D' : DecodeMap (contents data ++ junk) = Ok torrent)
      by (apply DecodeBytes_junk; [apply intoMap_robust|exact D]).
    rewrite Hc, D'. trivial. }
  rewrite (@parseTorrentFile_with w' now filePath' data' metaInfo R' M' h (or_introl C')).
  rewrite (@parseTorrentFile_with w now filePath data metaInfo R M h (or_introl C)) in P.
  injection P as <-. reflexivity.
Qed.

(** The minimal torrent with four bytes after it. *)
Lemma trailing_bytes_ignored_witness :
  parseTorrentFile (oneFile (exactly (torrentA ++ str "junk"))) (Unix 0 0) aPath
  = Ok {| TorrentInfo_Name := TorrentInfo_Name recordA;
          TorrentInfo_InfoHash := TorrentInfo_InfoHash recordA;
          TorrentInfo_Size := TorrentInfo_Size recordA;
          TorrentInfo_Files := TorrentInfo_Files recordA;
          TorrentInfo_WebSeeds := TorrentInfo_WebSeeds recordA;
          TorrentInfo_CreatedBy := TorrentInfo_CreatedBy recordA;
          TorrentInfo_CreatedDate := TorrentInfo_CreatedDate recordA;
          TorrentInfo_Comment := TorrentInfo_Comment recordA;
          TorrentInfo_FilePath := aPath |}.
Proof.
  apply (@trailing_bytes_ignored twoGood (Unix 0 0) (str "./torrents/a.torrent")
           (buffered torrentA (repeat zero 512))
           (oneFile (exactly (torrentA ++ str "junk"))) aPath
           (exactly (torrentA ++ str "junk")) (str "junk") recordA
           (str "ab58ac98894a72e12af48d0bedcb60830f7356af"));
    vm_compute; reflexivity.
Defined.

(** ** Starting the server *)

(** X22: [main] starts a server only after a first scan that could list
    the directory, and the server holds the catalog of that scan; the
    directory is the first argument, or [./torrents]; and when
    [BASE_URL] is not set, the base URL of the links is
    [http://localhost] followed by the very address the server listens
    on. *)
Theorem server_starts_after_first_scan :
  forall env p,
    let dir :=
      match Args p with
      | _ :: arg :: _ => arg
      | _ => str "./torrents"
      end in
    (ReadDir env dir = None -> main env p = Err ErrReadDir) /\
    (forall s addr,
       main env p = Ok (s, addr) ->
       torrentManager s = snd (LoadTorrents env (NewTorrentManager dir)) /\
       torrentsDir (torrentManager s) = dir /\
       (Getenv p (str "BASE_URL") = [] ->
        baseURL s = str "http://localhost" ++ addr)).
Proof.
  intros env p dir. unfold main. fold dir. split.
  - intros R. unfold LoadTorrents. cbn [NewTorrentManager torrentsDir].
    now rewrite R.
  - intros s addr.
    pose proof (LoadTorrents_dir env (NewTorrentManager dir)) as D.
    destruct (LoadTorrents env (NewTorrentManager dir)) as [[[]|e| |] tm];
      simpl; try discriminate.
    intros [= <- <-]. cbn [torrentManager baseURL snd] in *.
    split; [reflexivity|]. split; [exact D|].
    intros ->. reflexivity.
Qed.

(** A start on a directory that cannot be listed, and a start with no argument and nothing set. *)
Lemma server_starts_after_first_scan_witness :
  main (oneFile (exactly torrentA))
       {| Args := [str "webseed2torznab"; str "./elsewhere"]; Getenv := fun _ => [] |}
  = Err ErrReadDir /\
  exists s,
    main (oneFile (exactly torrentA)) bareProcess = Ok (s, str ":8080") /\
    baseURL s = str "http://localhost" ++ str ":8080".
Proof.
  split.
  - apply (proj1 (server_starts_after_first_scan (oneFile (exactly torrentA))
                    {| Args := [str "webseed2torznab"; str "./elsewhere"];
                       Getenv := fun _ => [] |})).
    vm_compute; reflexivity.
  - eexists. split; [vm_compute; reflexivity|].
    apply (proj2 (server_starts_after_first_scan (oneFile (exactly torrentA))
                    bareProcess) _ (str ":8080")).
    + vm_compute; reflexivity.
    + reflexivity.
Defined.
